(** * secp256r1 signature and key codecs (system/crypto/secp256r1/utils.go)

    A shallow embedding of the Go functions of [utils.go] together with the
    parts of [math/big], [crypto/elliptic] and [encoding/asn1] they call,
    followed by the properties of the codecs.

    Conventions.
    - A [*big.Int] is a [Z]; a nil pointer is [None] where the code tests it.
    - A [[]byte] is a [list byte]; a slice expression that Go would reject
      at run time yields the outcome [Panic].
    - An [error] value is an element of [error]; [Error] gives its text.
    - An [int] is a [Z]: the lengths and offsets computed here stay far
      below 2^63.

    The first part holds the definitions, the second the properties: the
    byte codecs, the key codecs, the signature codec (what asn1 writes it
    reads back, up to its length limit of 2^31), the arithmetic of the
    prime of P-256 behind point decompression, further properties of each
    function, and the Jacobi symbol with its reciprocity law, from which the
    loop of [big.Jacobi] is shown to compute the symbol and decompression
    to find every point. *)

From Stdlib Require Import String.
From Stdlib Require Import ZArith List Lia Bool Znumtheory Permutation.
From coqutil Require Import Byte.
Import ListNotations.
Open Scope Z_scope.

(** ** Outcomes of a call *)

(** A call returns a value, returns an error of type [E], or panics. *)
Inductive result (E A : Type) : Type :=
| Ok (a : A)
| Err (e : E)
| Panic.
Arguments Ok {E A} a.
Arguments Err {E A} e.
Arguments Panic {E A}.

Definition bind {E A B : Type} (r : result E A) (k : A -> result E B)
  : result E B :=
  match r with
  | Ok a => k a
  | Err e => Err e
  | Panic => Panic
  end.

Notation "x <- r ;; k" := (bind r (fun x => k))
  (at level 61, r at next level, right associativity).
Notation "' p <- r ;; k" := (bind r (fun x => let p := x in k))
  (at level 61, p pattern, r at next level, right associativity).

(** ** Byte slices *)

Definition len {A : Type} (s : list A) : Z := Z.of_nat (length s).

(** [s[i]]; out of range is the run-time panic "index out of range". *)
Definition index {E : Type} (s : list byte) (i : Z) : result E byte :=
  if (0 <=? i) && (i <? len s)
  then Ok (nth (Z.to_nat i) s Byte.x00)
  else Panic.

(** [s[lo:hi]] and [s[lo:]]; out of range is the run-time panic
    "slice bounds out of range".  The capacity of a slice is taken to be
    its length; [s[lo:]] does not depend on this, Go compares [lo] with the
    length there. *)
Definition slice {E A : Type} (s : list A) (lo hi : Z) : result E (list A) :=
  if (0 <=? lo) && (lo <=? hi) && (hi <=? len s)
  then Ok (firstn (Z.to_nat (hi - lo)) (skipn (Z.to_nat lo) s))
  else Panic.

Definition slice_from {E A : Type} (s : list A) (lo : Z) : result E (list A) :=
  slice s lo (len s).

(** [copy(dst, src)]: overwrites the first [min(len dst, len src)] cells. *)
Definition copy {A : Type} (dst src : list A) : list A :=
  firstn (length dst) src ++ skipn (length src) dst.

(** [make([]byte, n)] *)
Definition make (n : Z) : list byte := repeat Byte.x00 (Z.to_nat n).

(** ** math/big *)
Module big.

(** [x.SetBytes(buf)]: [buf] read as a big-endian unsigned integer. *)
Definition SetBytes (buf : list byte) : Z :=
  fold_left (fun acc b => acc * 256 + byte.unsigned b) buf 0.

(** [x.BitLen()]: length of the absolute value in bits, 0 for 0. *)
Definition BitLen (x : Z) : Z :=
  if x =? 0 then 0 else Z.log2 (Z.abs x) + 1.

(** The [k] low-order bytes of [a], most significant first. *)
Fixpoint be_bytes (k : nat) (a : Z) : list byte :=
  match k with
  | O => []
  | S k' => byte.of_Z (Z.shiftr a (8 * Z.of_nat k')) :: be_bytes k' a
  end.

(** [x.Bytes()]: the absolute value as a big-endian byte slice without
    leading zero bytes (empty for 0). *)
Definition Bytes (x : Z) : list byte :=
  be_bytes (Z.to_nat ((BitLen x + 7) / 8)) (Z.abs x).

(** [x.Bit(i)], two's complement for negative [x]. *)
Definition Bit (x : Z) (i : Z) : Z := Z.b2z (Z.testbit x i).

(** [x.Sign()] *)
Definition Sign (x : Z) : Z := Z.sgn x.

(** [x.Cmp(y)] *)
Definition Cmp (x y : Z) : Z :=
  match x ?= y with
  | Lt => -1
  | Eq => 0
  | Gt => 1
  end.

(** [z.Rsh(x, n)] and [z.Lsh(x, n)] *)
Definition Rsh (x : Z) (n : Z) : Z := Z.shiftr x n.
Definition Lsh (x : Z) (n : Z) : Z := Z.shiftl x n.

(** [z.Mod(x, y)]: Euclidean modulus, in [[0, |y|)]. *)
Definition Mod (x y : Z) : Z := x mod Z.abs y.

(** [z.Exp(x, y, m)] for [y >= 0] and [m > 0]: x**y mod m, by binary
    exponentiation on the bits of [y]. *)
Fixpoint exp_pos (x : Z) (e : positive) (m : Z) : Z :=
  match e with
  | xH => x mod m
  | xO e' => let h := exp_pos x e' m in (h * h) mod m
  | xI e' => let h := exp_pos x e' m in ((h * h) mod m * x) mod m
  end.

Definition Exp (x y m : Z) : Z :=
  match y with
  | Zpos e => exp_pos x e m
  | _ => 1 mod m
  end.

(** [nat.trailingZeroBits] of the absolute value. *)
Fixpoint trailingZeroBits_pos (p : positive) : Z :=
  match p with
  | xO p' => 1 + trailingZeroBits_pos p'
  | _ => 0
  end.

Definition trailingZeroBits (a : Z) : Z :=
  match a with
  | Z0 => 0
  | Zpos p | Zneg p => trailingZeroBits_pos p
  end.

(** One round of the loop of [Jacobi] per unit of [rounds]; [None] when
    the rounds are used up before the loop returns. *)
Fixpoint Jacobi_loop (rounds : nat) (a b j : Z) : option Z :=
  match rounds with
  | O => None
  | S rounds' =>
      if b =? 1 then Some j
      else if a =? 0 then Some 0
      else
        let a := Mod a b in
        if a =? 0 then Some 0
        else
          (* a > 0: handle factors of 2 in a *)
          let s := trailingZeroBits a in
          let j :=
            if negb (Z.land s 1 =? 0) then
              let bmod8 := Z.land b 7 in
              if (bmod8 =? 3) || (bmod8 =? 5) then - j else j
            else j in
          let c := Rsh a s in
          (* swap numerator and denominator *)
          let j :=
            if (Z.land b 3 =? 3) && (Z.land c 3 =? 3) then - j else j in
          Jacobi_loop rounds' b c j
  end.

(** [Jacobi(x, y)]: the Jacobi symbol (x/y).  [None] is the panic of Go
    on an even (or zero) [y]; for odd [y] the [2 * BitLen y + 2] rounds
    always suffice ([Jacobi_loop_enough] below). *)
Definition Jacobi (x y : Z) : option Z :=
  if (y =? 0) || (Z.land (Z.abs y) 1 =? 0) then None
  else
    let a := x in
    let b := Z.abs y in
    let j := if (y <? 0) && (a <? 0) then -1 else 1 in
    Jacobi_loop (Z.to_nat (2 * BitLen y + 2)) a b j.

(** [z.modSqrt3Mod4Prime(x, p)]: x^((p+1)/4) mod p. *)
Definition modSqrt3Mod4Prime (x p : Z) : Z :=
  let e := Rsh (p + 1) 2 in
  Exp x e p.

(** [z.ModSqrt(x, p)] for a modulus with p mod 4 = 3 (the case of the
    prime of P-256; the branches of Go for the other residues of [p] are
    not part of this model and give the outer [None], as does the panic
    of [Jacobi]; neither happens for the prime of P-256, see
    [ModSqrt_P256_total]).  [Some None] is the nil result: [x] is not a
    square. *)
Definition ModSqrt (x p : Z) : option (option Z) :=
  match Jacobi x p with
  | None => None
  | Some j =>
      if j =? -1 then Some None
      else if j =? 0 then Some (Some 0)
      else
        let x := if (x <? 0) || (x >=? p) then Mod x p else x in
        if Z.land (Z.abs p) 3 =? 3
        then Some (Some (modSqrt3Mod4Prime x p))
        else None
  end.

End big.

(** ** crypto/elliptic and crypto/ecdsa *)
Module elliptic.

Record CurveParams : Type := {
  P : Z;
  N : Z;
  B : Z;
  BitSize : Z
}.

(** The parameters of [elliptic.P256()] (FIPS 186-3, section D.2.3). *)
Definition P256 : CurveParams := {|
  P := 0xffffffff00000001000000000000000000000000ffffffffffffffffffffffff;
  N := 0xffffffff00000000ffffffffffffffffbce6faada7179e84f3b9cac2fc632551;
  B := 0x5ac635d8aa3a93e7b3ebbd55769886bc651d06b0cc53b0f63bce3c3e27d2604b;
  BitSize := 256
|}.

(** [curve.IsOnCurve(x, y)] of [CurveParams]: y² = x³ - 3x + b (mod P).
    [utils.go] applies it to coordinates in [[0, P)] only. *)
Definition IsOnCurve (curve : CurveParams) (x y : Z) : bool :=
  let y2 := big.Mod (y * y) (P curve) in
  let x3 := x * x * x in
  let threeX := big.Lsh x 1 + x in
  big.Mod (x3 - threeX + B curve) (P curve) =? y2.

End elliptic.

Module ecdsa.

(** The curve of a key is always [elliptic.P256()] here. *)
Record PublicKey : Type := {
  X : Z;
  Y : Z
}.

Record PrivateKey : Type := {
  Public : PublicKey;
  D : Z
}.

End ecdsa.

(** ** encoding/asn1, at the type [signatureECDSA] *)
Module asn1.

Inductive error : Type :=
| StructuralError (Msg : string)
| SyntaxError (Msg : string)
| internalError.

Definition Error (e : error) : string :=
  match e with
  | StructuralError m => "asn1: structure error: " ++ m
  | SyntaxError m => "asn1: syntax error: " ++ m
  | internalError => "asn1: internal error in parseTagAndLength"
  end%string.

Definition ClassUniversal : Z := 0.
Definition TagInteger : Z := 2.
Definition TagSequence : Z := 16.
Definition MaxInt32 : Z := 2 ^ 31 - 1.

Record tagAndLength : Type := {
  class : Z;
  tag : Z;
  length : Z;
  isCompound : bool
}.

(** *** Unmarshal: tag, length and integer contents *)

(** [parseBase128Int]; [left] is [5 - shifted], the number of bytes the
    loop may still take. *)
Fixpoint parseBase128Int_loop (left : nat) (bytes : list byte)
    (offset ret64 : Z) (first : bool) : result error (Z * Z) :=
  if negb (offset <? len bytes)
  then Err (SyntaxError "truncated base 128 integer")
  else
    match left with
    | O => Err (StructuralError "base 128 integer too large")
    | S left' =>
        let ret64 := Z.shiftl ret64 7 in
        b <- index bytes offset ;;
        if first && (byte.unsigned b =? 0x80)
        then Err (SyntaxError "integer is not minimally encoded")
        else
          let ret64 := Z.lor ret64 (Z.land (byte.unsigned b) 0x7f) in
          let offset := offset + 1 in
          if Z.land (byte.unsigned b) 0x80 =? 0
          then
            if ret64 >? MaxInt32
            then Err (StructuralError "base 128 integer too large")
            else Ok (ret64, offset)
          else parseBase128Int_loop left' bytes offset ret64 false
    end.

Definition parseBase128Int (bytes : list byte) (initOffset : Z)
  : result error (Z * Z) :=
  parseBase128Int_loop 5 bytes initOffset 0 true.

(** The loop over the [numBytes] length octets of the long form. *)
Fixpoint parseLength_loop (numBytes : nat) (bytes : list byte)
    (offset length : Z) : result error (Z * Z) :=
  match numBytes with
  | O => Ok (length, offset)
  | S numBytes' =>
      if offset >=? len bytes
      then Err (SyntaxError "truncated tag or length")
      else
        b <- index bytes offset ;;
        let offset := offset + 1 in
        if length >=? Z.shiftl 1 23
        then Err (StructuralError "length too large")
        else
          let length := Z.shiftl length 8 in
          let length := Z.lor length (byte.unsigned b) in
          if length =? 0
          then Err (StructuralError "superfluous leading zeros in length")
          else parseLength_loop numBytes' bytes offset length
  end.

Definition parseTagAndLength (bytes : list byte) (initOffset : Z)
  : result error (tagAndLength * Z) :=
  let offset := initOffset in
  if offset >=? len bytes then Err internalError
  else
    b <- index bytes offset ;;
    let offset := offset + 1 in
    let class := Z.shiftr (byte.unsigned b) 6 in
    let isCompound := Z.land (byte.unsigned b) 0x20 =? 0x20 in
    let tag := Z.land (byte.unsigned b) 0x1f in
    '(tag, offset) <-
      (if tag =? 0x1f
       then
         '(tag, offset) <- parseBase128Int bytes offset ;;
         if tag <? 0x1f then Err (SyntaxError "non-minimal tag")
         else Ok (tag, offset)
       else Ok (tag, offset)) ;;
    if offset >=? len bytes
    then Err (SyntaxError "truncated tag or length")
    else
      b <- index bytes offset ;;
      let offset := offset + 1 in
      if Z.land (byte.unsigned b) 0x80 =? 0
      then
        Ok ({| class := class; tag := tag;
               length := Z.land (byte.unsigned b) 0x7f;
               isCompound := isCompound |}, offset)
      else
        let numBytes := Z.land (byte.unsigned b) 0x7f in
        if numBytes =? 0
        then Err (SyntaxError "indefinite length found (not DER)")
        else
          '(length, offset) <-
            parseLength_loop (Z.to_nat numBytes) bytes offset 0 ;;
          if length <? 0x80
          then Err (StructuralError "non-minimal length")
          else
            Ok ({| class := class; tag := tag; length := length;
                   isCompound := isCompound |}, offset).

Definition invalidLength (offset length sliceLength : Z) : bool :=
  (offset + length <? offset) || (offset + length >? sliceLength).

Definition checkInteger (bytes : list byte) : result error unit :=
  match bytes with
  | [] => Err (StructuralError "empty integer")
  | [_] => Ok tt
  | b0 :: b1 :: _ =>
      if ((byte.unsigned b0 =? 0) && (Z.land (byte.unsigned b1) 0x80 =? 0))
         || ((byte.unsigned b0 =? 0xff)
             && (Z.land (byte.unsigned b1) 0x80 =? 0x80))
      then Err (StructuralError "integer not minimally-encoded")
      else Ok tt
  end.

(** [^b] on a byte *)
Definition not (b : byte) : byte := byte.xor b Byte.xff.

Definition parseBigInt (bytes : list byte) : result error Z :=
  _ <- checkInteger bytes ;;
  if (0 <? len bytes)
     && (Z.land (byte.unsigned (hd Byte.x00 bytes)) 0x80 =? 0x80)
  then
    (* This is a negative number. *)
    let notBytes := map not bytes in
    Ok (- (big.SetBytes notBytes + 1))
  else Ok (big.SetBytes bytes).

(** [parseField] up to the point where the contents are handed to the
    parser of the Go type: [universalTag] and [compoundType] are what
    [getUniversalType] gives for that type, [body] parses the contents.
    The field is not optional, so running out of data or meeting another
    tag is an error.  Returns the value and the offset after the field. *)
Definition parseField {A : Type} (universalTag : Z) (compoundType : bool)
    (body : list byte -> result error A)
    (bytes : list byte) (initOffset : Z) : result error (A * Z) :=
  let offset := initOffset in
  if offset =? len bytes then Err (SyntaxError "sequence truncated")
  else
    '(t, offset) <- parseTagAndLength bytes offset ;;
    if negb (class t =? ClassUniversal) || negb (tag t =? universalTag)
       || negb (Bool.eqb (isCompound t) compoundType)
    then Err (StructuralError "tags don't match")
    else if invalidLength offset (length t) (len bytes)
    then Err (SyntaxError "data truncated")
    else
      innerBytes <- slice bytes offset (offset + length t) ;;
      let offset := offset + length t in
      v <- body innerBytes ;;
      Ok (v, offset).

(** A field of type [*big.Int]. *)
Definition parseField_bigInt : list byte -> Z -> result error (Z * Z) :=
  parseField TagInteger false parseBigInt.

(** *** Marshal: tag, length and integer contents *)

(** [lengthLength]; an [int] has 64 bits, so the loop runs at most 7
    times. *)
Fixpoint lengthLength_loop (rounds : nat) (i numBytes : Z) : Z :=
  match rounds with
  | O => numBytes
  | S rounds' =>
      if i >? 255
      then lengthLength_loop rounds' (Z.shiftr i 8) (numBytes + 1)
      else numBytes
  end.

Definition lengthLength (i : Z) : Z := lengthLength_loop 7 i 1.

Fixpoint appendLength_loop (n : nat) (dst : list byte) (i : Z) : list byte :=
  match n with
  | O => dst
  | S n' =>
      appendLength_loop n'
        (dst ++ [byte.of_Z (Z.shiftr i (Z.of_nat n' * 8))]) i
  end.

Definition appendLength (dst : list byte) (i : Z) : list byte :=
  appendLength_loop (Z.to_nat (lengthLength i)) dst i.

(** [appendTagAndLength] for a tag below 31 (the tags used here are 2 and
    16). *)
Definition appendTagAndLength (dst : list byte) (t : tagAndLength)
  : list byte :=
  let b := Z.shiftl (class t) 6 in
  let b := if isCompound t then Z.lor b 0x20 else b in
  let b := Z.lor b (tag t) in
  let dst := dst ++ [byte.of_Z b] in
  if length t >=? 128
  then
    let l := lengthLength (length t) in
    let dst := dst ++ [byte.of_Z (Z.lor 0x80 l)] in
    appendLength dst (length t)
  else dst ++ [byte.of_Z (length t)].

Definition makeBigInt (n : option Z) : result error (list byte) :=
  match n with
  | None => Err (StructuralError "empty integer")
  | Some n =>
      if big.Sign n <? 0 then
        let nMinus1 := - n - 1 in
        let bytes := map not (big.Bytes nMinus1) in
        if (len bytes =? 0)
           || (Z.land (byte.unsigned (hd Byte.x00 bytes)) 0x80 =? 0)
        then Ok (Byte.xff :: bytes)
        else Ok bytes
      else if big.Sign n =? 0 then Ok [Byte.x00]
      else
        let bytes := big.Bytes n in
        if (0 <? len bytes)
           && negb (Z.land (byte.unsigned (hd Byte.x00 bytes)) 0x80 =? 0)
        then Ok (Byte.x00 :: bytes)
        else Ok bytes
  end.

(** [makeField]: tag, length, contents. *)
Definition makeField (universalTag : Z) (compoundType : bool)
    (body : list byte) : list byte :=
  appendTagAndLength []
    {| class := ClassUniversal; tag := universalTag;
       length := len body; isCompound := compoundType |} ++ body.

(** *** The type [signatureECDSA] *)

(** Modelled from the spec: the struct [signatureECDSA] is declared in
    another file of the package; it holds the two integers of the
    signature, [R] then [S], as [*big.Int] ([None] is nil). *)
Record signatureECDSA : Type := {
  R : option Z;
  S : option Z
}.

(** The contents of the SEQUENCE: the fields in order; bytes left over
    after the last field are allowed. *)
Definition parseStruct_signatureECDSA (innerBytes : list byte)
  : result error signatureECDSA :=
  let innerOffset := 0 in
  '(r, innerOffset) <- parseField_bigInt innerBytes innerOffset ;;
  '(s, innerOffset) <- parseField_bigInt innerBytes innerOffset ;;
  Ok {| R := Some r; S := Some s |}.

(** [asn1.Unmarshal(b, val)] for [val] of type [*signatureECDSA]: the
    value parsed and the rest of [b]. *)
Definition Unmarshal (b : list byte)
  : result error (list byte * signatureECDSA) :=
  '(v, offset) <- parseField TagSequence true parseStruct_signatureECDSA b 0 ;;
  rest <- slice_from b offset ;;
  Ok (rest, v).

(** [asn1.Marshal(val)] for [val] of type [signatureECDSA]. *)
Definition Marshal (val : signatureECDSA) : result error (list byte) :=
  r <- makeBigInt (R val) ;;
  s <- makeBigInt (S val) ;;
  let body := makeField TagInteger false r ++ makeField TagInteger false s in
  Ok (makeField TagSequence true body).

End asn1.

(** ** utils.go *)

(** Every [errors.New] / [fmt.Errorf] site of [utils.go], in source order.
    [ErrUnmarshal] wraps the error of [asn1.Unmarshal]. *)
Inductive error : Type :=
| ErrUnmarshal (cause : asn1.error)
| ErrRNil
| ErrSNil
| ErrRNotPositive
| ErrSNotPositive
| ErrPubkeyEmpty
| ErrXGeP
| ErrYGeP
| ErrNotOnCurve
| ErrByteLen
| ErrCompressedForm
| ErrXData
| ErrYData
| ErrIsOnCurve.

Definition Error (e : error) : string :=
  match e with
  | ErrUnmarshal cause =>
      "failed unmashalling signature [" ++ asn1.Error cause ++ "]"
  | ErrRNil => "invalid signature, R must be different from nil"
  | ErrSNil => "invalid signature, S must be different from nil"
  | ErrRNotPositive => "invalid signature, R must be larger than zero"
  | ErrSNotPositive => "invalid signature, S must be larger than zero"
  | ErrPubkeyEmpty => "pubkey string is empty"
  | ErrXGeP => "pubkey X parameter is >= to P"
  | ErrYGeP => "pubkey Y parameter is >= to P"
  | ErrNotOnCurve => "pubkey isn't on secp256k1 curve"
  | ErrByteLen => "parsePubKeyCompressed byteLen error"
  | ErrCompressedForm => "parsePubKeyCompressed compressed form error"
  | ErrXData => "parsePubKeyCompressed x data error"
  | ErrYData => "parsePubKeyCompressed y data error"
  | ErrIsOnCurve => "parsePubKeyCompressed IsOnCurve error"
  end%string.

(** The error kinds of the specification (section 7) and the kind each
    error of the code falls under. *)
Inductive kind : Type :=
| DecodeError
| EmptyInput
| InvalidEncoding
| InvalidKey
| NoSquareRoot.

Definition kind_of (e : error) : kind :=
  match e with
  | ErrUnmarshal _ | ErrRNil | ErrSNil | ErrRNotPositive | ErrSNotPositive =>
      DecodeError
  | ErrPubkeyEmpty => EmptyInput
  | ErrByteLen | ErrCompressedForm => InvalidEncoding
  | ErrXGeP | ErrYGeP | ErrNotOnCurve | ErrXData | ErrIsOnCurve => InvalidKey
  | ErrYData => NoSquareRoot
  end.

Definition pubkeyUncompressed : byte := Byte.x04.

(** Modelled from the spec: the constant [privateKeyECDSALength] is
    declared in another file of the package; the private-key wire format of
    section 6 fixes it to 32 bytes. *)
Definition privateKeyECDSALength : Z := 32.

(** Modelled from the spec: the constant [publicKeyECDSALength] is declared
    in another file of the package; the uncompressed wire format of
    section 6 fixes it to 65 bytes.  It is only the capacity of the buffer
    of [SerializePublicKey]. *)
Definition publicKeyECDSALength : Z := 65.

(** [IsLowS]: [s.Cmp(N >> 1) != 1]. *)
Definition IsLowS (s : Z) : bool :=
  negb (big.Cmp s (big.Rsh (elliptic.N elliptic.P256) 1) =? 1).


(** [paddedAppend]: the loop appends [int(size) - len(src)] zero bytes (none
    when that is not positive), then [src]. *)
Definition paddedAppend (size : Z) (dst src : list byte) : list byte :=
  Nat.iter (Z.to_nat (size - len src)) (fun d => d ++ [Byte.x00]) dst ++ src.

Definition SerializePrivateKey (p : ecdsa.PrivateKey) : list byte :=
  let b := @nil byte in
  paddedAppend privateKeyECDSALength b (big.Bytes (ecdsa.D p)).

(** [MarshalECDSASignature] *)
Definition MarshalECDSASignature (r s : option Z)
  : result asn1.error (list byte) :=
  asn1.Marshal {| asn1.R := r; asn1.S := s |}.

(** The checks of [UnmarshalECDSASignature] on the parsed struct. *)
Definition checkSignature (sig : asn1.signatureECDSA) : result error (Z * Z) :=
  match asn1.R sig with
  | None => Err ErrRNil
  | Some r =>
      match asn1.S sig with
      | None => Err ErrSNil
      | Some s =>
          if negb (big.Sign r =? 1) then Err ErrRNotPositive
          else if negb (big.Sign s =? 1) then Err ErrSNotPositive
          else Ok (r, s)
      end
  end.

(** [UnmarshalECDSASignature]; the rest returned by [asn1.Unmarshal] is
    dropped. *)
Definition UnmarshalECDSASignature (raw : list byte) : result error (Z * Z) :=
  match asn1.Unmarshal raw with
  | Err err => Err (ErrUnmarshal err)
  | Panic => Panic
  | Ok (_, sig) => checkSignature sig
  end.

(** [parsePubKey] *)
Definition parsePubKey (pubKeyStr : list byte) : result error ecdsa.PublicKey :=
  let curve := elliptic.P256 in
  if len pubKeyStr =? 0 then Err ErrPubkeyEmpty
  else
    xs <- slice pubKeyStr 1 33 ;;
    let X := big.SetBytes xs in
    ys <- slice_from pubKeyStr 33 ;;
    let Y := big.SetBytes ys in
    if big.Cmp X (elliptic.P curve) >=? 0 then Err ErrXGeP
    else if big.Cmp Y (elliptic.P curve) >=? 0 then Err ErrYGeP
    else if negb (elliptic.IsOnCurve curve X Y) then Err ErrNotOnCurve
    else Ok {| ecdsa.X := X; ecdsa.Y := Y |}.

(** [SerializePublicKeyCompressed] *)
Definition SerializePublicKeyCompressed (p : ecdsa.PublicKey) : list byte :=
  let byteLen := Z.shiftr (elliptic.BitSize elliptic.P256 + 7) 3 in
  let compressed := make (1 + byteLen) in
  let compressed0 := byte.of_Z (Z.lor (big.Bit (ecdsa.Y p) 0) 2) in
  let xBytes := big.Bytes (ecdsa.X p) in
  compressed0 :: copy (skipn 1 compressed) xBytes.

(** [polynomial]: x³ - 3x + B mod P. *)
Definition polynomial (B P x : Z) : Z :=
  let x3 := x * x in
  let x3 := x3 * x in
  let threeX := big.Lsh x 1 in
  let threeX := threeX + x in
  let x3 := x3 - threeX in
  let x3 := x3 + B in
  big.Mod x3 P.

(** [parsePubKeyCompressed] *)
Definition parsePubKeyCompressed (data : list byte)
  : result error ecdsa.PublicKey :=
  let curve := elliptic.P256 in
  let byteLen := (elliptic.BitSize curve + 7) / 8 in
  if negb (len data =? 1 + byteLen) then Err ErrByteLen
  else
    data0 <- index data 0 ;;
    if negb (byte.unsigned data0 =? 2) && negb (byte.unsigned data0 =? 3)
    then Err ErrCompressedForm
    else
      let p := elliptic.P curve in
      xs <- slice_from data 1 ;;
      let x := big.SetBytes xs in
      if big.Cmp x p >=? 0 then Err ErrXData
      else
        let y := polynomial (elliptic.B curve) (elliptic.P curve) x in
        match big.ModSqrt y p with
        | None => Panic
        | Some None => Err ErrYData
        | Some (Some y) =>
            let y :=
              if negb (big.Bit y 0 =? Z.land (byte.unsigned data0) 1)
              then big.Mod (- y) p
              else y in
            if negb (elliptic.IsOnCurve curve x y) then Err ErrIsOnCurve
            else Ok {| ecdsa.X := x; ecdsa.Y := y |}
        end.

(** [SerializePublicKey] *)
Definition SerializePublicKey (p : ecdsa.PublicKey) : list byte :=
  let b := @nil byte in
  let b := b ++ [Byte.x04] in
  let b := paddedAppend 32 b (big.Bytes (ecdsa.X p)) in
  paddedAppend 32 b (big.Bytes (ecdsa.Y p)).

(** ** Vocabulary of the specification *)

(** A valid curve point: coordinates in [[0, P)] on the curve. *)
Definition valid_point (Q : ecdsa.PublicKey) : Prop :=
  0 <= ecdsa.X Q < elliptic.P elliptic.P256 /\
  0 <= ecdsa.Y Q < elliptic.P elliptic.P256 /\
  elliptic.IsOnCurve elliptic.P256 (ecdsa.X Q) (ecdsa.Y Q) = true.

(** The compressed form the specification asks for: the parity tag, then X
    as a 32-byte big-endian field padded with zero bytes on the left. *)
Definition compressed_form (Q : ecdsa.PublicKey) : list byte :=
  (if Z.even (ecdsa.Y Q) then Byte.x02 else Byte.x03)
  :: paddedAppend 32 [] (big.Bytes (ecdsa.X Q)).

(** A point of P-256 whose X coordinate takes one byte. *)
Definition Q5 : ecdsa.PublicKey := {|
  ecdsa.X := 5;
  ecdsa.Y := 0x459243b9aa581806fe913bce99817ade11ca503c64d9a3c533415c083248fbcc
|}.

(** A compressed key with tag 0x03. *)
Definition compressed_odd : list byte :=
  Byte.x03 :: Byte.x05 :: repeat Byte.x00 31.


(** The encoding of the pair (5, 255). *)
Definition sig_5_255 : list byte :=
  [Byte.x30; Byte.x07; Byte.x02; Byte.x01; Byte.x05;
   Byte.x02; Byte.x02; Byte.x00; Byte.xff].

(** ** Arithmetic for the proofs about the prime of P-256 *)

(** Product of a list of integers. *)
Definition Zprod (l : list Z) : Z := fold_right Z.mul 1 l.

(** The residues 1, ..., p-1. *)
Definition residues (p : Z) : list Z :=
  map Z.of_nat (seq 1 (Z.to_nat (p - 1))).

(** Strictly increasing, above [lo]. *)
Fixpoint increasing (lo : Z) (l : list Z) : bool :=
  match l with
  | [] => true
  | q :: l' => (lo <? q) && increasing q l'
  end.

(** A Pocklington certificate for [n]: pairs (q, a) of a prime factor q of
    n - 1 and a base a with a^(n-1) = 1 (mod n) and
    gcd(a^((n-1)/q) - 1, n) = 1; the product F of the q exceeds sqrt n. *)
Definition pock_check (n : Z) (cert : list (Z * Z)) : bool :=
  (1 <? n)
  && increasing 1 (map fst cert)
  && (n <? Zprod (map fst cert) * Zprod (map fst cert))
  && forallb
       (fun qa =>
          ((n - 1) mod fst qa =? 0)
          && (big.Exp (snd qa) (n - 1) n =? 1)
          && (Z.gcd (big.Exp (snd qa) ((n - 1) / fst qa) n - 1) n =? 1))
       cert.

(** Trial division by d, d+1, ... while d * d <= n. *)
Fixpoint trial (fuel : nat) (d n : Z) : bool :=
  match fuel with
  | O => false
  | S fuel' =>
      if n <? d * d then true
      else if n mod d =? 0 then false
      else trial fuel' (d + 1) n
  end.

(** Primality of a small number, by trial division up to its square
    root. *)
Definition prime_small (n : Z) : bool :=
  (1 <? n) && trial (Z.to_nat (Z.sqrt n) + 1) 2 n.

(** Polynomials c0 + c1 X + c2 X^2 modulo X^3 - 3 X + b, coefficients
    modulo p. *)
Definition peval (u : Z * Z * Z) (x : Z) : Z :=
  let '(u0, u1, u2) := u in u0 + u1 * x + u2 * (x * x).

Definition pmul (b p : Z) (u v : Z * Z * Z) : Z * Z * Z :=
  let '(u0, u1, u2) := u in
  let '(v0, v1, v2) := v in
  let d0 := u0 * v0 in
  let d1 := u0 * v1 + u1 * v0 in
  let d2 := u0 * v2 + u1 * v1 + u2 * v0 in
  let d3 := u1 * v2 + u2 * v1 in
  let d4 := u2 * v2 in
  ((d0 - b * d3) mod p, (d1 + 3 * d3 - b * d4) mod p, (d2 + 3 * d4) mod p).

Fixpoint ppow (b p : Z) (u : Z * Z * Z) (e : positive) : Z * Z * Z :=
  match e with
  | xH => u
  | xO e' => let h := ppow b p u e' in pmul b p h h
  | xI e' => let h := ppow b p u e' in pmul b p (pmul b p h h) u
  end.

(** X^P modulo the curve polynomial and P. *)
Definition X_pow_P : Z * Z * Z :=
  (66434390973925144466073271287821796038003695194169110494110089305650096453661,
   12402202686218762177567235911775779164004716598278868847786114277539554646092,
   24678849118215552148312087830792888746041224110560601850711771001608500700145).


(** ** The Jacobi symbol, by counting *)

(** Sum of a list of integers. *)
Definition Zsum (l : list Z) : Z := fold_right Z.add 0 l.

(** The integers 1, ..., h. *)
Definition range (h : Z) : list Z := map Z.of_nat (seq 1 (Z.to_nat h)).

(** (n - 1) / 2 *)
Definition half (n : Z) : Z := (n - 1) / 2.

(** 1 when the residue of t modulo n lies above (n - 1) / 2, else 0. *)
Definition over (n t : Z) : Z := if t mod n <=? half n then 0 else 1.

(** The distance from t to the nearest multiple of n. *)
Definition absr (n t : Z) : Z :=
  if t mod n <=? half n then t mod n else n - t mod n.

(** The number of x in 1..(n-1)/2 for which a x has its residue above
    (n - 1) / 2. *)
Definition mu (a n : Z) : Z :=
  Zsum (map (fun x => over n (a * x)) (range (half n))).

(** (-1)^k *)
Definition sign (k : Z) : Z := if Z.even k then 1 else -1.

(** The Jacobi symbol (a/n) for odd positive n, as the parity of [mu]. *)
Definition jacobi_symbol (a n : Z) : Z :=
  if Z.gcd a n =? 1 then sign (mu a n) else 0.

(** * Properties *)

(** ** Big-endian bytes *)
Section BigEndian.

Lemma fold256_acc (l : list byte) (acc : Z) :
  fold_left (fun acc b => acc * 256 + byte.unsigned b) l acc =
  acc * 256 ^ len l + big.SetBytes l.
Proof.
  unfold big.SetBytes, len. revert acc.
  induction l as [|b l IH]; intros acc; cbn [fold_left List.length].
  - change (Z.of_nat 0) with 0. rewrite Z.pow_0_r. lia.
  - rewrite (IH (acc * 256 + byte.unsigned b)), (IH (0 * 256 + byte.unsigned b)).
    rewrite Nat2Z.inj_succ, Z.pow_succ_r by lia. ring.
Qed.

Lemma SetBytes_cons (b : byte) (l : list byte) :
  big.SetBytes (b :: l) = byte.unsigned b * 256 ^ len l + big.SetBytes l.
Proof.
  unfold big.SetBytes at 1. cbn [fold_left]. rewrite fold256_acc. ring.
Qed.

Lemma SetBytes_app (l1 l2 : list byte) :
  big.SetBytes (l1 ++ l2) = big.SetBytes l1 * 256 ^ len l2 + big.SetBytes l2.
Proof.
  unfold big.SetBytes at 1. rewrite fold_left_app.
  fold (big.SetBytes l1). apply fold256_acc.
Qed.

Lemma SetBytes_zeros (n : nat) : big.SetBytes (repeat Byte.x00 n) = 0.
Proof.
  induction n as [|n IH]; [reflexivity|].
  cbn [repeat]. rewrite SetBytes_cons, IH. reflexivity.
Qed.

Lemma SetBytes_range (l : list byte) : 0 <= big.SetBytes l < 256 ^ len l.
Proof.
  induction l as [|b l IH].
  - cbv. split; congruence.
  - rewrite SetBytes_cons. unfold len in *. cbn [List.length].
    rewrite Nat2Z.inj_succ, Z.pow_succ_r by lia.
    pose proof (byte.unsigned_range b) as Hb.
    change (2 ^ 8) with 256 in Hb. nia.
Qed.

Lemma length_be_bytes (k : nat) (a : Z) : List.length (big.be_bytes k a) = k.
Proof. induction k; cbn [big.be_bytes List.length]; congruence. Qed.

Lemma SetBytes_be_bytes (k : nat) (a : Z) :
  big.SetBytes (big.be_bytes k a) = a mod 256 ^ Z.of_nat k.
Proof.
  induction k as [|k IH].
  - cbn [big.be_bytes]. change (Z.of_nat 0) with 0.
    rewrite Z.pow_0_r, Z.mod_1_r. reflexivity.
  - cbn [big.be_bytes]. rewrite SetBytes_cons, IH. unfold len.
    rewrite length_be_bytes, byte.unsigned_of_Z. unfold byte.wrap.
    rewrite Z.shiftr_div_pow2 by lia.
    rewrite Nat2Z.inj_succ, Z.pow_succ_r by lia.
    replace (2 ^ (8 * Z.of_nat k)) with (256 ^ Z.of_nat k)
      by (change 256 with (2 ^ 8); rewrite <- Z.pow_mul_r by lia; reflexivity).
    change (2 ^ 8) with 256.
    assert (0 < 256 ^ Z.of_nat k) by (apply Z.pow_pos_nonneg; lia).
    rewrite (Z.mul_comm 256 (256 ^ Z.of_nat k)).
    rewrite Z.rem_mul_r by lia. ring.
Qed.

Lemma BitLen_nonneg (x : Z) : 0 <= big.BitLen x.
Proof.
  unfold big.BitLen. destruct (x =? 0); [lia|].
  pose proof (Z.log2_nonneg (Z.abs x)). lia.
Qed.

Lemma BitLen_bound (x : Z) : Z.abs x < 2 ^ big.BitLen x.
Proof.
  unfold big.BitLen. destruct (Z.eqb_spec x 0) as [->|Hx].
  - cbn. lia.
  - apply Z.log2_spec. lia.
Qed.

Lemma BitLen_le (x k : Z) : 0 <= k -> Z.abs x < 2 ^ k -> big.BitLen x <= k.
Proof.
  intros Hk Hx. unfold big.BitLen. destruct (Z.eqb_spec x 0) as [->|Hx0]; [lia|].
  assert (Z.log2 (Z.abs x) < k) by (apply Z.log2_lt_pow2; lia). lia.
Qed.

Lemma length_Bytes (x : Z) : len (big.Bytes x) = (big.BitLen x + 7) / 8.
Proof.
  unfold big.Bytes, len. rewrite length_be_bytes.
  pose proof (BitLen_nonneg x).
  rewrite Z2Nat.id; [reflexivity|]. apply Z.div_pos; lia.
Qed.

Lemma length_Bytes_le (x : Z) (k : Z) :
  0 <= k -> Z.abs x < 256 ^ k -> len (big.Bytes x) <= k.
Proof.
  intros Hk Hx. rewrite length_Bytes.
  assert (big.BitLen x <= 8 * k).
  { apply BitLen_le; [lia|]. rewrite Z.pow_mul_r by lia. exact Hx. }
  assert ((big.BitLen x + 7) / 8 < k + 1); [|lia].
  apply Z.div_lt_upper_bound; lia.
Qed.

(** [SetBytes] undoes [Bytes] on the absolute value. *)
Lemma SetBytes_Bytes (x : Z) : big.SetBytes (big.Bytes x) = Z.abs x.
Proof.
  unfold big.Bytes. rewrite SetBytes_be_bytes.
  pose proof (BitLen_nonneg x) as Hn. pose proof (BitLen_bound x) as Hb.
  rewrite Z2Nat.id by (apply Z.div_pos; lia).
  apply Z.mod_small. split; [lia|].
  eapply Z.lt_le_trans; [exact Hb|].
  change 256 with (2 ^ 8). rewrite <- Z.pow_mul_r.
  - apply Z.pow_le_mono_r; [lia|].
    pose proof (Z.mul_div_le (big.BitLen x + 7) 8) as H1.
    pose proof (Z.mod_pos_bound (big.BitLen x + 7) 8) as H2.
    pose proof (Z.div_mod (big.BitLen x + 7) 8) as H3. lia.
  - lia.
  - apply Z.div_pos; lia.
Qed.

Lemma Bytes_0 : big.Bytes 0 = [].
Proof. reflexivity. Qed.

End BigEndian.

(** ** paddedAppend *)

Lemma iter_append_zero (n : nat) (dst : list byte) :
  Nat.iter n (fun d => d ++ [Byte.x00]) dst = dst ++ repeat Byte.x00 n.
Proof.
  induction n as [|n IH].
  - cbn. now rewrite app_nil_r.
  - rewrite Nat.iter_succ, IH, <- app_assoc. f_equal.
    change (repeat Byte.x00 n ++ [Byte.x00]) with
      (repeat Byte.x00 n ++ repeat Byte.x00 1).
    rewrite <- repeat_app. f_equal. lia.
Qed.

Lemma paddedAppend_eq (size : Z) (dst src : list byte) :
  paddedAppend size dst src =
  dst ++ repeat Byte.x00 (Z.to_nat (size - len src)) ++ src.
Proof. unfold paddedAppend. now rewrite iter_append_zero, <- app_assoc. Qed.

Lemma paddedAppend_length (size : Z) (dst src : list byte) :
  len src <= size -> len (paddedAppend size dst src) = len dst + size.
Proof.
  intros H. rewrite paddedAppend_eq. unfold len in *.
  rewrite !length_app, repeat_length. lia.
Qed.

(** ** Low-S *)

Lemma Cmp_is_1 (x y : Z) : (big.Cmp x y =? 1) = (y <? x).
Proof.
  unfold big.Cmp. rewrite Z.ltb_antisym, Z.leb_compare.
  destruct (x ?= y); reflexivity.
Qed.

Lemma IsLowS_spec (s : Z) :
  IsLowS s = true <-> s <= Z.shiftr (elliptic.N elliptic.P256) 1.
Proof.
  unfold IsLowS, big.Rsh. rewrite Cmp_is_1, negb_true_iff, Z.ltb_ge.
  reflexivity.
Qed.

Lemma half_order :
  Z.shiftr (elliptic.N elliptic.P256) 1 = elliptic.N elliptic.P256 / 2 /\
  elliptic.N elliptic.P256 = 2 * Z.shiftr (elliptic.N elliptic.P256) 1 + 1.
Proof. split; vm_compute; reflexivity. Qed.

(** C8: for a scalar s with 1 <= s <= N-1, [IsLowS] is the test
    s <= N >> 1 = floor(N/2), and exactly one of s and N-s passes it. *)
Theorem IsLowS_exactly_one (s : Z) :
  1 <= s <= elliptic.N elliptic.P256 - 1 ->
  (IsLowS s = true <-> s <= Z.shiftr (elliptic.N elliptic.P256) 1) /\
  Z.shiftr (elliptic.N elliptic.P256) 1 = elliptic.N elliptic.P256 / 2 /\
  xorb (IsLowS s) (IsLowS (elliptic.N elliptic.P256 - s)) = true.
Proof.
  intros Hs. split; [apply IsLowS_spec|]. split; [apply half_order|].
  destruct half_order as [_ Hodd].
  pose proof (IsLowS_spec s) as H1.
  pose proof (IsLowS_spec (elliptic.N elliptic.P256 - s)) as H2.
  set (n := elliptic.N elliptic.P256) in *.
  set (h := Z.shiftr n 1) in *.
  destruct (IsLowS s), (IsLowS (n - s)); cbn [xorb]; try reflexivity.
  - assert (s <= h) by (apply H1; reflexivity).
    assert (n - s <= h) by (apply H2; reflexivity). lia.
  - assert (~ s <= h) by (intros Hle; apply H1 in Hle; discriminate).
    assert (~ n - s <= h) by (intros Hle; apply H2 in Hle; discriminate). lia.
Qed.

Lemma IsLowS_exactly_one_witness :
  xorb (IsLowS 7) (IsLowS (elliptic.N elliptic.P256 - 7)) = true.
Proof.
  apply (IsLowS_exactly_one 7). vm_compute. split; congruence.
Defined.

(** ** Private keys *)

Lemma order_below_2_256 : elliptic.N elliptic.P256 < 256 ^ 32.
Proof. vm_compute. reflexivity. Qed.

Lemma prime_below_2_256 : elliptic.P elliptic.P256 < 256 ^ 32.
Proof. vm_compute. reflexivity. Qed.

(** A scalar below 2^256 is padded to exactly 32 bytes that read back as
    the scalar. *)
Lemma paddedAppend_32 (x : Z) (dst : list byte) :
  0 <= x < 256 ^ 32 ->
  exists pad : list byte,
    paddedAppend 32 dst (big.Bytes x) = dst ++ pad /\
    len pad = 32 /\
    pad = repeat Byte.x00 (Z.to_nat (32 - len (big.Bytes x))) ++ big.Bytes x /\
    big.SetBytes pad = x.
Proof.
  intros Hx.
  assert (Hlen : len (big.Bytes x) <= 32) by (apply length_Bytes_le; lia).
  eexists. split; [apply paddedAppend_eq|]. split; [|split; [reflexivity|]].
  - unfold len in *. rewrite length_app, repeat_length. lia.
  - rewrite SetBytes_app, SetBytes_zeros, SetBytes_Bytes. lia.
Qed.

(** C9: for a private key with 0 <= D < N, [SerializePrivateKey] returns
    exactly 32 bytes: zero bytes on the left, then the big-endian bytes of
    D, and the 32 bytes read back as D; the zero scalar gives 32 zero
    bytes. *)
Theorem SerializePrivateKey_fixed_width (p : ecdsa.PrivateKey) :
  0 <= ecdsa.D p < elliptic.N elliptic.P256 ->
  len (SerializePrivateKey p) = 32 /\
  SerializePrivateKey p =
    repeat Byte.x00 (Z.to_nat (32 - len (big.Bytes (ecdsa.D p))))
    ++ big.Bytes (ecdsa.D p) /\
  big.SetBytes (SerializePrivateKey p) = ecdsa.D p /\
  (ecdsa.D p = 0 -> SerializePrivateKey p = repeat Byte.x00 32).
Proof.
  intros Hd. pose proof order_below_2_256 as HN.
  destruct (paddedAppend_32 (ecdsa.D p) []) as (pad & Heq & Hlen & Hpad & Hval);
    [lia|].
  unfold SerializePrivateKey, privateKeyECDSALength.
  rewrite Heq. cbn [app]. repeat split; auto.
  intros H0. rewrite Hpad, H0. reflexivity.
Qed.

Lemma SerializePrivateKey_fixed_width_witness :
  SerializePrivateKey {| ecdsa.Public := {| ecdsa.X := 0; ecdsa.Y := 0 |};
                          ecdsa.D := 0 |} = repeat Byte.x00 32.
Proof.
  apply (SerializePrivateKey_fixed_width
           {| ecdsa.Public := {| ecdsa.X := 0; ecdsa.Y := 0 |}; ecdsa.D := 0 |}).
  - vm_compute. split; congruence.
  - reflexivity.
Defined.

(** ** Slices *)

Lemma len_app {A : Type} (a b : list A) : len (a ++ b) = len a + len b.
Proof. unfold len. rewrite length_app. lia. Qed.

Lemma len_nonneg {A : Type} (a : list A) : 0 <= len a.
Proof. unfold len. lia. Qed.

Lemma len_cons {A : Type} (a : A) (l : list A) : len (a :: l) = 1 + len l.
Proof. unfold len. cbn [List.length]. lia. Qed.

Lemma slice_middle {E A : Type} (a b c : list A) :
  @slice E A (a ++ b ++ c) (len a) (len a + len b) = Ok b.
Proof.
  unfold slice. rewrite !len_app.
  pose proof (len_nonneg a). pose proof (len_nonneg b). pose proof (len_nonneg c).
  replace ((0 <=? len a) && (len a <=? len a + len b)
           && (len a + len b <=? len a + (len b + len c))) with true
    by (symmetry; rewrite !andb_true_iff, !Z.leb_le; lia).
  f_equal. unfold len.
  replace (Z.to_nat (Z.of_nat (length a) + Z.of_nat (length b) - Z.of_nat (length a)))
    with (length b + 0)%nat by lia.
  rewrite Nat2Z.id, skipn_app, skipn_all, Nat.sub_diag. cbn [skipn app].
  rewrite firstn_app_2. cbn [firstn]. apply app_nil_r.
Qed.

Lemma slice_from_app {E A : Type} (a b : list A) :
  @slice_from E A (a ++ b) (len a) = Ok b.
Proof.
  unfold slice_from. rewrite len_app.
  pose proof (@slice_middle E A a b []) as H.
  rewrite app_nil_r in H. exact H.
Qed.

(** ** Uncompressed public keys *)

Lemma Cmp_ge_0 (x y : Z) : (big.Cmp x y >=? 0) = (y <=? x).
Proof.
  unfold big.Cmp. rewrite Z.leb_antisym, Z.ltb_compare.
  destruct (x ?= y); reflexivity.
Qed.

(** [SerializePublicKey] gives 0x04, then X and Y as 32-byte fields. *)
Lemma SerializePublicKey_eq (Q : ecdsa.PublicKey) :
  valid_point Q ->
  exists xs ys : list byte,
    SerializePublicKey Q = [Byte.x04] ++ xs ++ ys /\
    len xs = 32 /\ len ys = 32 /\
    big.SetBytes xs = ecdsa.X Q /\ big.SetBytes ys = ecdsa.Y Q.
Proof.
  intros (HX & HY & _). pose proof prime_below_2_256 as HP.
  unfold SerializePublicKey.
  destruct (paddedAppend_32 (ecdsa.X Q) ([] ++ [Byte.x04]))
    as (xs & Hxs & Hlx & _ & Hvx); [lia|].
  rewrite Hxs.
  destruct (paddedAppend_32 (ecdsa.Y Q) (([] ++ [Byte.x04]) ++ xs))
    as (ys & Hys & Hly & _ & Hvy); [lia|].
  rewrite Hys. exists xs, ys.
  split; [now rewrite <- !app_assoc|]. repeat split; auto.
Qed.

(** The uncompressed half of the round trip: it holds for every valid
    point. *)
Lemma parsePubKey_SerializePublicKey (Q : ecdsa.PublicKey) :
  valid_point Q -> parsePubKey (SerializePublicKey Q) = Ok Q.
Proof.
  intros HQ. destruct (SerializePublicKey_eq Q HQ)
    as (xs & ys & Heq & Hlx & Hly & Hvx & Hvy).
  destruct HQ as (HX & HY & Hon).
  unfold parsePubKey. rewrite Heq.
  replace (len ([Byte.x04] ++ xs ++ ys) =? 0) with false
    by (symmetry; apply Z.eqb_neq; rewrite !len_app; change (len [Byte.x04]) with 1; lia).
  change 1 with (len [Byte.x04]) at 1.
  replace 33 with (len [Byte.x04] + len xs) at 1
    by (rewrite Hlx; reflexivity).
  rewrite slice_middle. cbn [bind].
  rewrite app_assoc.
  replace 33 with (len ([Byte.x04] ++ xs))
    by (rewrite len_app, Hlx; reflexivity).
  rewrite slice_from_app. cbn [bind].
  rewrite Hvx, Hvy, !Cmp_ge_0.
  replace (elliptic.P elliptic.P256 <=? ecdsa.X Q) with false
    by (symmetry; apply Z.leb_gt; lia).
  replace (elliptic.P elliptic.P256 <=? ecdsa.Y Q) with false
    by (symmetry; apply Z.leb_gt; lia).
  rewrite Hon. cbn [negb]. destruct Q; reflexivity.
Qed.

(** [parsePubKey] panics exactly on the inputs of 1 to 32 bytes. *)
Lemma parsePubKey_panics_iff (pubKeyStr : list byte) :
  parsePubKey pubKeyStr = Panic <-> 1 <= len pubKeyStr <= 32.
Proof.
  unfold parsePubKey, slice_from, slice.
  pose proof (len_nonneg pubKeyStr) as Hn.
  destruct (Z.eqb_spec (len pubKeyStr) 0) as [H0|H0].
  { split; [discriminate|lia]. }
  destruct (Z.leb_spec 33 (len pubKeyStr)) as [H33|H33].
  - replace (len pubKeyStr <=? len pubKeyStr) with true
      by (symmetry; apply Z.leb_le; lia).
    cbn [andb Z.leb Z.compare Pos.compare Pos.compare_cont bind].
    split; [|lia].
    repeat match goal with
           | |- context [if ?c then _ else _] => destruct c
           end; discriminate.
  - cbn [andb Z.leb Z.compare Pos.compare Pos.compare_cont bind].
    split; [lia|reflexivity].
Qed.

(** C3 (the code departs from the claim): on the one-byte input 0x04,
    [parsePubKey] returns neither a point nor an error: the input is not
    empty, so the slice expressions [pubKeyStr[1:33]] and [pubKeyStr[33:]]
    are evaluated, and they panic. *)
Theorem parsePubKey_panics_on_one_byte : parsePubKey [Byte.x04] = Panic.
Proof. reflexivity. Qed.

(** ** Empty input *)

(** C4, as stated, fails: on the empty input [parsePubKeyCompressed] does
    not give an error of kind [EmptyInput]. *)
Lemma empty_input_kind_counterexample :
  ~ ((exists e, parsePubKey [] = Err e /\ kind_of e = EmptyInput) /\
     (exists e, parsePubKeyCompressed [] = Err e /\ kind_of e = EmptyInput)).
Proof.
  intros [_ (e & He & Hk)]. vm_compute in He.
  injection He as <-. discriminate Hk.
Qed.

(** C4, amended: on the empty input [parsePubKey] fails with its own
    empty-input error, while [parsePubKeyCompressed] fails with the
    wrong-length error of kind [InvalidEncoding], the same error it gives
    for a one-byte input. *)
Theorem empty_input_errors :
  parsePubKey [] = Err ErrPubkeyEmpty /\
  kind_of ErrPubkeyEmpty = EmptyInput /\
  parsePubKeyCompressed [] = Err ErrByteLen /\
  kind_of ErrByteLen = InvalidEncoding /\
  parsePubKeyCompressed [Byte.x02] = parsePubKeyCompressed [].
Proof. repeat split. Qed.

(** [parsePubKeyCompressed] gives the wrong-length error for every input
    that is not 33 bytes long. *)
Lemma parsePubKeyCompressed_wrong_length (data : list byte) :
  len data <> 33 -> parsePubKeyCompressed data = Err ErrByteLen.
Proof.
  intros H. unfold parsePubKeyCompressed.
  change (1 + (elliptic.BitSize elliptic.P256 + 7) / 8) with 33.
  destruct (Z.eqb_spec (len data) 33); [contradiction|reflexivity].
Qed.

(** ** Compressed public keys *)

Lemma skipn_repeat {A : Type} (a : A) (n m : nat) :
  skipn n (repeat a m) = repeat a (m - n).
Proof.
  revert n; induction m as [|m IH]; intros [|n]; cbn [skipn repeat Nat.sub];
    auto.
Qed.

Lemma parity_tag (y : Z) :
  byte.of_Z (Z.lor (big.Bit y 0) 2) = if Z.even y then Byte.x02 else Byte.x03.
Proof.
  unfold big.Bit. rewrite Z.bit0_odd, <- Z.negb_even.
  destruct (Z.even y); reflexivity.
Qed.

(** What [SerializePublicKeyCompressed] returns: the parity tag, then the
    bytes of X followed (not preceded) by the zero bytes that fill the 32
    byte field. *)
Lemma SerializePublicKeyCompressed_eq (Q : ecdsa.PublicKey) :
  0 <= ecdsa.X Q < elliptic.P elliptic.P256 ->
  SerializePublicKeyCompressed Q =
  (if Z.even (ecdsa.Y Q) then Byte.x02 else Byte.x03)
  :: big.Bytes (ecdsa.X Q)
     ++ repeat Byte.x00 (Z.to_nat (32 - len (big.Bytes (ecdsa.X Q)))).
Proof.
  intros HX. pose proof prime_below_2_256 as HP.
  assert (Hlen : len (big.Bytes (ecdsa.X Q)) <= 32)
    by (apply length_Bytes_le; lia).
  unfold SerializePublicKeyCompressed. rewrite parity_tag. f_equal.
  change (make (1 + Z.shiftr (elliptic.BitSize elliptic.P256 + 7) 3))
    with (repeat Byte.x00 33).
  unfold copy. rewrite !skipn_repeat, repeat_length.
  rewrite firstn_all2 by (unfold len in Hlen; lia).
  f_equal. f_equal. unfold len. lia.
Qed.

(** The length and the tag byte are as the specification says, for every
    point with X in range. *)
Lemma SerializePublicKeyCompressed_length_tag (Q : ecdsa.PublicKey) :
  0 <= ecdsa.X Q < elliptic.P elliptic.P256 ->
  len (SerializePublicKeyCompressed Q) = 33 /\
  hd Byte.x00 (SerializePublicKeyCompressed Q) =
    (if Z.even (ecdsa.Y Q) then Byte.x02 else Byte.x03).
Proof.
  intros HX. pose proof prime_below_2_256 as HP.
  assert (Hlen : len (big.Bytes (ecdsa.X Q)) <= 32)
    by (apply length_Bytes_le; lia).
  rewrite SerializePublicKeyCompressed_eq by assumption.
  split; [|reflexivity].
  unfold len in *. cbn [List.length].
  rewrite length_app, repeat_length. lia.
Qed.

(** When X needs all 32 bytes the output is the specified form. *)
Lemma SerializePublicKeyCompressed_full_X (Q : ecdsa.PublicKey) :
  256 ^ 31 <= ecdsa.X Q < elliptic.P elliptic.P256 ->
  SerializePublicKeyCompressed Q = compressed_form Q.
Proof.
  intros HX. pose proof prime_below_2_256 as HP.
  assert (Hle : len (big.Bytes (ecdsa.X Q)) <= 32)
    by (apply length_Bytes_le; lia).
  assert (Hge : 32 <= len (big.Bytes (ecdsa.X Q))).
  { pose proof (SetBytes_range (big.Bytes (ecdsa.X Q))) as Hr.
    rewrite SetBytes_Bytes, Z.abs_eq in Hr by lia.
    destruct (Z.le_gt_cases 32 (len (big.Bytes (ecdsa.X Q)))) as [|Hlt]; [assumption|].
    assert (256 ^ len (big.Bytes (ecdsa.X Q)) <= 256 ^ 31)
      by (apply Z.pow_le_mono_r; lia).
    lia. }
  rewrite SerializePublicKeyCompressed_eq by lia.
  unfold compressed_form. rewrite paddedAppend_eq.
  replace (32 - len (big.Bytes (ecdsa.X Q))) with 0 by lia.
  cbn [Z.to_nat repeat app]. now rewrite app_nil_r.
Qed.

(** A point returned by [parsePubKeyCompressed] has the X read from the
    32 bytes after the tag. *)
Lemma parsePubKeyCompressed_X (data : list byte) (Q : ecdsa.PublicKey) :
  parsePubKeyCompressed data = Ok Q ->
  exists (tag : byte) (xs : list byte),
    data = tag :: xs /\ ecdsa.X Q = big.SetBytes xs.
Proof.
  unfold parsePubKeyCompressed.
  change (1 + (elliptic.BitSize elliptic.P256 + 7) / 8) with 33.
  destruct (Z.eqb_spec (len data) 33) as [Hlen|]; [|discriminate].
  cbn [negb]. destruct data as [|tag xs]; [discriminate Hlen|].
  rewrite len_cons in Hlen.
  pose proof (@slice_from_app error byte [tag] xs) as Hs.
  cbn [app] in Hs. change (len [tag]) with 1 in Hs. rewrite Hs.
  unfold index. rewrite len_cons, Hlen. cbn [Z.leb Z.ltb Z.compare andb bind].
  intros Hparse. exists tag, xs. split; [reflexivity|].
  repeat match type of Hparse with
         | context [if ?c then _ else _] => destruct c; try discriminate
         | context [match ?c with _ => _ end] => destruct c; try discriminate
         end; injection Hparse as <-; reflexivity.
Qed.

(** The extent of the defect: no valid point whose X is not zero and takes
    fewer than 32 bytes survives the compressed round trip. *)
Lemma compressed_round_trip_fails_short_X (Q : ecdsa.PublicKey) :
  valid_point Q -> 0 < ecdsa.X Q < 256 ^ 31 ->
  parsePubKeyCompressed (SerializePublicKeyCompressed Q) <> Ok Q.
Proof.
  intros (HX & _ & _) Hshort Hparse.
  apply parsePubKeyCompressed_X in Hparse. destruct Hparse as (tag & xs & Hdata & HXQ).
  rewrite SerializePublicKeyCompressed_eq in Hdata by exact HX.
  apply (f_equal (@tl byte)) in Hdata. cbn [tl] in Hdata. subst xs.
  rewrite SetBytes_app, SetBytes_zeros, SetBytes_Bytes, Z.abs_eq in HXQ by lia.
  assert (Hlen : len (big.Bytes (ecdsa.X Q)) <= 31)
    by (apply length_Bytes_le; lia).
  pose proof (len_nonneg (big.Bytes (ecdsa.X Q))) as Hl0.
  unfold len at 1 in HXQ. rewrite repeat_length, Z2Nat.id in HXQ by lia.
  assert (256 ^ 1 <= 256 ^ (32 - len (big.Bytes (ecdsa.X Q))))
    by (apply Z.pow_le_mono_r; lia).
  nia.
Qed.

Lemma Q5_valid : valid_point Q5.
Proof. repeat split; vm_compute; congruence. Qed.

(** C2 (the code departs from the claim): for the valid point [Q5], whose
    X is the single byte 0x05, the 32-byte field of
    [SerializePublicKeyCompressed] holds 0x05 first and 31 zero bytes after
    it, where the claim has the zero bytes on the left. *)
Theorem SerializePublicKeyCompressed_short_X :
  valid_point Q5 /\
  SerializePublicKeyCompressed Q5 = Byte.x02 :: Byte.x05 :: repeat Byte.x00 31 /\
  compressed_form Q5 = Byte.x02 :: repeat Byte.x00 31 ++ [Byte.x05] /\
  SerializePublicKeyCompressed Q5 <> compressed_form Q5.
Proof.
  split; [exact Q5_valid|]. repeat split. vm_compute. discriminate.
Qed.

(** C1 (the code departs from the claim): the uncompressed round trip
    returns the valid point [Q5], the compressed one returns another point,
    with X = 5 * 2^248. *)
Theorem compressed_round_trip_short_X :
  valid_point Q5 /\
  parsePubKey (SerializePublicKey Q5) = Ok Q5 /\
  parsePubKeyCompressed (SerializePublicKeyCompressed Q5) =
    Ok {| ecdsa.X := 5 * 2 ^ 248;
          ecdsa.Y := 0x9d129e7666da75989c4606d2c7db964c4954825c42ca9d6293a7f3f8056d6c92 |} /\
  parsePubKeyCompressed (SerializePublicKeyCompressed Q5) <> Ok Q5.
Proof.
  split; [exact Q5_valid|].
  split; [apply parsePubKey_SerializePublicKey, Q5_valid|].
  assert (H : parsePubKeyCompressed (SerializePublicKeyCompressed Q5) =
    Ok {| ecdsa.X := 5 * 2 ^ 248;
          ecdsa.Y := 0x9d129e7666da75989c4606d2c7db964c4954825c42ca9d6293a7f3f8056d6c92 |})
    by (vm_compute; reflexivity).
  split; [exact H|]. rewrite H. intros Heq. inversion Heq.
Qed.

(** ** Signatures: the checks after parsing *)





(** ** Appending bytes after accepted input *)

Ltac case_if :=
  match goal with
  | |- context [if ?c then _ else _] => destruct c eqn:?
  | H : context [if ?c then _ else _] |- _ => destruct c eqn:?
  end.

Section Extend.

Variables bytes extra : list byte.

Lemma index_extend {E : Type} (i : Z) (b : byte) :
  @index E bytes i = Ok b -> @index E (bytes ++ extra) i = Ok b.
Proof.
  unfold index. rewrite len_app. pose proof (len_nonneg extra).
  destruct (Z.leb_spec 0 i), (Z.ltb_spec i (len bytes)); cbn [andb];
    try discriminate.
  intros Hget. destruct (Z.ltb_spec i (len bytes + len extra)); [|lia].
  rewrite app_nth1 by (unfold len in *; lia). exact Hget.
Qed.

Lemma index_Ok_lt {E : Type} (i : Z) (b : byte) :
  @index E bytes i = Ok b -> 0 <= i < len bytes.
Proof.
  unfold index.
  destruct (Z.leb_spec 0 i), (Z.ltb_spec i (len bytes)); cbn [andb];
    try discriminate. lia.
Qed.

Lemma slice_extend {E : Type} (lo hi : Z) (l : list byte) :
  @slice E byte bytes lo hi = Ok l -> @slice E byte (bytes ++ extra) lo hi = Ok l.
Proof.
  unfold slice. rewrite len_app. pose proof (len_nonneg extra).
  destruct (Z.leb_spec 0 lo), (Z.leb_spec lo hi), (Z.leb_spec hi (len bytes));
    cbn [andb]; try discriminate.
  intros Hget. destruct (Z.leb_spec hi (len bytes + len extra)); [|lia].
  rewrite skipn_app, firstn_app.
  replace (Z.to_nat (hi - lo) - length (skipn (Z.to_nat lo) bytes))%nat with 0%nat
    by (rewrite length_skipn; unfold len in *; lia).
  cbn [firstn]. rewrite app_nil_r. exact Hget.
Qed.

Lemma slice_from_extend {E : Type} (lo : Z) (l : list byte) :
  @slice_from E byte bytes lo = Ok l ->
  @slice_from E byte (bytes ++ extra) lo = Ok (l ++ extra).
Proof.
  unfold slice_from, slice. rewrite len_app. pose proof (len_nonneg extra).
  destruct (Z.leb_spec 0 lo), (Z.leb_spec lo (len bytes)); cbn [andb];
    rewrite ?Z.leb_refl; cbn [andb]; try discriminate.
  destruct (Z.leb_spec lo (len bytes + len extra)); [|lia]. cbn [andb].
  intros Hget. injection Hget as <-. f_equal.
  rewrite !firstn_all2 by (rewrite length_skipn, ?length_app; unfold len in *; lia).
  rewrite skipn_app.
  replace (Z.to_nat lo - length bytes)%nat with 0%nat by (unfold len in *; lia).
  reflexivity.
Qed.

Lemma parseBase128Int_loop_extend (left : nat) (offset ret64 : Z)
    (first : bool) (v : Z * Z) :
  asn1.parseBase128Int_loop left bytes offset ret64 first = Ok v ->
  asn1.parseBase128Int_loop left (bytes ++ extra) offset ret64 first = Ok v.
Proof.
  revert offset ret64 first.
  induction left as [|left IH]; intros offset ret64 first;
    cbn [asn1.parseBase128Int_loop].
  - destruct (offset <? len bytes); discriminate.
  - destruct (Z.ltb_spec offset (len bytes)) as [Hlt|]; [|discriminate].
    cbn [negb].
    destruct (Z.ltb_spec offset (len (bytes ++ extra))) as [|Hge];
      [|rewrite len_app in Hge; pose proof (len_nonneg extra); lia].
    cbn [negb].
    destruct (index bytes offset) as [b| |] eqn:Hb; try discriminate.
    rewrite (index_extend _ _ Hb). cbn [bind].
    repeat case_if; auto.
Qed.

Lemma parseLength_loop_extend (numBytes : nat) (offset length : Z)
    (v : Z * Z) :
  asn1.parseLength_loop numBytes bytes offset length = Ok v ->
  asn1.parseLength_loop numBytes (bytes ++ extra) offset length = Ok v.
Proof.
  revert offset length.
  induction numBytes as [|n IH]; intros offset length;
    cbn [asn1.parseLength_loop]; [auto|].
  destruct (Z.geb_spec offset (len bytes)) as [|Hlt]; [discriminate|].
  destruct (Z.geb_spec offset (len (bytes ++ extra))) as [Hge|];
    [rewrite len_app in Hge; pose proof (len_nonneg extra); lia|].
  destruct (index bytes offset) as [b| |] eqn:Hb; try discriminate.
  rewrite (index_extend _ _ Hb). cbn [bind].
  repeat case_if; auto.
Qed.

Lemma parseTagAndLength_extend (offset : Z) (v : asn1.tagAndLength * Z) :
  asn1.parseTagAndLength bytes offset = Ok v ->
  asn1.parseTagAndLength (bytes ++ extra) offset = Ok v.
Proof.
  unfold asn1.parseTagAndLength.
  pose proof (len_nonneg extra) as Hex.
  destruct (Z.geb_spec offset (len bytes)) as [|Hlt]; [discriminate|].
  destruct (Z.geb_spec offset (len (bytes ++ extra))) as [Hge|];
    [rewrite len_app in Hge; lia|].
  destruct (index bytes offset) as [b| |] eqn:Hb; try discriminate.
  rewrite (index_extend _ _ Hb). cbn [bind].
  match goal with
  | |- bind ?t _ = _ -> _ =>
      destruct t as [[tag offset']| |] eqn:Ht; try discriminate
  end.
  assert (Ht' :
    (if Z.land (byte.unsigned b) 31 =? 31
     then
       ' (tag0, offset0) <- asn1.parseBase128Int (bytes ++ extra) (offset + 1);;
       (if tag0 <? 31
        then Err (asn1.SyntaxError "non-minimal tag")
        else Ok (tag0, offset0))
     else Ok (Z.land (byte.unsigned b) 31, offset + 1)) = Ok (tag, offset')).
  { destruct (Z.land (byte.unsigned b) 31 =? 31); [|exact Ht].
    unfold asn1.parseBase128Int in *.
    destruct (asn1.parseBase128Int_loop 5 bytes (offset + 1) 0 true)
      as [v'| |] eqn:Hl; try discriminate.
    rewrite (parseBase128Int_loop_extend _ _ _ _ _ Hl). exact Ht. }
  rewrite Ht'. cbn [bind].
  destruct (Z.geb_spec offset' (len bytes)) as [|Hlt']; [discriminate|].
  destruct (Z.geb_spec offset' (len (bytes ++ extra))) as [Hge|];
    [rewrite len_app in Hge; lia|].
  destruct (index bytes offset') as [b'| |] eqn:Hb'; try discriminate.
  rewrite (index_extend _ _ Hb'). cbn [bind].
  destruct (Z.land (byte.unsigned b') 128 =? 0); [auto|].
  destruct (Z.land (byte.unsigned b') 127 =? 0); [auto|].
  destruct (asn1.parseLength_loop _ bytes _ _) as [v'| |] eqn:Hl;
    try discriminate.
  rewrite (parseLength_loop_extend _ _ _ _ Hl). auto.
Qed.

Lemma parseTagAndLength_Ok_lt (offset : Z) (v : asn1.tagAndLength * Z) :
  asn1.parseTagAndLength bytes offset = Ok v -> offset < len bytes.
Proof.
  unfold asn1.parseTagAndLength.
  destruct (Z.geb_spec offset (len bytes)); [discriminate|lia].
Qed.

Lemma parseField_extend {A : Type} (universalTag : Z) (compoundType : bool)
    (body : list byte -> result asn1.error A) (offset : Z) (v : A * Z) :
  asn1.parseField universalTag compoundType body bytes offset = Ok v ->
  asn1.parseField universalTag compoundType body (bytes ++ extra) offset = Ok v.
Proof.
  unfold asn1.parseField. pose proof (len_nonneg extra) as Hex.
  destruct (Z.eqb_spec offset (len bytes)); [discriminate|].
  destruct (asn1.parseTagAndLength bytes offset) as [[t offset']| |] eqn:Ht;
    try discriminate.
  pose proof (parseTagAndLength_Ok_lt _ _ Ht) as Hlt.
  destruct (Z.eqb_spec offset (len (bytes ++ extra))) as [Heq|];
    [rewrite len_app in Heq; lia|].
  rewrite (parseTagAndLength_extend _ _ Ht). cbn [bind].
  case_if; [discriminate|].
  unfold asn1.invalidLength. rewrite len_app.
  destruct (offset' + asn1.length t <? offset'); cbn [orb]; [discriminate|].
  destruct (Z.gtb_spec (offset' + asn1.length t) (len bytes)); [discriminate|].
  destruct (Z.gtb_spec (offset' + asn1.length t) (len bytes + len extra)); [lia|].
  destruct (slice bytes offset' (offset' + asn1.length t)) as [inner| |] eqn:Hs;
    try discriminate.
  rewrite (slice_extend _ _ _ Hs). auto.
Qed.

Lemma Unmarshal_extend (rest : list byte) (sig : asn1.signatureECDSA) :
  asn1.Unmarshal bytes = Ok (rest, sig) ->
  asn1.Unmarshal (bytes ++ extra) = Ok (rest ++ extra, sig).
Proof.
  unfold asn1.Unmarshal.
  destruct (asn1.parseField _ _ _ bytes 0) as [[v offset]| |] eqn:Hf;
    try discriminate.
  rewrite (parseField_extend _ _ _ _ _ Hf). cbn [bind].
  destruct (slice_from bytes offset) as [rest'| |] eqn:Hs; try discriminate.
  rewrite (slice_from_extend _ _ Hs). cbn [bind].
  intros H. now inversion H.
Qed.

End Extend.

Lemma UnmarshalECDSASignature_extend (enc extra : list byte) (r s : Z) :
  UnmarshalECDSASignature enc = Ok (r, s) ->
  UnmarshalECDSASignature (enc ++ extra) = Ok (r, s).
Proof.
  unfold UnmarshalECDSASignature.
  destruct (asn1.Unmarshal enc) as [[rest sig]| |] eqn:Hu; try discriminate.
  rewrite (Unmarshal_extend _ _ _ _ Hu). auto.
Qed.
(** ** Bit operations on bytes and lengths *)

Lemma lor_shiftl_8 (a b : Z) :
  0 <= b < 256 -> Z.lor (Z.shiftl a 8) b = a * 256 + b.
Proof.
  intros Hb. rewrite <- Z.lxor_lor, <- Z.add_nocarry_lxor.
  - rewrite Z.shiftl_mul_pow2 by lia. reflexivity.
  - apply Z.bits_inj'. intros i Hi. rewrite Z.land_spec, Z.bits_0.
    destruct (Z.lt_ge_cases i 8).
    + rewrite Z.shiftl_spec_low by lia. reflexivity.
    + destruct (Z.eq_dec b 0) as [->|]; [now rewrite Z.bits_0, andb_false_r|].
      rewrite (Z.bits_above_log2 b i), andb_false_r; [reflexivity|lia|].
      assert (Z.log2 b < 8) by (apply Z.log2_lt_pow2; lia). lia.
  - apply Z.bits_inj'. intros i Hi. rewrite Z.land_spec, Z.bits_0.
    destruct (Z.lt_ge_cases i 8).
    + rewrite Z.shiftl_spec_low by lia. reflexivity.
    + destruct (Z.eq_dec b 0) as [->|]; [now rewrite Z.bits_0, andb_false_r|].
      rewrite (Z.bits_above_log2 b i), andb_false_r; [reflexivity|lia|].
      assert (Z.log2 b < 8) by (apply Z.log2_lt_pow2; lia). lia.
Qed.

Lemma unsigned_of_Z_small (z : Z) : 0 <= z < 256 -> byte.unsigned (byte.of_Z z) = z.
Proof.
  intros H. rewrite byte.unsigned_of_Z. unfold byte.wrap.
  apply Z.mod_small. change (2 ^ 8) with 256. lia.
Qed.

Lemma byte_range (b : byte) : 0 <= byte.unsigned b < 256.
Proof. exact (byte.unsigned_range b). Qed.

Lemma land_128_small (z : Z) : 0 <= z < 128 -> Z.land z 128 = 0.
Proof.
  intros H. rewrite <- (Z.mod_small z (2 ^ 7)) by (change (2 ^ 7) with 128; lia).
  rewrite <- Z.land_ones, <- Z.land_assoc by lia. apply Z.land_0_r.
Qed.

Lemma land_127_small (z : Z) : 0 <= z < 128 -> Z.land z 127 = z.
Proof.
  intros H. change 127 with (Z.ones 7). rewrite Z.land_ones by lia.
  apply Z.mod_small. change (2 ^ 7) with 128. lia.
Qed.

(** ** Lengths: what [appendTagAndLength] writes, [parseTagAndLength] reads *)

Lemma index_at {E : Type} (pre : list byte) (b : byte) (rest : list byte) :
  @index E (pre ++ b :: rest) (len pre) = Ok b.
Proof.
  unfold index. rewrite len_app, len_cons.
  pose proof (len_nonneg pre). pose proof (len_nonneg rest).
  replace ((0 <=? len pre) && (len pre <? len pre + (1 + len rest))) with true
    by (symmetry; rewrite andb_true_iff, Z.leb_le, Z.ltb_lt; lia).
  unfold len. rewrite Nat2Z.id, nth_middle. reflexivity.
Qed.

Lemma parseLength_loop_ok (bs pre rest : list byte) (acc : Z) :
  0 <= acc ->
  acc * 256 ^ len bs + big.SetBytes bs < 2 ^ 31 ->
  0 < acc * 256 + byte.unsigned (hd Byte.x01 bs) ->
  asn1.parseLength_loop (length bs) (pre ++ bs ++ rest) (len pre) acc =
  Ok (acc * 256 ^ len bs + big.SetBytes bs, len pre + len bs).
Proof.
  revert pre acc. induction bs as [|b bs IH]; intros pre acc Hacc Htot Hnz.
  - cbn [asn1.parseLength_loop List.length]. f_equal. f_equal.
    + change (len []) with 0. change (big.SetBytes []) with 0. lia.
    + change (len []) with 0. lia.
  - cbn [asn1.parseLength_loop List.length]. cbn [hd] in Hnz.
    pose proof (byte_range b) as Hb.
    pose proof (SetBytes_range bs) as Hbs.
    pose proof (len_nonneg bs) as Hl.
    assert (Hpow : 0 < 256 ^ len bs) by (apply Z.pow_pos_nonneg; lia).
    rewrite SetBytes_cons, len_cons, Z.pow_add_r, Z.pow_1_r in Htot by lia.
    destruct (Z.geb_spec (len pre) (len (pre ++ (b :: bs) ++ rest))) as [Hge|_].
    { rewrite !len_app, len_cons in Hge. pose proof (len_nonneg rest). lia. }
    cbn [app]. rewrite index_at. cbn [bind].
    change (Z.shiftl 1 23) with (2 ^ 23).
    destruct (Z.geb_spec acc (2 ^ 23)) as [Hbig|_]; [nia|].
    rewrite lor_shiftl_8 by lia.
    destruct (Z.eqb_spec (acc * 256 + byte.unsigned b) 0) as [H0|_]; [lia|].
    replace (pre ++ b :: bs ++ rest) with ((pre ++ [b]) ++ bs ++ rest)
      by (rewrite <- app_assoc; reflexivity).
    replace (len pre + 1) with (len (pre ++ [b]))
      by (rewrite len_app; reflexivity).
    rewrite IH.
    + f_equal. f_equal.
      * rewrite SetBytes_cons, len_cons, Z.pow_add_r, Z.pow_1_r by lia. ring.
      * unfold len. rewrite length_app. cbn [List.length]. lia.
    + lia.
    + nia.
    + destruct bs; cbn [hd]; [change (byte.unsigned Byte.x01) with 1; lia|].
      pose proof (byte_range b0). lia.
Qed.

Lemma lengthLength_cases (L : Z) :
  0 <= L < 2 ^ 32 ->
  asn1.lengthLength L =
  if L <? 256 then 1 else if L <? 65536 then 2 else if L <? 16777216 then 3 else 4.
Proof.
  intros HL. unfold asn1.lengthLength. cbn [asn1.lengthLength_loop].
  rewrite !Z.shiftr_shiftr by lia. rewrite !Z.shiftr_div_pow2 by lia.
  cbn [Z.add Pos.add Pos.succ]. change (2 ^ 32) with 4294967296 in HL.
  change (2 ^ 8) with 256. change (2 ^ 16) with 65536.
  change (2 ^ 24) with 16777216. change (2 ^ 32) with 4294967296.
  repeat match goal with
         | |- context [?a >? ?b] => destruct (Z.gtb_spec a b)
         | |- context [?a <? ?b] => destruct (Z.ltb_spec a b)
         end; try reflexivity; exfalso; Z.div_mod_to_equations; lia.
Qed.

Lemma appendLength_loop_eq (n : nat) (dst : list byte) (i : Z) :
  asn1.appendLength_loop n dst i = dst ++ big.be_bytes n i.
Proof.
  revert dst. induction n as [|n IH]; intros dst;
    cbn [asn1.appendLength_loop big.be_bytes].
  - now rewrite app_nil_r.
  - rewrite IH, <- app_assoc, (Z.mul_comm (Z.of_nat n) 8). reflexivity.
Qed.
Lemma index_inside {E : Type} (pre l rest : list byte) (i : nat) :
  (i < length l)%nat ->
  @index E (pre ++ l ++ rest) (len pre + Z.of_nat i) = Ok (nth i l Byte.x00).
Proof.
  intros Hi. rewrite <- (firstn_skipn i l) at 1.
  destruct (skipn i l) as [|b tl] eqn:Hs.
  { apply (f_equal (@length byte)) in Hs. rewrite length_skipn in Hs.
    cbn in Hs. lia. }
  rewrite <- app_assoc, app_assoc. cbn [app].
  replace (len pre + Z.of_nat i) with (len (pre ++ firstn i l))
    by (rewrite len_app; unfold len; rewrite length_firstn; lia).
  rewrite index_at. f_equal.
  rewrite <- (firstn_skipn i l) at 1. rewrite Hs.
  rewrite app_nth2 by (rewrite length_firstn; lia).
  rewrite length_firstn. replace (i - Nat.min i (length l))%nat with 0%nat by lia.
  reflexivity.
Qed.

(** The loop over the length octets stops with "length too large" when
    they denote 2^31 or more. *)
Lemma parseLength_loop_too_large (bs pre rest : list byte) (acc : Z) :
  0 <= acc < 2 ^ 31 ->
  2 ^ 31 <= acc * 256 ^ len bs + big.SetBytes bs ->
  0 < acc * 256 + byte.unsigned (hd Byte.x01 bs) ->
  asn1.parseLength_loop (length bs) (pre ++ bs ++ rest) (len pre) acc =
  Err (asn1.StructuralError "length too large").
Proof.
  revert pre acc. induction bs as [|b bs IH]; intros pre acc Hacc Htot Hnz.
  - change (len []) with 0 in Htot. change (big.SetBytes []) with 0 in Htot. lia.
  - cbn [asn1.parseLength_loop List.length]. cbn [hd] in Hnz.
    pose proof (byte_range b) as Hb.
    pose proof (len_nonneg bs) as Hl.
    rewrite SetBytes_cons, len_cons, Z.pow_add_r, Z.pow_1_r in Htot by lia.
    destruct (Z.geb_spec (len pre) (len (pre ++ (b :: bs) ++ rest))) as [Hge|_].
    { rewrite !len_app, len_cons in Hge. pose proof (len_nonneg rest). lia. }
    cbn [app]. rewrite index_at. cbn [bind].
    change (Z.shiftl 1 23) with (2 ^ 23).
    destruct (Z.geb_spec acc (2 ^ 23)) as [Hbig|Hsmall]; [reflexivity|].
    rewrite lor_shiftl_8 by lia.
    destruct (Z.eqb_spec (acc * 256 + byte.unsigned b) 0) as [H0|_]; [lia|].
    replace (pre ++ b :: bs ++ rest) with ((pre ++ [b]) ++ bs ++ rest)
      by (rewrite <- app_assoc; reflexivity).
    replace (len pre + 1) with (len (pre ++ [b]))
      by (rewrite len_app; reflexivity).
    apply IH.
    + change (2 ^ 23) with 8388608 in Hsmall. change (2 ^ 31) with 2147483648. lia.
    + lia.
    + destruct bs; cbn [hd]; [change (byte.unsigned Byte.x01) with 1; lia|].
      pose proof (byte_range b0). lia.
Qed.

(** The shape of a field: one tag octet [b0], then either one length octet
    (short form) or the octet [0x80 | l] and [l] length octets [bs]. *)
Lemma makeField_shape (universalTag : Z) (compoundType : bool)
    (body : list byte) :
  (universalTag = asn1.TagInteger /\ compoundType = false) \/
  (universalTag = asn1.TagSequence /\ compoundType = true) ->
  len body < 2 ^ 32 ->
  exists (b0 b1 : byte) (bs : list byte),
    asn1.makeField universalTag compoundType body = [b0; b1] ++ bs ++ body /\
    Z.shiftr (byte.unsigned b0) 6 = asn1.ClassUniversal /\
    (Z.land (byte.unsigned b0) 32 =? 32) = compoundType /\
    Z.land (byte.unsigned b0) 31 = universalTag /\
    ((len body < 128 /\ bs = [] /\ byte.unsigned b1 = len body) \/
     (128 <= len body /\
      Z.land (byte.unsigned b1) 128 = 128 /\
      Z.land (byte.unsigned b1) 127 = len bs /\
      1 <= len bs <= 4 /\
      big.SetBytes bs = len body /\
      0 < byte.unsigned (hd Byte.x01 bs))).
Proof.
  intros Htag HL. pose proof (len_nonneg body) as HL0.
  unfold asn1.makeField, asn1.appendTagAndLength.
  cbn [asn1.class asn1.tag asn1.length asn1.isCompound app].
  set (b0 := byte.of_Z _).
  assert (Hb0 : Z.shiftr (byte.unsigned b0) 6 = asn1.ClassUniversal /\
                (Z.land (byte.unsigned b0) 32 =? 32) = compoundType /\
                Z.land (byte.unsigned b0) 31 = universalTag).
  { destruct Htag as [[-> ->]|[-> ->]]; repeat split. }
  clearbody b0. destruct Hb0 as (Hclass & Hcomp & Htg).
  change (2 ^ 32) with 4294967296 in HL.
  destruct (Z.geb_spec (len body) 128) as [Hlong|Hshort].
  - unfold asn1.appendLength. rewrite appendLength_loop_eq.
    rewrite lengthLength_cases by (change (2 ^ 32) with 4294967296; lia).
    set (l := if len body <? 256 then 1 else _).
    assert (Hl : (l = 1 /\ len body < 256) \/
                 (l = 2 /\ 256 <= len body < 65536) \/
                 (l = 3 /\ 65536 <= len body < 16777216) \/
                 (l = 4 /\ 16777216 <= len body < 4294967296)).
    { subst l.
      repeat match goal with
             | |- context [?a <? ?b] => destruct (Z.ltb_spec a b)
             end; lia. }
    clearbody l.
    exists b0, (byte.of_Z (Z.lor 128 l)), (big.be_bytes (Z.to_nat l) (len body)).
    split; [now rewrite <- !app_assoc|]. repeat (split; [assumption|]).
    right. split; [assumption|].
    assert (Hlen : len (big.be_bytes (Z.to_nat l) (len body)) = l)
      by (unfold len; rewrite length_be_bytes; lia).
    rewrite Hlen.
    split; [|split; [|split; [lia|split]]].
    + destruct Hl as [[-> ?]|[[-> ?]|[[-> ?]|[-> ?]]]]; reflexivity.
    + destruct Hl as [[-> ?]|[[-> ?]|[[-> ?]|[-> ?]]]]; reflexivity.
    + rewrite SetBytes_be_bytes. apply Z.mod_small.
      destruct Hl as [[-> ?]|[[-> ?]|[[-> ?]|[-> ?]]]]; cbn; lia.
    + destruct Hl as [[-> ?]|[[-> ?]|[[-> ?]|[-> ?]]]];
        [change (Z.to_nat 1) with 1%nat|change (Z.to_nat 2) with 2%nat
        |change (Z.to_nat 3) with 3%nat|change (Z.to_nat 4) with 4%nat];
        cbn [big.be_bytes hd];
        rewrite byte.unsigned_of_Z; unfold byte.wrap;
        rewrite Z.shiftr_div_pow2 by lia;
        [change (2 ^ (8 * Z.of_nat 0)) with 1|change (2 ^ (8 * Z.of_nat 1)) with 256
        |change (2 ^ (8 * Z.of_nat 2)) with 65536
        |change (2 ^ (8 * Z.of_nat 3)) with 16777216];
        change (2 ^ 8) with 256;
        Z.div_mod_to_equations; lia.
  - exists b0, (byte.of_Z (len body)), [].
    split; [reflexivity|]. repeat (split; [assumption|]).
    left. repeat split; [assumption|]. apply unsigned_of_Z_small. lia.
Qed.

(** [parseTagAndLength] on such octets, up to the point where the length
    is known. *)
Lemma parseTagAndLength_shape (b0 b1 : byte) (bs pre rest : list byte) :
  Z.land (byte.unsigned b0) 31 <> 31 ->
  asn1.parseTagAndLength (pre ++ [b0; b1] ++ bs ++ rest) (len pre) =
  let class := Z.shiftr (byte.unsigned b0) 6 in
  let isCompound := Z.land (byte.unsigned b0) 32 =? 32 in
  let tag := Z.land (byte.unsigned b0) 31 in
  if Z.land (byte.unsigned b1) 128 =? 0
  then
    Ok ({| asn1.class := class; asn1.tag := tag;
           asn1.length := Z.land (byte.unsigned b1) 127;
           asn1.isCompound := isCompound |}, len pre + 2)
  else
    if Z.land (byte.unsigned b1) 127 =? 0
    then Err (asn1.SyntaxError "indefinite length found (not DER)")
    else
      '(length, offset) <-
        asn1.parseLength_loop (Z.to_nat (Z.land (byte.unsigned b1) 127))
          ((pre ++ [b0; b1]) ++ bs ++ rest) (len (pre ++ [b0; b1])) 0 ;;
      if length <? 128
      then Err (asn1.StructuralError "non-minimal length")
      else
        Ok ({| asn1.class := class; asn1.tag := tag; asn1.length := length;
               asn1.isCompound := isCompound |}, offset).
Proof.
  intros Htg. unfold asn1.parseTagAndLength.
  pose proof (len_nonneg pre) as Hp. pose proof (len_nonneg (bs ++ rest)) as Hr.
  assert (Hlen : len (pre ++ [b0; b1] ++ bs ++ rest)
                 = len pre + 2 + len (bs ++ rest)).
  { rewrite !len_app. change (len [b0; b1]) with 2. ring. }
  rewrite Hlen.
  destruct (Z.geb_spec (len pre) (len pre + 2 + len (bs ++ rest))); [lia|].
  pose proof (@index_inside asn1.error pre [b0; b1] (bs ++ rest) 0) as Hidx0.
  rewrite Z.add_0_r in Hidx0. rewrite Hidx0 by (cbn; lia). cbn [nth bind].
  destruct (Z.eqb_spec (Z.land (byte.unsigned b0) 31) 31); [contradiction|].
  cbn [bind].
  destruct (Z.geb_spec (len pre + 1) (len pre + 2 + len (bs ++ rest))); [lia|].
  pose proof (@index_inside asn1.error pre [b0; b1] (bs ++ rest) 1) as Hidx1.
  change (Z.of_nat 1) with 1 in Hidx1. rewrite Hidx1 by (cbn; lia).
  cbn [nth bind].
  replace (len pre + 1 + 1) with (len pre + 2) by ring.
  replace (len (pre ++ [b0; b1])) with (len pre + 2)
    by (rewrite len_app; reflexivity).
  rewrite <- (app_assoc pre [b0; b1]). reflexivity.
Qed.

(** The octets written for a length below 2^31 are read back as that
    length; [hdr] is the tag octet followed by the length octets. *)
Lemma parseTagAndLength_makeField (universalTag : Z) (compoundType : bool)
    (body : list byte) :
  (universalTag = asn1.TagInteger /\ compoundType = false) \/
  (universalTag = asn1.TagSequence /\ compoundType = true) ->
  len body < 2 ^ 31 ->
  exists hdr : list byte,
    asn1.makeField universalTag compoundType body = hdr ++ body /\
    2 <= len hdr <= 6 /\
    forall pre rest : list byte,
      asn1.parseTagAndLength (pre ++ hdr ++ rest) (len pre) =
      Ok ({| asn1.class := asn1.ClassUniversal; asn1.tag := universalTag;
             asn1.length := len body; asn1.isCompound := compoundType |},
          len pre + len hdr).
Proof.
  intros Htag HL. pose proof (len_nonneg body) as HL0.
  destruct (makeField_shape universalTag compoundType body Htag)
    as (b0 & b1 & bs & Hmk & Hclass & Hcomp & Htg & Hform).
  { change (2 ^ 31) with 2147483648 in HL. change (2 ^ 32) with 4294967296. lia. }
  exists ([b0; b1] ++ bs). split; [now rewrite <- app_assoc|].
  assert (Hne : Z.land (byte.unsigned b0) 31 <> 31)
    by (rewrite Htg; destruct Htag as [[-> _]|[-> _]]; discriminate).
  destruct Hform as [(Hshort & -> & Hb1)|(Hlong & Hn1 & Hn2 & Hl & Hval & Hhd)].
  - split; [cbn; lia|]. intros pre rest.
    rewrite <- app_assoc, parseTagAndLength_shape by assumption.
    cbv zeta. rewrite Hb1, land_128_small, land_127_small by lia. cbn [Z.eqb].
    rewrite Hclass, Hcomp, Htg. reflexivity.
  - split; [rewrite len_app; change (len [b0; b1]) with 2; lia|].
    intros pre rest.
    rewrite <- app_assoc, parseTagAndLength_shape by assumption.
    cbv zeta. rewrite Hn1, Hn2. cbn [Z.eqb].
    destruct (Z.eqb_spec (len bs) 0); [lia|].
    unfold len at 1. rewrite Nat2Z.id, parseLength_loop_ok.
    + cbn [bind]. rewrite Z.mul_0_l, Z.add_0_l, Hval.
      destruct (Z.ltb_spec (len body) 128); [lia|].
      rewrite Hclass, Hcomp, Htg. f_equal. f_equal. rewrite !len_app. ring.
    + lia.
    + rewrite Hval. lia.
    + lia.
Qed.

(** A field whose contents take 2^31 bytes or more is written, but not
    read back. *)
Lemma parseTagAndLength_too_large (universalTag : Z) (compoundType : bool)
    (body rest : list byte) :
  (universalTag = asn1.TagInteger /\ compoundType = false) \/
  (universalTag = asn1.TagSequence /\ compoundType = true) ->
  2 ^ 31 <= len body < 2 ^ 32 ->
  asn1.parseTagAndLength (asn1.makeField universalTag compoundType body ++ rest) 0
  = Err (asn1.StructuralError "length too large").
Proof.
  intros Htag HL.
  destruct (makeField_shape universalTag compoundType body Htag)
    as (b0 & b1 & bs & Hmk & Hclass & Hcomp & Htg & Hform); [lia|].
  assert (Hne : Z.land (byte.unsigned b0) 31 <> 31)
    by (rewrite Htg; destruct Htag as [[-> _]|[-> _]]; discriminate).
  change (2 ^ 31) with 2147483648 in HL.
  destruct Hform as [(Hshort & _)|(Hlong & Hn1 & Hn2 & Hl & Hval & Hhd)]; [lia|].
  rewrite Hmk, <- !app_assoc.
  pose proof (parseTagAndLength_shape b0 b1 bs [] (body ++ rest) Hne) as Hp.
  cbn [app] in Hp. change (len []) with 0 in Hp. cbn [app]. rewrite Hp.
  cbv zeta. rewrite Hn1, Hn2. cbn [Z.eqb].
  destruct (Z.eqb_spec (len bs) 0); [lia|].
  unfold len at 1. rewrite Nat2Z.id.
  pose proof (parseLength_loop_too_large bs [b0; b1] (body ++ rest) 0) as Hpl.
  cbn [app] in Hpl. rewrite Hpl; [reflexivity| | |].
  - change (2 ^ 31) with 2147483648. lia.
  - rewrite Hval. change (2 ^ 31) with 2147483648. lia.
  - lia.
Qed.
(** ** Integer contents *)

(** The first byte of [Bytes] of a positive number is not zero. *)
Lemma Bytes_head (n : Z) :
  0 < n ->
  exists (b : byte) (l : list byte),
    big.Bytes n = b :: l /\ 0 < byte.unsigned b.
Proof.
  intros Hn. unfold big.Bytes.
  pose proof (BitLen_bound n) as Hub. rewrite Z.abs_eq in * by lia.
  assert (Hlb : 2 ^ (big.BitLen n - 1) <= n).
  { unfold big.BitLen. destruct (Z.eqb_spec n 0); [lia|].
    rewrite Z.abs_eq by lia. replace (Z.log2 n + 1 - 1) with (Z.log2 n) by lia.
    apply Z.log2_spec. lia. }
  assert (Hbl : 1 <= big.BitLen n).
  { unfold big.BitLen. destruct (Z.eqb_spec n 0); [lia|].
    pose proof (Z.log2_nonneg (Z.abs n)). lia. }
  set (k := (big.BitLen n + 7) / 8).
  assert (Hk : 8 * k <= big.BitLen n + 7 < 8 * k + 8)
    by (subst k; Z.div_mod_to_equations; lia).
  destruct (Z.to_nat k) as [|k'] eqn:Hk'; [lia|].
  cbn [big.be_bytes]. eexists _, _. split; [reflexivity|].
  rewrite byte.unsigned_of_Z. unfold byte.wrap.
  rewrite Z.shiftr_div_pow2 by lia. change (2 ^ 8) with 256.
  assert (Hlo : 2 ^ (8 * Z.of_nat k') <= n).
  { eapply Z.le_trans; [|exact Hlb]. apply Z.pow_le_mono_r; lia. }
  assert (Hhi : n < 2 ^ (8 * Z.of_nat k') * 256).
  { eapply Z.lt_le_trans; [exact Hub|].
    change 256 with (2 ^ 8). rewrite <- Z.pow_add_r by lia.
    apply Z.pow_le_mono_r; lia. }
  assert (Hp : 0 < 2 ^ (8 * Z.of_nat k')) by (apply Z.pow_pos_nonneg; lia).
  assert (1 <= n / 2 ^ (8 * Z.of_nat k'))
    by (apply Z.div_le_lower_bound; lia).
  assert (n / 2 ^ (8 * Z.of_nat k') < 256)
    by (apply Z.div_lt_upper_bound; lia).
  rewrite Z.mod_small; lia.
Qed.

(** The contents written for a non-negative integer are read back as that
    integer; they are at most one byte longer than [Bytes]. *)
Lemma parseBigInt_makeBigInt (n : Z) :
  0 <= n ->
  exists body : list byte,
    asn1.makeBigInt (Some n) = Ok body /\
    asn1.parseBigInt body = Ok n /\
    len (big.Bytes n) <= len body <= len (big.Bytes n) + 1.
Proof.
  intros Hn. unfold asn1.makeBigInt, big.Sign.
  destruct (Z.eq_dec n 0) as [->|Hn0].
  { exists [Byte.x00]. repeat split; cbn; lia. }
  rewrite Z.sgn_pos by lia. cbn [Z.ltb Z.eqb Z.compare].
  destruct (Bytes_head n) as (b & l & Hb & Hpos); [lia|].
  rewrite Hb. cbn [hd]. rewrite len_cons.
  pose proof (len_nonneg l) as Hl.
  replace (0 <? 1 + len l) with true by (symmetry; apply Z.ltb_lt; lia).
  cbn [andb].
  assert (Hval : big.SetBytes (b :: l) = n)
    by (rewrite <- Hb, SetBytes_Bytes; lia).
  destruct (Z.eqb_spec (Z.land (byte.unsigned b) 128) 0) as [Hhi|Hhi]; cbn [negb].
  - exists (b :: l). split; [reflexivity|]. split; [|rewrite len_cons; lia].
    unfold asn1.parseBigInt.
    assert (Hc : asn1.checkInteger (b :: l) = Ok tt).
    { unfold asn1.checkInteger. destruct l as [|b1 l']; [reflexivity|].
      destruct (Z.eqb_spec (byte.unsigned b) 0); [lia|].
      destruct (Z.eqb_spec (byte.unsigned b) 255) as [H255|]; [|reflexivity].
      rewrite H255 in Hhi. discriminate Hhi. }
    rewrite Hc. cbn [bind hd]. rewrite Hhi. cbn [Z.eqb].
    rewrite andb_false_r, Hval. reflexivity.
  - exists (Byte.x00 :: b :: l). split; [reflexivity|].
    split; [|rewrite !len_cons; lia].
    unfold asn1.parseBigInt.
    assert (Hc : asn1.checkInteger (Byte.x00 :: b :: l) = Ok tt).
    { unfold asn1.checkInteger.
      destruct (Z.eqb_spec (Z.land (byte.unsigned b) 128) 0); [contradiction|].
      reflexivity. }
    rewrite Hc. cbn [bind hd].
    change (Z.land (byte.unsigned Byte.x00) 128 =? 128) with false.
    rewrite andb_false_r, SetBytes_cons, Hval.
    change (byte.unsigned Byte.x00) with 0. f_equal; lia.
Qed.

(** ** Fields *)

Lemma parseField_makeField {A : Type} (universalTag : Z) (compoundType : bool)
    (parse : list byte -> result asn1.error A) (body : list byte) (v : A)
    (pre rest : list byte) :
  (universalTag = asn1.TagInteger /\ compoundType = false) \/
  (universalTag = asn1.TagSequence /\ compoundType = true) ->
  len body < 2 ^ 31 ->
  parse body = Ok v ->
  asn1.parseField universalTag compoundType parse
    (pre ++ asn1.makeField universalTag compoundType body ++ rest) (len pre) =
  Ok (v, len pre + len (asn1.makeField universalTag compoundType body)).
Proof.
  intros Htag HL Hparse.
  destruct (parseTagAndLength_makeField universalTag compoundType body Htag HL)
    as (hdr & Hmk & Hhdr & Hhead).
  rewrite Hmk. unfold asn1.parseField.
  pose proof (len_nonneg pre). pose proof (len_nonneg rest).
  pose proof (len_nonneg body).
  destruct (Z.eqb_spec (len pre) (len (pre ++ (hdr ++ body) ++ rest))) as [Heq|_].
  { rewrite !len_app in Heq. lia. }
  rewrite <- (app_assoc hdr body rest), Hhead. cbn [bind].
  cbn [asn1.class asn1.tag asn1.length asn1.isCompound].
  rewrite !Z.eqb_refl, eqb_reflx. cbn [negb orb].
  unfold asn1.invalidLength.
  destruct (Z.ltb_spec (len pre + len hdr + len body) (len pre + len hdr)); [lia|].
  destruct (Z.gtb_spec (len pre + len hdr + len body)
              (len (pre ++ hdr ++ body ++ rest))) as [Hgt|_].
  { rewrite !len_app in Hgt. lia. }
  cbn [orb]. rewrite (app_assoc pre hdr), <- len_app, slice_middle.
  cbn [bind]. rewrite Hparse. cbn [bind]. f_equal. f_equal.
  rewrite !len_app. lia.
Qed.

Lemma len_makeField (universalTag : Z) (compoundType : bool) (body : list byte) :
  (universalTag = asn1.TagInteger /\ compoundType = false) \/
  (universalTag = asn1.TagSequence /\ compoundType = true) ->
  len body < 2 ^ 32 ->
  len body + 2 <= len (asn1.makeField universalTag compoundType body)
               <= len body + 6.
Proof.
  intros Htag HL.
  destruct (makeField_shape universalTag compoundType body Htag HL)
    as (b0 & b1 & bs & Hmk & _ & _ & _ & Hform).
  rewrite Hmk, !len_app. change (len [b0; b1]) with 2.
  destruct Hform as [(_ & -> & _)|(_ & _ & _ & Hl & _)];
    [change (len []) with 0|]; lia.
Qed.

Lemma len_makeField_ge (universalTag : Z) (compoundType : bool)
    (body : list byte) :
  len body <= len (asn1.makeField universalTag compoundType body).
Proof.
  unfold asn1.makeField. rewrite len_app.
  pose proof (len_nonneg
    (asn1.appendTagAndLength []
       {| asn1.class := asn1.ClassUniversal; asn1.tag := universalTag;
          asn1.length := len body; asn1.isCompound := compoundType |})).
  lia.
Qed.

(** ** Marshal, then Unmarshal *)

Lemma Marshal_Ok (r s : Z) :
  exists enc, asn1.Marshal {| asn1.R := Some r; asn1.S := Some s |} = Ok enc.
Proof.
  unfold asn1.Marshal, asn1.makeBigInt. cbn [asn1.R asn1.S].
  repeat match goal with
         | |- context [if ?c then _ else _] => destruct c
         end; cbn [bind]; eexists; reflexivity.
Qed.

Lemma Unmarshal_Marshal (r s : Z) (enc extra : list byte) :
  0 <= r -> 0 <= s ->
  asn1.Marshal {| asn1.R := Some r; asn1.S := Some s |} = Ok enc ->
  len enc < 2 ^ 31 ->
  asn1.Unmarshal (enc ++ extra) =
  Ok (extra, {| asn1.R := Some r; asn1.S := Some s |}).
Proof.
  intros Hr Hs Hm Hlen. unfold asn1.Marshal in Hm. cbn [asn1.R asn1.S] in Hm.
  destruct (parseBigInt_makeBigInt r Hr) as (rb & Hrb & Hrp & _).
  destruct (parseBigInt_makeBigInt s Hs) as (sb & Hsb & Hsp & _).
  rewrite Hrb, Hsb in Hm. cbn [bind] in Hm. injection Hm as <-.
  set (fR := asn1.makeField asn1.TagInteger false rb) in *.
  set (fS := asn1.makeField asn1.TagInteger false sb) in *.
  pose proof (len_makeField_ge asn1.TagSequence true (fR ++ fS)) as H1.
  pose proof (len_makeField_ge asn1.TagInteger false rb) as H2.
  pose proof (len_makeField_ge asn1.TagInteger false sb) as H3.
  fold fR in H2. fold fS in H3. rewrite len_app in H1.
  pose proof (len_nonneg fR). pose proof (len_nonneg fS).
  assert (Hstruct : asn1.parseStruct_signatureECDSA (fR ++ fS) =
                    Ok {| asn1.R := Some r; asn1.S := Some s |}).
  { unfold asn1.parseStruct_signatureECDSA, asn1.parseField_bigInt.
    pose proof (parseField_makeField asn1.TagInteger false asn1.parseBigInt
                  rb r [] fS) as Hf1.
    cbn [app] in Hf1. change (len []) with 0 in Hf1. fold fR in Hf1.
    rewrite Hf1 by (auto; lia). cbn [bind]. rewrite Z.add_0_l.
    pose proof (parseField_makeField asn1.TagInteger false asn1.parseBigInt
                  sb s fR []) as Hf2.
    fold fS in Hf2. rewrite app_nil_r in Hf2.
    rewrite Hf2 by (auto; lia). reflexivity. }
  unfold asn1.Unmarshal.
  pose proof (parseField_makeField asn1.TagSequence true
                asn1.parseStruct_signatureECDSA (fR ++ fS)
                {| asn1.R := Some r; asn1.S := Some s |} [] extra) as Hf.
  cbn [app] in Hf. change (len []) with 0 in Hf.
  rewrite Hf by (auto; rewrite ?len_app; lia). cbn [bind].
  rewrite Z.add_0_l, slice_from_app. reflexivity.
Qed.
(** ** Signatures: the round trip *)

(** The bytes of a power of two. *)
Lemma len_Bytes_pow2 (k : Z) : 0 <= k -> len (big.Bytes (2 ^ k)) = (k + 8) / 8.
Proof.
  intros Hk. rewrite length_Bytes. unfold big.BitLen.
  assert (Hpos : 0 < 2 ^ k) by (apply Z.pow_pos_nonneg; lia).
  destruct (Z.eqb_spec (2 ^ k) 0) as [H0|_]; [lia|].
  rewrite Z.abs_eq, Z.log2_pow2 by lia. f_equal. ring.
Qed.

(** A component whose bytes number 2^31 (or a few more) is encoded, and the
    encoding is rejected. *)
Lemma Unmarshal_too_large (R : Z) :
  0 < R ->
  2 ^ 31 <= len (big.Bytes R) < 2 ^ 31 + 256 ->
  exists enc : list byte,
    MarshalECDSASignature (Some R) (Some 1) = Ok enc /\
    UnmarshalECDSASignature enc =
    Err (ErrUnmarshal (asn1.StructuralError "length too large")).
Proof.
  intros HR Hlen.
  destruct (parseBigInt_makeBigInt R) as (rb & Hrb & _ & Hrl); [lia|].
  unfold MarshalECDSASignature, asn1.Marshal. cbn [asn1.R asn1.S].
  rewrite Hrb. cbn [bind asn1.makeBigInt big.Sign Z.sgn Z.ltb Z.eqb Z.compare].
  change (big.Bytes 1) with [Byte.x01]. cbn [len hd andb negb].
  change (asn1.makeField asn1.TagInteger false [Byte.x01])
    with [Byte.x02; Byte.x01; Byte.x01].
  set (fR := asn1.makeField asn1.TagInteger false rb).
  change (2 ^ 31) with 2147483648 in *.
  assert (HfR : len rb + 2 <= len fR <= len rb + 6).
  { apply len_makeField; [auto|]. change (2 ^ 32) with 4294967296. lia. }
  set (body := fR ++ [Byte.x02; Byte.x01; Byte.x01]).
  assert (Hbody : 2147483648 <= len body < 4294967296).
  { subst body. rewrite len_app.
    change (len [Byte.x02; Byte.x01; Byte.x01]) with 3. lia. }
  exists (asn1.makeField asn1.TagSequence true body). split; [reflexivity|].
  unfold UnmarshalECDSASignature, asn1.Unmarshal, asn1.parseField.
  pose proof (len_makeField_ge asn1.TagSequence true body) as Hge.
  destruct (Z.eqb_spec 0 (len (asn1.makeField asn1.TagSequence true body)));
    [lia|].
  pose proof (parseTagAndLength_too_large asn1.TagSequence true body []) as Hp.
  rewrite app_nil_r in Hp. rewrite Hp; [reflexivity|auto|].
  change (2 ^ 31) with 2147483648. change (2 ^ 32) with 4294967296. lia.
Qed.

Lemma Unmarshal_too_large_pow2 (k : Z) :
  0 <= k ->
  2 ^ 31 <= (k + 8) / 8 < 2 ^ 31 + 256 ->
  0 < 2 ^ k /\ 0 < 1 /\
  exists enc : list byte,
    MarshalECDSASignature (Some (2 ^ k)) (Some 1) = Ok enc /\
    UnmarshalECDSASignature enc =
      Err (ErrUnmarshal (asn1.StructuralError "length too large")) /\
    UnmarshalECDSASignature enc <> Ok (2 ^ k, 1).
Proof.
  intros Hk Hlen.
  assert (Hpos : 0 < 2 ^ k) by (apply Z.pow_pos_nonneg; lia).
  split; [exact Hpos|]. split; [reflexivity|].
  destruct (Unmarshal_too_large (2 ^ k) Hpos) as (enc & Hm & Hu).
  { rewrite len_Bytes_pow2 by assumption. exact Hlen. }
  exists enc. split; [exact Hm|]. split; [exact Hu|].
  rewrite Hu. discriminate.
Qed.

(** C6, as stated, fails: the positive pair (2^(8 * (2^31 - 1)), 1), whose
    first component takes 2^31 bytes, is encoded, and decoding the encoding
    stops with the error "length too large" of asn1. *)
Lemma signature_round_trip_counterexample :
  0 < 2 ^ (8 * (2 ^ 31 - 1)) /\ 0 < 1 /\
  exists enc : list byte,
    MarshalECDSASignature (Some (2 ^ (8 * (2 ^ 31 - 1)))) (Some 1) = Ok enc /\
    UnmarshalECDSASignature enc =
      Err (ErrUnmarshal (asn1.StructuralError "length too large")) /\
    UnmarshalECDSASignature enc <> Ok (2 ^ (8 * (2 ^ 31 - 1)), 1).
Proof.
  refine (Unmarshal_too_large_pow2 (8 * (2 ^ 31 - 1)) _ _).
  - discriminate.
  - split; [discriminate|reflexivity].
Qed.

Lemma MarshalECDSASignature_small (R S : Z) (enc : list byte) :
  0 <= R < 2 ^ 256 -> 0 <= S < 2 ^ 256 ->
  MarshalECDSASignature (Some R) (Some S) = Ok enc ->
  len enc <= 84.
Proof.
  intros HR HS. unfold MarshalECDSASignature, asn1.Marshal. cbn [asn1.R asn1.S].
  destruct (parseBigInt_makeBigInt R) as (rb & Hrb & _ & Hrl); [lia|].
  destruct (parseBigInt_makeBigInt S) as (sb & Hsb & _ & Hsl); [lia|].
  rewrite Hrb, Hsb. cbn [bind]. intros Hm. injection Hm as <-.
  assert (len (big.Bytes R) <= 32)
    by (apply length_Bytes_le; [lia|]; change (256 ^ 32) with (2 ^ 256); lia).
  assert (len (big.Bytes S) <= 32)
    by (apply length_Bytes_le; [lia|]; change (256 ^ 32) with (2 ^ 256); lia).
  pose proof (len_nonneg rb). pose proof (len_nonneg sb).
  pose proof (len_makeField asn1.TagInteger false rb) as Hm1.
  pose proof (len_makeField asn1.TagInteger false sb) as Hm2.
  change (2 ^ 32) with 4294967296 in *.
  pose proof (len_makeField asn1.TagSequence true
                (asn1.makeField asn1.TagInteger false rb
                 ++ asn1.makeField asn1.TagInteger false sb)) as Hm3.
  rewrite len_app in Hm3.
  assert (len rb < 4294967296) by lia. assert (len sb < 4294967296) by lia.
  specialize (Hm1 (or_introl (conj eq_refl eq_refl)) ltac:(assumption)).
  specialize (Hm2 (or_introl (conj eq_refl eq_refl)) ltac:(assumption)).
  specialize (Hm3 (or_intror (conj eq_refl eq_refl)) ltac:(lia)). lia.
Qed.

(** C6, amended: for strictly positive R and S the pair is always
    encoded, and whenever the encoding is shorter than 2^31 bytes -- as it
    is for all R, S below 2^256 -- decoding it returns (R, S). *)
Theorem signature_round_trip (R S : Z) :
  0 < R -> 0 < S ->
  exists enc : list byte,
    MarshalECDSASignature (Some R) (Some S) = Ok enc /\
    (len enc < 2 ^ 31 -> UnmarshalECDSASignature enc = Ok (R, S)) /\
    (R < 2 ^ 256 -> S < 2 ^ 256 -> len enc < 2 ^ 31).
Proof.
  intros HR HS. destruct (Marshal_Ok R S) as (enc & Hm).
  exists enc. split; [exact Hm|]. split.
  - intros Hlen. unfold UnmarshalECDSASignature.
    pose proof (Unmarshal_Marshal R S enc [] ltac:(lia) ltac:(lia) Hm Hlen) as Hu.
    rewrite app_nil_r in Hu. rewrite Hu.
    unfold checkSignature, big.Sign. cbn [asn1.R asn1.S].
    rewrite !Z.sgn_pos by assumption. reflexivity.
  - intros HR' HS'.
    pose proof (MarshalECDSASignature_small R S enc ltac:(lia) ltac:(lia) Hm).
    change (2 ^ 31) with 2147483648. lia.
Qed.

Lemma signature_round_trip_witness :
  exists enc : list byte,
    MarshalECDSASignature (Some 5) (Some 255) = Ok enc /\
    UnmarshalECDSASignature enc = Ok (5, 255).
Proof.
  destruct (signature_round_trip 5 255) as (enc & Hm & Hrt & Hsmall);
    [reflexivity|reflexivity|].
  exists enc. split; [exact Hm|]. apply Hrt, Hsmall; reflexivity.
Defined.

(** C10: bytes after the encoding are ignored.  Whenever [enc] alone is
    decoded to (r, s), so is [enc] followed by any bytes [extra]; and this
    is the case of the encoding of every strictly positive pair that is
    shorter than 2^31 bytes. *)
Theorem UnmarshalECDSASignature_trailing_bytes (enc extra : list byte) (r s : Z) :
  (UnmarshalECDSASignature enc = Ok (r, s) ->
   UnmarshalECDSASignature (enc ++ extra) = Ok (r, s)) /\
  (0 < r -> 0 < s ->
   MarshalECDSASignature (Some r) (Some s) = Ok enc ->
   len enc < 2 ^ 31 ->
   UnmarshalECDSASignature (enc ++ extra) = Ok (r, s)).
Proof.
  split; [apply UnmarshalECDSASignature_extend|].
  intros Hr Hs Hm Hlen. unfold UnmarshalECDSASignature.
  rewrite (Unmarshal_Marshal r s enc extra ltac:(lia) ltac:(lia) Hm Hlen).
  unfold checkSignature, big.Sign. cbn [asn1.R asn1.S].
  rewrite !Z.sgn_pos by assumption. reflexivity.
Qed.

Lemma UnmarshalECDSASignature_trailing_bytes_witness :
  UnmarshalECDSASignature (sig_5_255 ++ [Byte.xde; Byte.xad]) = Ok (5, 255).
Proof.
  apply (proj2 (UnmarshalECDSASignature_trailing_bytes
                  sig_5_255 [Byte.xde; Byte.xad] 5 255));
    reflexivity.
Defined.

(** ** Modular arithmetic *)

Lemma cong_divide (a b m : Z) :
  m <> 0 -> a mod m = b mod m <-> (m | a - b).
Proof. intros Hm. rewrite Z.cong_iff_0. apply Z.mod_divide, Hm. Qed.

Lemma Zprod_Permutation (l l' : list Z) :
  Permutation l l' -> Zprod l = Zprod l'.
Proof.
  induction 1 as [|x l l' _ IH|x y l|l l' l'' _ IH1 _ IH2]; cbn [Zprod fold_right].
  - reflexivity.
  - fold (Zprod l) (Zprod l'). now rewrite IH.
  - ring.
  - congruence.
Qed.

Lemma Zprod_map_mul (a : Z) (l : list Z) :
  Zprod (map (Z.mul a) l) = a ^ len l * Zprod l.
Proof.
  induction l as [|x l IH]; cbn [map Zprod fold_right].
  - reflexivity.
  - fold (Zprod (map (Z.mul a) l)) (Zprod l). rewrite IH, len_cons.
    rewrite Z.pow_add_r, Z.pow_1_r by (pose proof (len_nonneg l); lia). ring.
Qed.

Lemma Zprod_map_mod (f : Z -> Z) (m : Z) (l : list Z) :
  m <> 0 ->
  Zprod (map (fun x => f x mod m) l) mod m = Zprod (map f l) mod m.
Proof.
  intros Hm. induction l as [|x l IH]; cbn [map Zprod fold_right]; [reflexivity|].
  fold (Zprod (map (fun x => f x mod m) l)) (Zprod (map f l)).
  rewrite Z.mul_mod, IH, Z.mod_mod, <- Z.mul_mod by assumption. reflexivity.
Qed.

(** ** Fermat's little theorem *)
Section Fermat.

Variable p : Z.
Hypothesis Hp : Z.prime p.

Lemma prime_not_divide_small (x : Z) : 0 < x < p -> ~ (p | x).
Proof. intros Hx Hd. apply Z.divide_pos_le in Hd; lia. Qed.

Lemma residues_In (x : Z) : In x (residues p) <-> 0 < x < p.
Proof.
  pose proof (Z.prime_ge_2 p Hp). unfold residues. rewrite in_map_iff. split.
  - intros (k & <- & Hk). apply in_seq in Hk. lia.
  - intros Hx. exists (Z.to_nat x). split; [lia|]. apply in_seq. lia.
Qed.

Lemma residues_NoDup : NoDup (residues p).
Proof.
  unfold residues. apply NoDup_map_NoDup_ForallPairs; [|apply seq_NoDup].
  intros x y _ _. apply Nat2Z.inj.
Qed.

Lemma residues_length : len (residues p) = p - 1.
Proof.
  pose proof (Z.prime_ge_2 p Hp). unfold residues, len.
  rewrite length_map, length_seq. lia.
Qed.

Lemma not_divide_Zprod (l : list Z) :
  (forall x, In x l -> ~ (p | x)) -> ~ (p | Zprod l).
Proof.
  pose proof (Z.prime_ge_2 p Hp).
  induction l as [|x l IH]; intros Hl; cbn [Zprod fold_right].
  - intros Hd. apply Z.divide_1_r_nonneg in Hd; lia.
  - fold (Zprod l). intros Hd. apply Z.divide_prime_mul in Hd; [|assumption].
    destruct Hd as [Hd|Hd].
    + exact (Hl x (or_introl eq_refl) Hd).
    + apply IH; [|exact Hd]. intros y Hy. apply Hl. now right.
Qed.

Lemma mul_cancel_mod (a x y : Z) :
  ~ (p | a) -> (a * x) mod p = (a * y) mod p -> x mod p = y mod p.
Proof.
  pose proof (Z.prime_ge_2 p Hp). intros Ha Heq.
  apply cong_divide in Heq; [|lia]. apply cong_divide; [lia|].
  replace (a * x - a * y) with (a * (x - y)) in Heq by ring.
  apply Z.divide_prime_mul in Heq; [|assumption]. tauto.
Qed.

Lemma fermat_little (a : Z) : ~ (p | a) -> a ^ (p - 1) mod p = 1.
Proof.
  intros Ha. pose proof (Z.prime_ge_2 p Hp) as Hp2.
  assert (Hperm : Permutation (map (fun x => (a * x) mod p) (residues p))
                              (residues p)).
  { apply NoDup_Permutation_bis.
    - apply NoDup_map_NoDup_ForallPairs; [|apply residues_NoDup].
      intros x y Hx Hy Heq. apply residues_In in Hx, Hy.
      apply mul_cancel_mod in Heq; [|assumption].
      rewrite !Z.mod_small in Heq by lia. exact Heq.
    - rewrite length_map. lia.
    - intros y Hy. apply in_map_iff in Hy. destruct Hy as (x & <- & Hx).
      apply residues_In in Hx. apply residues_In.
      pose proof (Z.mod_pos_bound (a * x) p ltac:(lia)) as Hb.
      assert ((a * x) mod p <> 0); [|lia].
      intros H0. apply Z.mod_divide in H0; [|lia].
      apply Z.divide_prime_mul in H0; [|assumption].
      destruct H0 as [H0|H0]; [contradiction|].
      exact (prime_not_divide_small x Hx H0). }
  apply Zprod_Permutation in Hperm.
  apply (f_equal (fun z => z mod p)) in Hperm.
  rewrite (Zprod_map_mod (Z.mul a)), Zprod_map_mul, residues_length in Hperm by lia.
  rewrite <- (Z.mod_1_l p) at 2 by lia.
  apply (mul_cancel_mod (Zprod (residues p))).
  - apply not_divide_Zprod. intros x Hx. apply residues_In in Hx.
    now apply prime_not_divide_small.
  - rewrite Z.mul_1_r, (Z.mul_comm (Zprod _)). exact Hperm.
Qed.

(** For every a: a^p = a (mod p). *)
Corollary fermat_little_all (a : Z) : a ^ p mod p = a mod p.
Proof.
  pose proof (Z.prime_ge_2 p Hp) as Hp2.
  replace p with (1 + (p - 1)) at 1 by ring.
  rewrite Z.pow_add_r, Z.pow_1_r by lia.
  destruct (Z.eq_dec (a mod p) 0) as [Hd|Hd].
  - rewrite Z.mul_mod, Hd, Z.mul_0_l by lia. reflexivity.
  - assert (Hnd : ~ (p | a))
      by (intros Hdiv; apply Hd, Z.mod_divide; [lia|exact Hdiv]).
    rewrite Z.mul_mod, (fermat_little a Hnd), Z.mul_1_r, Z.mod_mod by lia.
    reflexivity.
Qed.

End Fermat.

(** ** Orders: exponents that give 1 are closed under gcd *)

Lemma pow_gcd_one (m b : Z) :
  1 < m ->
  forall s x y : Z,
    0 <= x -> 0 <= y -> x + y <= s ->
    b ^ x mod m = 1 -> b ^ y mod m = 1 -> b ^ Z.gcd x y mod m = 1.
Proof.
  intros Hm s. destruct (Z.le_gt_cases 0 s) as [Hs|Hs]; [|intros; lia].
  revert s Hs. apply (Z_lt_induction
    (fun s => forall x y, 0 <= x -> 0 <= y -> x + y <= s ->
       b ^ x mod m = 1 -> b ^ y mod m = 1 -> b ^ Z.gcd x y mod m = 1)).
  intros s IH x y Hx Hy Hs Hbx Hby.
  destruct (Z.eq_dec x 0) as [->|Hx0].
  { rewrite Z.gcd_0_l, Z.abs_eq by lia. exact Hby. }
  destruct (Z.eq_dec y 0) as [->|Hy0].
  { rewrite Z.gcd_0_r, Z.abs_eq by lia. exact Hbx. }
  destruct (Z.le_gt_cases x y) as [Hle|Hgt].
  - rewrite <- (Z.gcd_sub_diag_r x y).
    apply (IH y ltac:(lia) x (y - x)); [lia|lia|lia|exact Hbx|].
    replace y with (x + (y - x)) in Hby by ring.
    rewrite Z.pow_add_r, Z.mul_mod, Hbx, Z.mul_1_l, Z.mod_mod in Hby by lia.
    exact Hby.
  - rewrite Z.gcd_comm, <- (Z.gcd_sub_diag_r y x).
    apply (IH x ltac:(lia) y (x - y)); [lia|lia|lia|exact Hby|].
    replace x with (y + (x - y)) in Hbx by ring.
    rewrite Z.pow_add_r, Z.mul_mod, Hby, Z.mul_1_l, Z.mod_mod in Hbx by lia.
    exact Hbx.
Qed.

(** ** Modular exponentiation *)

Lemma exp_pos_spec (x : Z) (e : positive) (m : Z) :
  m <> 0 -> big.exp_pos x e m = x ^ Zpos e mod m.
Proof.
  intros Hm. induction e as [e IH|e IH|]; cbn [big.exp_pos].
  - rewrite IH, Pos2Z.inj_xI.
    replace (2 * Z.pos e + 1) with (Z.pos e + Z.pos e + 1) by ring.
    rewrite !Z.pow_add_r, Z.pow_1_r by lia.
    rewrite <- Z.mul_mod by assumption.
    rewrite Z.mul_mod_idemp_l by assumption. reflexivity.
  - rewrite IH, Pos2Z.inj_xO.
    replace (2 * Z.pos e) with (Z.pos e + Z.pos e) by ring.
    rewrite Z.pow_add_r by lia. rewrite <- Z.mul_mod by assumption. reflexivity.
  - now rewrite Z.pow_1_r.
Qed.

Lemma Exp_spec (x y m : Z) :
  0 <= y -> m <> 0 -> big.Exp x y m = x ^ y mod m.
Proof.
  intros Hy Hm. unfold big.Exp. destruct y as [|e|e]; [reflexivity| |lia].
  now apply exp_pos_spec.
Qed.

(** ** Prime factors *)

Lemma exists_prime_factor (m : Z) :
  1 < m -> exists p : Z, Z.prime p /\ (p | m).
Proof.
  destruct (Z.le_gt_cases 0 m) as [Hm|Hm]; [|lia].
  revert m Hm. apply (Z_lt_induction
    (fun m => 1 < m -> exists p, Z.prime p /\ (p | m))).
  intros m IH Hm1. destruct (prime_dec m) as [Hpr|Hnp].
  - exists m. split; [now apply prime_alt|apply Z.divide_refl].
  - destruct (not_prime_divide m Hm1 Hnp) as (d & Hd & Hdm).
    destruct (IH d ltac:(lia) ltac:(lia)) as (p & Hp & Hpd).
    exists p. split; [exact Hp|]. now apply Z.divide_trans with d.
Qed.

Lemma prime_of_large_prime_factors (n : Z) :
  1 < n ->
  (forall p : Z, Z.prime p -> (p | n) -> n < p * p) ->
  Z.prime n.
Proof.
  intros Hn Hbig. split; [exact Hn|]. intros d Hd Hdn.
  destruct Hdn as (e & He).
  assert (He1 : 1 < e) by nia.
  destruct (exists_prime_factor d ltac:(lia)) as (p1 & Hp1 & Hp1d).
  destruct (exists_prime_factor e He1) as (p2 & Hp2 & Hp2e).
  pose proof (Z.prime_ge_2 p1 Hp1). pose proof (Z.prime_ge_2 p2 Hp2).
  assert (p1 <= d) by (apply Z.divide_pos_le; [lia|assumption]).
  assert (p2 <= e) by (apply Z.divide_pos_le; [lia|assumption]).
  assert (Hn1 : n < p1 * p1).
  { apply Hbig; [assumption|]. rewrite He. now apply Z.divide_mul_r. }
  assert (Hn2 : n < p2 * p2).
  { apply Hbig; [assumption|]. rewrite He. now apply Z.divide_mul_l. }
  destruct (Z.le_gt_cases d e); nia.
Qed.

(** ** Pocklington's criterion *)

Lemma pock_divides (n p q a : Z) :
  1 < n -> Z.prime p -> (p | n) ->
  Z.prime q -> (q | n - 1) ->
  a ^ (n - 1) mod n = 1 ->
  Z.gcd (a ^ ((n - 1) / q) mod n - 1) n = 1 ->
  (q | p - 1).
Proof.
  intros Hn Hp Hpn Hq Hqn Hone Hgcd.
  pose proof (Z.prime_ge_2 p Hp) as Hp2. pose proof (Z.prime_ge_2 q Hq) as Hq2.
  set (e := (n - 1) / q) in *.
  assert (He : n - 1 = e * q).
  { subst e. destruct Hqn as (k & Hk). rewrite Hk, Z.div_mul by lia. reflexivity. }
  assert (He0 : 0 <= e) by nia.
  assert (Honep : a ^ (n - 1) mod p = 1).
  { rewrite <- (Z.mod_mod_divide _ n p Hpn), Hone. apply Z.mod_1_l. lia. }
  assert (Hnda : ~ (p | a)).
  { intros Hd. assert (Hz : a ^ (n - 1) mod p = 0); [|lia].
    apply Z.mod_divide; [lia|].
    replace (n - 1) with (1 + (n - 2)) by ring.
    rewrite Z.pow_add_r, Z.pow_1_r by lia. now apply Z.divide_mul_l. }
  pose proof (fermat_little p Hp a Hnda) as Hf.
  assert (Hbq : (a ^ e) ^ q mod p = 1).
  { rewrite <- Z.pow_mul_r, <- He by lia. exact Honep. }
  assert (Hbp : (a ^ e) ^ (p - 1) mod p = 1).
  { rewrite <- Z.pow_mul_r, Z.mul_comm, Z.pow_mul_r by lia.
    rewrite <- Z.mod_pow_l, Hf, Z.pow_1_l by lia. apply Z.mod_1_l. lia. }
  pose proof (pow_gcd_one p (a ^ e) ltac:(lia) (q + (p - 1)) q (p - 1)
                ltac:(lia) ltac:(lia) ltac:(lia) Hbq Hbp) as Hg.
  pose proof (Z.gcd_divide_l q (p - 1)) as Hgq.
  pose proof (Z.gcd_nonneg q (p - 1)) as Hg0.
  apply Z.divide_prime_r in Hgq; [|assumption].
  destruct Hgq as [Hgq|[Hgq|[Hgq|Hgq]]]; try lia.
  - (* the gcd is 1: a^e = 1 (mod p), against the gcd condition *)
    exfalso. rewrite Hgq, Z.pow_1_r in Hg.
    assert (Hdiv : (p | a ^ e mod n - 1)).
    { apply (cong_divide _ 1 p); [lia|].
      rewrite (Z.mod_mod_divide _ n p Hpn), Hg. symmetry. apply Z.mod_1_l. lia. }
    pose proof (Z.gcd_greatest _ _ _ Hdiv Hpn) as Hd1. rewrite Hgcd in Hd1.
    apply Z.divide_1_r_nonneg in Hd1; lia.
  - rewrite <- Hgq. apply Z.gcd_divide_r.
Qed.

Lemma increasing_spec (l : list Z) (lo : Z) :
  increasing lo l = true -> (forall x, In x l -> lo < x) /\ NoDup l.
Proof.
  revert lo. induction l as [|q l IH]; intros lo; cbn [increasing].
  - intros _. split; [intros x []|constructor].
  - rewrite andb_true_iff, Z.ltb_lt. intros [Hlo Hinc].
    destruct (IH q Hinc) as [Hall Hnd]. split.
    + intros x [<-|Hx]; [exact Hlo|]. specialize (Hall x Hx). lia.
    + constructor; [|exact Hnd]. intros Hin. specialize (Hall q Hin). lia.
Qed.

Lemma prime_divide_Zprod (q : Z) (l : list Z) :
  Z.prime q -> (q | Zprod l) -> exists x, In x l /\ (q | x).
Proof.
  intros Hq. induction l as [|x l IH]; cbn [Zprod fold_right].
  - intros Hd. pose proof (Z.prime_ge_2 q Hq).
    apply Z.divide_1_r_nonneg in Hd; lia.
  - fold (Zprod l). intros Hd. apply Z.divide_prime_mul in Hd; [|assumption].
    destruct Hd as [Hd|Hd].
    + exists x. split; [now left|exact Hd].
    + destruct (IH Hd) as (y & Hy & Hqy). exists y. split; [now right|exact Hqy].
Qed.

Lemma Zprod_divides (qs : list Z) (m : Z) :
  NoDup qs ->
  (forall q, In q qs -> Z.prime q /\ (q | m)) ->
  (Zprod qs | m).
Proof.
  induction qs as [|q qs IH]; intros Hnd Hall; cbn [Zprod fold_right].
  - apply Z.divide_1_l.
  - fold (Zprod qs). inversion Hnd as [|? ? Hnotin Hnd']; subst.
    destruct (Hall q (or_introl eq_refl)) as [Hq Hqm].
    assert (HF : (Zprod qs | m)).
    { apply IH; [exact Hnd'|]. intros x Hx. apply Hall. now right. }
    destruct HF as (k & Hk). rewrite Hk.
    apply Z.mul_divide_mono_r. rewrite Hk in Hqm.
    apply Z.divide_prime_mul in Hqm; [|assumption].
    destruct Hqm as [Hqk|Hqp]; [exact Hqk|].
    exfalso. destruct (prime_divide_Zprod q qs Hq Hqp) as (x & Hx & Hqx).
    destruct (Hall x (or_intror Hx)) as [Hxp _].
    pose proof (Z.divide_prime_prime q x Hq Hxp Hqx). subst x. contradiction.
Qed.

Lemma Zprod_pos (l : list Z) : (forall x, In x l -> 0 < x) -> 0 < Zprod l.
Proof.
  induction l as [|x l IH]; intros Hl; cbn [Zprod fold_right]; [lia|].
  fold (Zprod l). apply Z.mul_pos_pos.
  - apply Hl. now left.
  - apply IH. intros y Hy. apply Hl. now right.
Qed.

Lemma pock_sound (n : Z) (cert : list (Z * Z)) :
  pock_check n cert = true ->
  (forall q, In q (map fst cert) -> Z.prime q) ->
  Z.prime n.
Proof.
  unfold pock_check. rewrite !andb_true_iff, Z.ltb_lt, Z.ltb_lt, forallb_forall.
  intros (((Hn & Hinc) & HF) & Hall) Hprimes.
  destruct (increasing_spec _ _ Hinc) as [Hgt Hnd].
  apply prime_of_large_prime_factors; [exact Hn|]. intros p Hp Hpn.
  pose proof (Z.prime_ge_2 p Hp) as Hp2.
  assert (Hdiv : (Zprod (map fst cert) | p - 1)).
  { apply Zprod_divides; [exact Hnd|]. intros q Hq.
    split; [now apply Hprimes|].
    apply in_map_iff in Hq. destruct Hq as ([q' a] & <- & Hin). cbn [fst].
    specialize (Hall _ Hin). cbn [fst snd] in Hall.
    rewrite !andb_true_iff, !Z.eqb_eq in Hall. destruct Hall as ((Hq1 & Hq2) & Hq3).
    assert (Hq'p : Z.prime q') by (apply Hprimes, in_map_iff; exists (q', a); auto).
    pose proof (Z.prime_ge_2 q' Hq'p).
    rewrite Exp_spec in Hq2 by lia.
    rewrite Exp_spec in Hq3 by (try lia; apply Z.div_pos; lia).
    apply (pock_divides n p q' a); try assumption.
    apply Z.mod_divide; [lia|exact Hq1]. }
  assert (Zprod (map fst cert) <= p - 1)
    by (apply Z.divide_pos_le; [lia|exact Hdiv]).
  assert (0 < Zprod (map fst cert)).
  { apply Zprod_pos. intros x Hx. specialize (Hgt x Hx). lia. }
  nia.
Qed.

(** ** Trial division *)

Lemma trial_sound (fuel : nat) (d n : Z) :
  trial fuel d n = true -> 0 < d ->
  forall k : Z, d <= k -> k * k <= n -> ~ (k | n).
Proof.
  revert d. induction fuel as [|fuel IH]; intros d; cbn [trial]; [discriminate|].
  destruct (Z.ltb_spec n (d * d)) as [Hlt|Hge].
  - intros _ Hd k Hk Hkk. nia.
  - destruct (Z.eqb_spec (n mod d) 0) as [|Hnz]; [discriminate|].
    intros Ht Hd k Hk Hkk.
    destruct (Z.eq_dec k d) as [->|Hne].
    + intros Hdiv. apply Hnz. apply Z.mod_divide; [lia|exact Hdiv].
    + apply (IH (d + 1)); [exact Ht|lia|lia|exact Hkk].
Qed.

Lemma prime_small_sound (n : Z) : prime_small n = true -> Z.prime n.
Proof.
  unfold prime_small. rewrite andb_true_iff, Z.ltb_lt. intros [Hn Ht].
  apply prime_of_large_prime_factors; [exact Hn|]. intros p Hp Hpn.
  pose proof (Z.prime_ge_2 p Hp).
  destruct (Z.lt_ge_cases n (p * p)) as [|Hle]; [assumption|].
  exfalso. exact (trial_sound _ 2 n Ht ltac:(lia) p ltac:(lia) ltac:(lia) Hpn).
Qed.

(** ** The prime of P-256 *)

Lemma prime_197 : Z.prime 197.
Proof. apply prime_small_sound. vm_compute. reflexivity. Qed.

Lemma prime_3677 : Z.prime 3677.
Proof. apply prime_small_sound. vm_compute. reflexivity. Qed.

Lemma prime_78283 : Z.prime 78283.
Proof. apply prime_small_sound. vm_compute. reflexivity. Qed.

Lemma prime_704251 : Z.prime 704251.
Proof. apply prime_small_sound. vm_compute. reflexivity. Qed.

Lemma prime_66417393611 : Z.prime 66417393611.
Proof.
  apply (pock_sound _ [(197, 2); (3677, 2)]).
  - vm_compute. reflexivity.
  - cbn [map fst]. intros q [<-|[<-|[]]]; [exact prime_197|exact prime_3677].
Qed.

Lemma prime_11290956913871 : Z.prime 11290956913871.
Proof.
  apply (pock_sound _ [(66417393611, 2)]).
  - vm_compute. reflexivity.
  - cbn [map fst]. intros q [<-|[]]; [exact prime_66417393611].
Qed.

Lemma prime_46076956964474543 : Z.prime 46076956964474543.
Proof.
  apply (pock_sound _ [(78283, 2); (704251, 2)]).
  - vm_compute. reflexivity.
  - cbn [map fst]. intros q [<-|[<-|[]]]; [exact prime_78283|exact prime_704251].
Qed.

Lemma prime_774023187263532362759620327192479577272145303 : Z.prime 774023187263532362759620327192479577272145303.
Proof.
  apply (pock_sound _ [(11290956913871, 2); (46076956964474543, 2)]).
  - vm_compute. reflexivity.
  - cbn [map fst]. intros q [<-|[<-|[]]]; [exact prime_11290956913871|exact prime_46076956964474543].
Qed.

Lemma prime_835945042244614951780389953367877943453916927241 : Z.prime 835945042244614951780389953367877943453916927241.
Proof.
  apply (pock_sound _ [(774023187263532362759620327192479577272145303, 2)]).
  - vm_compute. reflexivity.
  - cbn [map fst]. intros q [<-|[]]; [exact prime_774023187263532362759620327192479577272145303].
Qed.

Lemma P256_prime : Z.prime (elliptic.P elliptic.P256).
Proof.
  apply (pock_sound _ [(835945042244614951780389953367877943453916927241, 2)]).
  - vm_compute. reflexivity.
  - cbn [map fst]. intros q [<-|[]]; [exact prime_835945042244614951780389953367877943453916927241].
Qed.

(** ** The curve polynomial has no root modulo P *)

Lemma pmul_eval (b p x : Z) (u v : Z * Z * Z) :
  p <> 0 ->
  (x * x * x - 3 * x + b) mod p = 0 ->
  peval (pmul b p u v) x mod p = (peval u x * peval v x) mod p.
Proof.
  intros Hp Hroot. apply Z.mod_divide in Hroot; [|exact Hp].
  destruct Hroot as (k & Hk).
  destruct u as [[u0 u1] u2], v as [[v0 v1] v2].
  unfold pmul, peval. apply cong_divide; [exact Hp|].
  rewrite !Z.mod_eq by exact Hp.
  set (q0 := (u0 * v0 - b * (u1 * v2 + u2 * v1)) / p).
  set (q1 := (u0 * v1 + u1 * v0 + 3 * (u1 * v2 + u2 * v1) - b * (u2 * v2)) / p).
  set (q2 := (u0 * v2 + u1 * v1 + u2 * v0 + 3 * (u2 * v2)) / p).
  exists (- q0 - q1 * x - q2 * (x * x) - (u1 * v2 + u2 * v1 + u2 * v2 * x) * k).
  transitivity ((- q0 - q1 * x - q2 * (x * x)) * p
                - (u1 * v2 + u2 * v1 + u2 * v2 * x) * (x * x * x - 3 * x + b));
    [ring|].
  rewrite Hk. ring.
Qed.

Lemma ppow_eval (b p x : Z) (u : Z * Z * Z) (e : positive) :
  p <> 0 ->
  (x * x * x - 3 * x + b) mod p = 0 ->
  peval (ppow b p u e) x mod p = peval u x ^ Zpos e mod p.
Proof.
  intros Hp Hroot. induction e as [e IH|e IH|]; cbn [ppow].
  - rewrite pmul_eval, Z.mul_mod, pmul_eval by assumption.
    rewrite (Z.mul_mod (peval (ppow b p u e) x)), IH by assumption.
    rewrite <- (Z.mul_mod (peval u x ^ Z.pos e)), <- Z.mul_mod by assumption.
    rewrite Pos2Z.inj_xI.
    replace (2 * Z.pos e + 1) with (Z.pos e + Z.pos e + 1) by ring.
    rewrite !Z.pow_add_r, Z.pow_1_r by lia. reflexivity.
  - rewrite pmul_eval by assumption.
    rewrite Pos2Z.inj_xO.
    replace (2 * Z.pos e) with (Z.pos e + Z.pos e) by ring.
    rewrite Z.pow_add_r by lia.
    rewrite Z.mul_mod, IH, <- Z.mul_mod by assumption. reflexivity.
  - now rewrite Z.pow_1_r.
Qed.

Lemma X_pow_P_eq :
  ppow (elliptic.B elliptic.P256) (elliptic.P elliptic.P256) (0, 1, 0)
       (Z.to_pos (elliptic.P elliptic.P256)) = X_pow_P.
Proof. vm_compute. reflexivity. Qed.

Lemma P256_P_nonzero : elliptic.P elliptic.P256 <> 0.
Proof. vm_compute. discriminate. Qed.

(** There is no x with x^3 - 3x + B = 0 (mod P): by Fermat such an x
    would also be a root of X^P - X, which is coprime to the curve
    polynomial. *)
Lemma curve_polynomial_no_root (x : Z) :
  (x * x * x - 3 * x + elliptic.B elliptic.P256) mod elliptic.P elliptic.P256 <> 0.
Proof.
  intros Hroot.
  pose proof P256_prime as Hprime.
  pose proof (ppow_eval _ _ x (0, 1, 0) (Z.to_pos (elliptic.P elliptic.P256))
                P256_P_nonzero Hroot) as Hpow.
  rewrite X_pow_P_eq in Hpow.
  change (Z.pos (Z.to_pos (elliptic.P elliptic.P256)))
    with (elliptic.P elliptic.P256) in Hpow.
  replace (peval (0, 1, 0) x) with x in Hpow by (unfold peval; ring).
  rewrite (fermat_little_all _ Hprime) in Hpow.
  apply cong_divide in Hpow; [|exact P256_P_nonzero].
  apply Z.mod_divide in Hroot; [|exact P256_P_nonzero].
  destruct Hpow as (k1 & Hk1). destruct Hroot as (k2 & Hk2).
  unfold X_pow_P, peval in Hk1.
  set (p := elliptic.P elliptic.P256) in *.
  set (b := elliptic.B elliptic.P256) in *.
  set (U := 76626890310466861426869089647039036757962535851890885406097439786770458211455
            + 74462945259064871768191128030512052509059297803194871526163573358218695456204 * x
            + 34768139465301476436978405170953382516735956999154666452188405812258086013549 * (x * x)).
  set (V := 107286402702237026811154678719514266289498743974321057492273529440068429825344
            + 6389611969556882025875921584714237703390037729321797349080302270353162149340 * x).
  set (K := 82006162939704079939581181709976996092266308199183309578158969013154857761758
            + 53195254508055917545569285545031260419374692918778229085754047757622876704507 * x
            + 44254907305889426083372809061327589531002087792042969636720392495218289272808 * (x * x)
            + 19594268650736750401918991328041959909110035062448741686819397381038349806533 * (x * x * x)
            + 7410157929066101016865484023617449031630549387091645260359016622210978818695 * (x * x * x * x)).
  assert (Hone : (p | 1)).
  { exists (U * k1 + V * k2 - K).
    replace ((U * k1 + V * k2 - K) * p)
      with (U * (k1 * p) + V * (k2 * p) - K * p) by ring.
    rewrite <- Hk1, <- Hk2.
    subst U V K p b. cbn [elliptic.P elliptic.B elliptic.P256]. ring. }
  apply Z.divide_1_r_nonneg in Hone; [discriminate Hone|subst p; vm_compute; discriminate].
Qed.

(** ** Decompression: the parity of Y *)

Lemma polynomial_eq (B P x : Z) :
  0 < P -> polynomial B P x = (x * x * x - 3 * x + B) mod P.
Proof.
  intros HP. unfold polynomial, big.Mod, big.Lsh.
  rewrite Z.shiftl_mul_pow2, Z.abs_eq by lia. f_equal. ring.
Qed.

Lemma IsOnCurve_eq (x y : Z) :
  elliptic.IsOnCurve elliptic.P256 x y =
  (polynomial (elliptic.B elliptic.P256) (elliptic.P elliptic.P256) x
   =? (y * y) mod elliptic.P elliptic.P256).
Proof. reflexivity. Qed.

Lemma P256_P_pos : 0 < elliptic.P elliptic.P256.
Proof. reflexivity. Qed.

Lemma P256_P_odd : Z.odd (elliptic.P elliptic.P256) = true.
Proof. reflexivity. Qed.

(** No point of the curve has Y = 0. *)
Lemma IsOnCurve_Y_nonzero (x : Z) :
  elliptic.IsOnCurve elliptic.P256 x 0 = false.
Proof.
  rewrite IsOnCurve_eq, polynomial_eq by exact P256_P_pos.
  apply Z.eqb_neq. cbn [Z.mul]. rewrite Z.mod_0_l by exact P256_P_nonzero.
  apply curve_polynomial_no_root.
Qed.

Lemma ModSqrt_range (v p y : Z) :
  0 < p -> big.ModSqrt v p = Some (Some y) -> 0 <= y < p.
Proof.
  intros Hp. unfold big.ModSqrt.
  destruct (big.Jacobi v p) as [j|]; [|discriminate].
  destruct (j =? -1); [discriminate|].
  destruct (j =? 0).
  { intros H. injection H as <-. lia. }
  destruct (Z.land (Z.abs p) 3 =? 3); [|discriminate].
  intros H. injection H as <-.
  unfold big.modSqrt3Mod4Prime, big.Rsh.
  rewrite Exp_spec; [apply Z.mod_pos_bound; lia| |lia].
  apply Z.shiftr_nonneg. lia.
Qed.

Lemma Bit0_odd (y : Z) : big.Bit y 0 = Z.b2z (Z.odd y).
Proof. unfold big.Bit. now rewrite Z.bit0_odd. Qed.

(** Negating a non-zero residue modulo the odd P flips its parity. *)
Lemma neg_mod_parity (y : Z) :
  0 < y < elliptic.P elliptic.P256 ->
  big.Bit (big.Mod (- y) (elliptic.P elliptic.P256)) 0 = 1 - big.Bit y 0.
Proof.
  intros Hy. set (p := elliptic.P elliptic.P256) in *.
  unfold big.Mod. rewrite Z.abs_eq by lia.
  replace (- y) with (p - y + (-1) * p) by ring.
  rewrite Z.mod_add, Z.mod_small by lia.
  rewrite !Bit0_odd, Z.odd_sub. subst p. rewrite P256_P_odd.
  destruct (Z.odd y); reflexivity.
Qed.

Lemma index_0_hd {E : Type} (data : list byte) (b : byte) :
  @index E data 0 = Ok b -> hd Byte.x00 data = b.
Proof.
  unfold index. destruct data as [|d data]; [discriminate|].
  rewrite len_cons. pose proof (len_nonneg data).
  destruct (Z.ltb_spec 0 (1 + len data)); [|lia].
  cbn. congruence.
Qed.

(** C5: when [parsePubKeyCompressed] returns a point, its input has 33
    bytes and the low bit of the returned Y is the low bit of the tag
    byte: Y is even for tag 0x02 and odd for tag 0x03. *)
Theorem parsePubKeyCompressed_parity (data : list byte) (Q : ecdsa.PublicKey) :
  parsePubKeyCompressed data = Ok Q ->
  len data = 33 /\
  big.Bit (ecdsa.Y Q) 0 = Z.land (byte.unsigned (hd Byte.x00 data)) 1 /\
  (hd Byte.x00 data = Byte.x02 -> Z.even (ecdsa.Y Q) = true) /\
  (hd Byte.x00 data = Byte.x03 -> Z.odd (ecdsa.Y Q) = true).
Proof.
  intros Hparse.
  assert (Hmain : len data = 33 /\
            big.Bit (ecdsa.Y Q) 0 = Z.land (byte.unsigned (hd Byte.x00 data)) 1).
  { unfold parsePubKeyCompressed in Hparse.
    change (1 + (elliptic.BitSize elliptic.P256 + 7) / 8) with 33 in Hparse.
    destruct (Z.eqb_spec (len data) 33) as [Hlen|]; [|discriminate].
    split; [exact Hlen|]. cbn [negb] in Hparse.
    destruct (index data 0) as [data0| |] eqn:Hidx; try discriminate.
    apply index_0_hd in Hidx. rewrite Hidx. cbn [bind] in Hparse.
    destruct (negb (byte.unsigned data0 =? 2) && negb (byte.unsigned data0 =? 3));
      [discriminate|].
    destruct (slice_from data 1) as [xs| |]; try discriminate.
    cbn [bind] in Hparse.
    destruct (big.Cmp (big.SetBytes xs) (elliptic.P elliptic.P256) >=? 0);
      [discriminate|].
    destruct (big.ModSqrt _ _) as [[y0|]|] eqn:Hsqrt; try discriminate.
    apply ModSqrt_range in Hsqrt; [|exact P256_P_pos].
    assert (Htag : 0 <= Z.land (byte.unsigned data0) 1 <= 1).
    { pose proof (Z.land_ones (byte.unsigned data0) 1 ltac:(lia)) as Hl.
      change (Z.ones 1) with 1 in Hl. change (2 ^ 1) with 2 in Hl. rewrite Hl.
      pose proof (Z.mod_pos_bound (byte.unsigned data0) 2). lia. }
    assert (Hbit : 0 <= big.Bit y0 0 <= 1)
      by (rewrite Bit0_odd; destruct (Z.odd y0); cbn; lia).
    destruct (Z.eqb_spec (big.Bit y0 0) (Z.land (byte.unsigned data0) 1))
      as [Heq|Hne]; cbn [negb] in Hparse.
    - destruct (elliptic.IsOnCurve _ _ _); [|discriminate].
      cbn [negb] in Hparse. injection Hparse as <-. exact Heq.
    - destruct (Z.eq_dec y0 0) as [->|Hnz].
      + change (big.Mod (- 0) (elliptic.P elliptic.P256)) with 0 in Hparse.
        rewrite IsOnCurve_Y_nonzero in Hparse. discriminate.
      + destruct (elliptic.IsOnCurve _ _ _); [|discriminate].
        cbn [negb] in Hparse. injection Hparse as <-. cbn [ecdsa.Y].
        rewrite neg_mod_parity by lia. lia. }
  destruct Hmain as [Hlen Hbit]. split; [exact Hlen|]. split; [exact Hbit|].
  rewrite Bit0_odd in Hbit. split; intros Htag; rewrite Htag in Hbit.
  - rewrite <- Z.negb_odd. destruct (Z.odd (ecdsa.Y Q)); [discriminate|reflexivity].
  - destruct (Z.odd (ecdsa.Y Q)); [reflexivity|discriminate].
Qed.

Lemma parsePubKeyCompressed_parity_witness :
  Z.odd 0x62ed618899258a6863b9f92d382469b3b6ab7da4bd35629d6c580c07fa92936d = true.
Proof.
  refine (proj2 (proj2 (proj2 (parsePubKeyCompressed_parity compressed_odd
    {| ecdsa.X := 5 * 2 ^ 248;
       ecdsa.Y := 0x62ed618899258a6863b9f92d382469b3b6ab7da4bd35629d6c580c07fa92936d |}
    _))) _).
  - vm_compute. reflexivity.
  - reflexivity.
Defined.

(** ** The loop of Jacobi returns *)

Lemma trailingZeroBits_pos_nonneg (p : positive) : 0 <= big.trailingZeroBits_pos p.
Proof. induction p; cbn [big.trailingZeroBits_pos]; lia. Qed.

Lemma shiftr_trailingZeroBits_pos (p : positive) :
  0 < Z.shiftr (Zpos p) (big.trailingZeroBits_pos p).
Proof.
  induction p as [p _|p IH|]; cbn [big.trailingZeroBits_pos]; try reflexivity.
  rewrite <- Z.shiftr_shiftr by apply trailingZeroBits_pos_nonneg.
  exact IH.
Qed.

Lemma shiftr_trailingZeroBits (a : Z) :
  0 < a ->
  0 < Z.shiftr a (big.trailingZeroBits a) <= a.
Proof.
  intros Ha. destruct a as [|p|p]; try lia. cbn [big.trailingZeroBits].
  split; [apply shiftr_trailingZeroBits_pos|].
  pose proof (trailingZeroBits_pos_nonneg p) as Hs.
  rewrite Z.shiftr_div_pow2 by exact Hs.
  apply Z.div_le_upper_bound; [apply Z.pow_pos_nonneg; lia|].
  assert (1 <= 2 ^ big.trailingZeroBits_pos p); [|nia].
  apply (Z.pow_le_mono_r 2 0); lia.
Qed.

(** Once the numerator is at least the denominator, their product halves
    in every round. *)
Lemma Jacobi_loop_enough (rounds : nat) (a b j : Z) :
  0 < b -> b <= a -> a * b < 2 ^ Z.of_nat rounds ->
  exists r : Z, big.Jacobi_loop (S rounds) a b j = Some r.
Proof.
  revert a b j. induction rounds as [|rounds IH]; intros a b j Hb Hab Hprod.
  { change (2 ^ Z.of_nat 0) with 1 in Hprod. nia. }
  cbn [big.Jacobi_loop].
  destruct (b =? 1); [eauto|]. destruct (a =? 0); [eauto|].
  unfold big.Mod. rewrite Z.abs_eq by lia.
  pose proof (Z.mod_pos_bound a b Hb) as Hmod.
  destruct (Z.eqb_spec (a mod b) 0) as [|Hnz]; [eauto|].
  pose proof (shiftr_trailingZeroBits (a mod b) ltac:(lia)) as Hc.
  unfold big.Rsh. apply IH; [lia|lia|].
  rewrite Nat2Z.inj_succ, Z.pow_succ_r in Hprod by lia.
  pose proof (Z.div_mod a b ltac:(lia)) as Hdm.
  assert (1 <= a / b) by (apply Z.div_le_lower_bound; lia).
  nia.
Qed.

Lemma Jacobi_total (x y : Z) :
  Z.odd y = true -> exists j : Z, big.Jacobi x y = Some j.
Proof.
  intros Hodd. unfold big.Jacobi.
  assert (Hy : y <> 0) by (intros ->; discriminate).
  assert (Hland : Z.land (Z.abs y) 1 = 1).
  { change 1 with (Z.ones 1) at 1. rewrite Z.land_ones by lia.
    change (2 ^ 1) with 2.
    assert (Habs : Z.odd (Z.abs y) = Z.odd y) by (destruct y; reflexivity).
    rewrite Zmod_odd, Habs, Hodd. reflexivity. }
  destruct (Z.eqb_spec y 0); [contradiction|]. rewrite Hland. cbn [orb Z.eqb].
  set (j := if (y <? 0) && (x <? 0) then -1 else 1). clearbody j.
  pose proof (BitLen_bound y) as Hbl. pose proof (BitLen_nonneg y) as Hbl0.
  set (b := Z.abs y) in *. assert (Hb : 0 < b) by (subst b; lia).
  replace (Z.to_nat (2 * big.BitLen y + 2))
    with (S (S (Z.to_nat (2 * big.BitLen y)))) by lia.
  cbn [big.Jacobi_loop].
  destruct (b =? 1); [eauto|]. destruct (x =? 0); [eauto|].
  unfold big.Mod. rewrite Z.abs_eq by lia.
  pose proof (Z.mod_pos_bound x b Hb) as Hmod.
  destruct (Z.eqb_spec (x mod b) 0) as [|Hnz]; [eauto|].
  pose proof (shiftr_trailingZeroBits (x mod b) ltac:(lia)) as Hc.
  unfold big.Rsh. apply Jacobi_loop_enough; [lia|lia|].
  rewrite Z2Nat.id by lia.
  replace (2 * big.BitLen y) with (big.BitLen y + big.BitLen y) by ring.
  rewrite Z.pow_add_r by lia. nia.
Qed.

(** [ModSqrt] modulo the prime of P-256 always gives a result (a root or
    nil). *)
Lemma ModSqrt_P256_total (v : Z) :
  exists r : option Z, big.ModSqrt v (elliptic.P elliptic.P256) = Some r.
Proof.
  unfold big.ModSqrt.
  destruct (Jacobi_total v (elliptic.P elliptic.P256) P256_P_odd) as (j & ->).
  destruct (j =? -1); [eauto|]. destruct (j =? 0); [eauto|].
  change (Z.land (Z.abs (elliptic.P elliptic.P256)) 3 =? 3) with true.
  cbv iota. eauto.
Qed.

(** [parsePubKeyCompressed] returns a point or an error on every input. *)
Lemma parsePubKeyCompressed_no_panic (data : list byte) :
  parsePubKeyCompressed data <> Panic.
Proof.
  unfold parsePubKeyCompressed.
  change (1 + (elliptic.BitSize elliptic.P256 + 7) / 8) with 33.
  destruct (Z.eqb_spec (len data) 33) as [Hlen|]; [|discriminate].
  cbn [negb]. unfold index, slice_from, slice. rewrite Hlen.
  cbn [Z.leb Z.ltb Z.compare Pos.compare Pos.compare_cont andb bind].
  destruct (negb _ && negb _); [discriminate|].
  destruct (big.Cmp _ _ >=? 0); [discriminate|].
  destruct (ModSqrt_P256_total
              (polynomial (elliptic.B elliptic.P256) (elliptic.P elliptic.P256)
                 (big.SetBytes
                    (firstn (Z.to_nat (33 - 1)) (skipn (Z.to_nat 1) data)))))
    as (r & ->).
  destruct r as [y|]; [|discriminate].
  destruct (negb (elliptic.IsOnCurve _ _ _)); discriminate.
Qed.

(** * Further properties of the code *)

(** ** ToLowS *)





(** ** Padding *)

Lemma paddedAppend_len (size : Z) (dst src : list byte) :
  len (paddedAppend size dst src) = len dst + Z.max size (len src).
Proof.
  rewrite paddedAppend_eq, !len_app. unfold len at 2.
  rewrite repeat_length. lia.
Qed.



(** ** Private keys of any size *)

(** X4: for every private key, in range or not, the bytes of
    [SerializePrivateKey] read back as the absolute value of D; there are
    32 of them when |D| < 2^256 and more otherwise: an oversized scalar is
    not cut to 32 bytes, and the sign of D is not kept. *)
Theorem SerializePrivateKey_any (p : ecdsa.PrivateKey) :
  big.SetBytes (SerializePrivateKey p) = Z.abs (ecdsa.D p) /\
  len (SerializePrivateKey p) = Z.max 32 (len (big.Bytes (ecdsa.D p))) /\
  (len (SerializePrivateKey p) = 32 <-> Z.abs (ecdsa.D p) < 2 ^ 256).
Proof.
  unfold SerializePrivateKey, privateKeyECDSALength.
  pose proof (paddedAppend_eq 32 [] (big.Bytes (ecdsa.D p))) as Heq.
  pose proof (paddedAppend_len 32 [] (big.Bytes (ecdsa.D p))) as Hlen.
  set (B := big.Bytes (ecdsa.D p)) in *.
  assert (Hval : big.SetBytes (paddedAppend 32 [] B) = Z.abs (ecdsa.D p)).
  { rewrite Heq. cbn [app]. rewrite SetBytes_app, SetBytes_zeros.
    subst B. rewrite SetBytes_Bytes. lia. }
  split; [exact Hval|]. change (len []) with 0 in Hlen.
  split; [rewrite Hlen; lia|]. rewrite Hlen. split.
  - intros H32. pose proof (SetBytes_range B) as Hr. subst B.
    rewrite SetBytes_Bytes in Hr.
    assert (256 ^ len (big.Bytes (ecdsa.D p)) <= 256 ^ 32)
      by (apply Z.pow_le_mono_r; lia).
    change (2 ^ 256) with (256 ^ 32). lia.
  - intros Hsmall.
    assert (len B <= 32)
      by (subst B; apply length_Bytes_le; [lia|exact Hsmall]).
    lia.
Qed.

(** ** Uncompressed public keys *)

Lemma SetBytes_inj (l1 l2 : list byte) :
  length l1 = length l2 -> big.SetBytes l1 = big.SetBytes l2 -> l1 = l2.
Proof.
  revert l2. induction l1 as [|b1 l1 IH]; intros [|b2 l2] Hlen Hval;
    try discriminate; [reflexivity|].
  injection Hlen as Hlen. rewrite !SetBytes_cons in Hval.
  pose proof (SetBytes_range l1) as H1. pose proof (SetBytes_range l2) as H2.
  pose proof (byte_range b1) as Hb1. pose proof (byte_range b2) as Hb2.
  assert (Hl : len l1 = len l2) by (unfold len; congruence).
  rewrite Hl in *.
  assert (Hpow : 0 < 256 ^ len l2)
    by (apply Z.pow_pos_nonneg; [lia|apply len_nonneg]).
  assert (Hb : byte.unsigned b1 = byte.unsigned b2) by nia.
  f_equal.
  - now apply byte.unsigned_inj.
  - apply IH; [exact Hlen|]. rewrite Hb in Hval. lia.
Qed.

(** Padding the bytes of the value of a field gives the field back. *)
Lemma paddedAppend_SetBytes (l : list byte) :
  paddedAppend (len l) [] (big.Bytes (big.SetBytes l)) = l.
Proof.
  pose proof (SetBytes_range l) as Hr. pose proof (len_nonneg l) as Hl.
  assert (Hle : len (big.Bytes (big.SetBytes l)) <= len l)
    by (apply length_Bytes_le; [lia|]; rewrite Z.abs_eq; lia).
  pose proof (paddedAppend_eq (len l) [] (big.Bytes (big.SetBytes l))) as Heq.
  pose proof (paddedAppend_len (len l) [] (big.Bytes (big.SetBytes l))) as Hlen.
  apply SetBytes_inj.
  - change (len []) with 0 in Hlen. unfold len in *. lia.
  - rewrite Heq. cbn [app].
    rewrite SetBytes_app, SetBytes_zeros, SetBytes_Bytes, Z.abs_eq; lia.
Qed.

Lemma split_fields (t : byte) (xs ys : list byte) :
  length xs = 32%nat ->
  firstn 32 (skipn 1 (t :: xs ++ ys)) = xs /\
  skipn 33 (t :: xs ++ ys) = ys.
Proof.
  intros Hn.
  change (skipn 1 (t :: xs ++ ys)) with (xs ++ ys).
  change (skipn 33 (t :: xs ++ ys)) with (skipn 32 (xs ++ ys)).
  rewrite <- Hn. split.
  - rewrite firstn_app, firstn_all, Nat.sub_diag. cbn [firstn]. apply app_nil_r.
  - rewrite skipn_app, skipn_all, Nat.sub_diag. reflexivity.
Qed.

Lemma SerializePublicKey_fields (Q : ecdsa.PublicKey) :
  0 <= ecdsa.X Q < 2 ^ 256 -> 0 <= ecdsa.Y Q < 2 ^ 256 ->
  exists xs ys : list byte,
    SerializePublicKey Q = [Byte.x04] ++ xs ++ ys /\
    len xs = 32 /\ len ys = 32 /\
    big.SetBytes xs = ecdsa.X Q /\ big.SetBytes ys = ecdsa.Y Q.
Proof.
  intros HX HY. change (2 ^ 256) with (256 ^ 32) in *.
  unfold SerializePublicKey.
  destruct (paddedAppend_32 (ecdsa.X Q) ([] ++ [Byte.x04]))
    as (xs & Hxs & Hlx & _ & Hvx); [lia|].
  rewrite Hxs.
  destruct (paddedAppend_32 (ecdsa.Y Q) (([] ++ [Byte.x04]) ++ xs))
    as (ys & Hys & Hly & _ & Hvy); [lia|].
  rewrite Hys. exists xs, ys.
  split; [now rewrite <- !app_assoc|]. repeat split; auto.
Qed.

(** X5: for coordinates below 2^256 (valid or not), [SerializePublicKey]
    returns 65 bytes: 0x04, then 32 bytes that read as X, then 32 bytes
    that read as Y; so two such keys with the same bytes are equal. *)
Theorem SerializePublicKey_layout (Q Q' : ecdsa.PublicKey) :
  0 <= ecdsa.X Q < 2 ^ 256 -> 0 <= ecdsa.Y Q < 2 ^ 256 ->
  len (SerializePublicKey Q) = 65 /\
  hd Byte.x00 (SerializePublicKey Q) = Byte.x04 /\
  big.SetBytes (firstn 32 (skipn 1 (SerializePublicKey Q))) = ecdsa.X Q /\
  big.SetBytes (skipn 33 (SerializePublicKey Q)) = ecdsa.Y Q /\
  (0 <= ecdsa.X Q' < 2 ^ 256 -> 0 <= ecdsa.Y Q' < 2 ^ 256 ->
   SerializePublicKey Q = SerializePublicKey Q' -> Q = Q').
Proof.
  intros HX HY.
  assert (Hread : forall K : ecdsa.PublicKey,
    0 <= ecdsa.X K < 2 ^ 256 -> 0 <= ecdsa.Y K < 2 ^ 256 ->
    len (SerializePublicKey K) = 65 /\
    hd Byte.x00 (SerializePublicKey K) = Byte.x04 /\
    big.SetBytes (firstn 32 (skipn 1 (SerializePublicKey K))) = ecdsa.X K /\
    big.SetBytes (skipn 33 (SerializePublicKey K)) = ecdsa.Y K).
  { intros K HKX HKY.
    destruct (SerializePublicKey_fields K HKX HKY)
      as (xs & ys & -> & Hlx & Hly & Hvx & Hvy).
    assert (Hnx : length xs = 32%nat) by (unfold len in Hlx; lia).
    split; [rewrite !len_app; change (len [Byte.x04]) with 1; lia|].
    split; [reflexivity|].
    destruct (split_fields Byte.x04 xs ys Hnx) as [Hf Hs].
    cbn [app]. rewrite Hf, Hs. split; assumption. }
  destruct (Hread Q HX HY) as (H1 & H2 & H3 & H4).
  repeat (split; [assumption|]).
  intros HX' HY' Heq. destruct (Hread Q' HX' HY') as (_ & _ & H3' & H4').
  rewrite <- Heq in H3', H4'.
  destruct Q as [x y], Q' as [x' y']. cbn [ecdsa.X ecdsa.Y] in *. congruence.
Qed.

Lemma SerializePublicKey_layout_witness :
  len (SerializePublicKey Q5) = 65.
Proof.
  apply (SerializePublicKey_layout Q5 Q5); vm_compute; split; congruence.
Defined.

(** X6: the uncompressed round trip holds for every valid point. *)
Theorem uncompressed_round_trip (Q : ecdsa.PublicKey) :
  valid_point Q -> parsePubKey (SerializePublicKey Q) = Ok Q.
Proof. apply parsePubKey_SerializePublicKey. Qed.

Lemma uncompressed_round_trip_witness :
  parsePubKey (SerializePublicKey Q5) = Ok Q5.
Proof. apply (uncompressed_round_trip Q5). exact Q5_valid. Defined.

(** What [parsePubKey] reads on an input of 33 bytes or more. *)
Lemma parsePubKey_long (s : list byte) :
  33 <= len s ->
  parsePubKey s =
  let X := big.SetBytes (firstn 32 (skipn 1 s)) in
  let Y := big.SetBytes (skipn 33 s) in
  if elliptic.P elliptic.P256 <=? X then Err ErrXGeP
  else if elliptic.P elliptic.P256 <=? Y then Err ErrYGeP
  else if negb (elliptic.IsOnCurve elliptic.P256 X Y) then Err ErrNotOnCurve
  else Ok {| ecdsa.X := X; ecdsa.Y := Y |}.
Proof.
  intros Hlen. unfold parsePubKey, slice_from, slice.
  destruct (Z.eqb_spec (len s) 0); [lia|].
  replace ((0 <=? 1) && (1 <=? 33) && (33 <=? len s)) with true
    by (symmetry; rewrite !andb_true_iff, !Z.leb_le; lia).
  replace ((0 <=? 33) && (33 <=? len s) && (len s <=? len s)) with true
    by (symmetry; rewrite !andb_true_iff, !Z.leb_le; lia).
  cbn [bind]. rewrite !Cmp_ge_0.
  change (Z.to_nat (33 - 1)) with 32%nat. change (Z.to_nat 1) with 1%nat.
  replace (firstn (Z.to_nat (len s - 33)) (skipn (Z.to_nat 33) s))
    with (skipn 33 s); [reflexivity|].
  change (Z.to_nat 33) with 33%nat.
  rewrite firstn_all2; [reflexivity|]. rewrite length_skipn. unfold len. lia.
Qed.

Lemma parsePubKey_Ok_long (s : list byte) (Q : ecdsa.PublicKey) :
  parsePubKey s = Ok Q -> 33 <= len s.
Proof.
  intros Hparse. pose proof (parsePubKey_panics_iff s) as Hp.
  pose proof (len_nonneg s) as Hn.
  destruct (Z.eq_dec (len s) 0) as [H0|H0].
  { unfold parsePubKey in Hparse. rewrite H0 in Hparse. discriminate. }
  destruct (Z.le_gt_cases 33 (len s)) as [|Hshort]; [assumption|].
  assert (Hpanic : parsePubKey s = Panic) by (apply Hp; lia).
  congruence.
Qed.

Lemma IsOnCurve_Y_pos (Q : ecdsa.PublicKey) : valid_point Q -> 0 < ecdsa.Y Q.
Proof.
  intros (_ & HY & Hon).
  destruct (Z.eq_dec (ecdsa.Y Q) 0) as [H0|]; [|lia].
  rewrite H0, IsOnCurve_Y_nonzero in Hon. discriminate.
Qed.

(** Everything a successful call of [parsePubKey] tells. *)
Lemma parsePubKey_inv (s : list byte) (Q : ecdsa.PublicKey) :
  parsePubKey s = Ok Q ->
  valid_point Q /\ 0 < ecdsa.Y Q /\ 33 <= len s /\
  ecdsa.X Q = big.SetBytes (firstn 32 (skipn 1 s)) /\
  ecdsa.Y Q = big.SetBytes (skipn 33 s).
Proof.
  intros Hparse. pose proof (parsePubKey_Ok_long s Q Hparse) as Hlen.
  rewrite (parsePubKey_long s Hlen) in Hparse. cbv zeta in Hparse.
  pose proof (SetBytes_range (firstn 32 (skipn 1 s))) as HX.
  pose proof (SetBytes_range (skipn 33 s)) as HY.
  destruct (Z.leb_spec (elliptic.P elliptic.P256)
              (big.SetBytes (firstn 32 (skipn 1 s)))); [discriminate|].
  destruct (Z.leb_spec (elliptic.P elliptic.P256)
              (big.SetBytes (skipn 33 s))); [discriminate|].
  destruct (elliptic.IsOnCurve _ _ _) eqn:Hon; [|discriminate].
  cbn [negb] in Hparse. injection Hparse as <-.
  assert (Hv : valid_point
                 {| ecdsa.X := big.SetBytes (firstn 32 (skipn 1 s));
                    ecdsa.Y := big.SetBytes (skipn 33 s) |}).
  { unfold valid_point. cbn [ecdsa.X ecdsa.Y]. repeat split; try lia. exact Hon. }
  split; [exact Hv|]. split; [exact (IsOnCurve_Y_pos _ Hv)|].
  repeat split; assumption.
Qed.

(** X7: a key returned by [parsePubKey] is a valid curve point, with X and
    Y read from bytes 1..32 and from byte 33 on; its Y is not zero, and the
    input had at least 33 bytes. *)
Theorem parsePubKey_sound (s : list byte) (Q : ecdsa.PublicKey) :
  parsePubKey s = Ok Q ->
  valid_point Q /\ 0 < ecdsa.Y Q /\ 33 <= len s /\
  ecdsa.X Q = big.SetBytes (firstn 32 (skipn 1 s)) /\
  ecdsa.Y Q = big.SetBytes (skipn 33 s).
Proof. apply parsePubKey_inv. Qed.

Lemma parsePubKey_sound_witness : valid_point Q5.
Proof.
  apply (parsePubKey_sound (SerializePublicKey Q5) Q5).
  apply parsePubKey_SerializePublicKey, Q5_valid.
Defined.

(** X8: [parsePubKey] never looks at the first byte: two inputs that
    differ only there get the same result, so the tag 0x04 is not
    checked. *)
Theorem parsePubKey_ignores_tag (b b' : byte) (rest : list byte) :
  parsePubKey (b :: rest) = parsePubKey (b' :: rest).
Proof.
  pose proof (len_nonneg rest) as Hn.
  destruct (Z.le_gt_cases 33 (len (b :: rest))) as [Hlong|Hshort].
  - rewrite !parsePubKey_long by (rewrite len_cons in *; lia). reflexivity.
  - assert (H1 : parsePubKey (b :: rest) = Panic)
      by (apply parsePubKey_panics_iff; rewrite len_cons in *; lia).
    assert (H2 : parsePubKey (b' :: rest) = Panic)
      by (apply parsePubKey_panics_iff; rewrite len_cons in *; lia).
    congruence.
Qed.

(** X9: [parsePubKey] does not require 65 bytes.  For a valid point, any
    first byte, the 32-byte field of X, any number of zero bytes and then
    the bytes of Y without padding are parsed to the point: inputs shorter
    and longer than 65 bytes are accepted. *)
Theorem parsePubKey_length_not_checked (Q : ecdsa.PublicKey) (t : byte) (k : nat) :
  valid_point Q ->
  parsePubKey (t :: paddedAppend 32 [] (big.Bytes (ecdsa.X Q))
                 ++ repeat Byte.x00 k ++ big.Bytes (ecdsa.Y Q)) = Ok Q.
Proof.
  intros (HX & HY & Hon). pose proof prime_below_2_256 as HP.
  destruct (paddedAppend_32 (ecdsa.X Q) []) as (xs & Hxs & Hlx & _ & Hvx); [lia|].
  rewrite Hxs. cbn [app].
  assert (Hnx : length xs = 32%nat) by (unfold len in Hlx; lia).
  set (ys := repeat Byte.x00 k ++ big.Bytes (ecdsa.Y Q)).
  assert (Hvy : big.SetBytes ys = ecdsa.Y Q).
  { subst ys. rewrite SetBytes_app, SetBytes_zeros, SetBytes_Bytes. lia. }
  rewrite parsePubKey_long
    by (rewrite len_cons, len_app, Hlx; pose proof (len_nonneg ys); lia).
  destruct (split_fields t xs ys Hnx) as [Hf Hs]. rewrite Hf, Hs, Hvx, Hvy.
  cbv zeta.
  destruct (Z.leb_spec (elliptic.P elliptic.P256) (ecdsa.X Q)); [lia|].
  destruct (Z.leb_spec (elliptic.P elliptic.P256) (ecdsa.Y Q)); [lia|].
  rewrite Hon. destruct Q; reflexivity.
Qed.

Lemma parsePubKey_length_not_checked_witness :
  parsePubKey (Byte.xff :: paddedAppend 32 [] (big.Bytes (ecdsa.X Q5))
                 ++ repeat Byte.x00 7 ++ big.Bytes (ecdsa.Y Q5)) = Ok Q5.
Proof. apply (parsePubKey_length_not_checked Q5 Byte.xff 7). exact Q5_valid. Defined.

(** X10: parsing then serializing.  When a 65-byte input is parsed to a
    key, [SerializePublicKey] of the key is the input with its first byte
    set to 0x04. *)
Theorem SerializePublicKey_parsePubKey (s : list byte) (Q : ecdsa.PublicKey) :
  parsePubKey s = Ok Q -> len s = 65 ->
  SerializePublicKey Q = Byte.x04 :: tl s.
Proof.
  intros Hparse Hlen.
  destruct (parsePubKey_inv s Q Hparse) as (_ & _ & _ & HX & HY).
  destruct s as [|t rest]; [discriminate Hlen|]. cbn [tl].
  rewrite len_cons in Hlen.
  change (skipn 1 (t :: rest)) with rest in HX.
  change (skipn 33 (t :: rest)) with (skipn 32 rest) in HY.
  unfold SerializePublicKey. cbn [app].
  assert (Hl1 : len (firstn 32 rest) = 32)
    by (unfold len in *; rewrite length_firstn; lia).
  assert (Hl2 : len (skipn 32 rest) = 32)
    by (unfold len in *; rewrite length_skipn; lia).
  rewrite !paddedAppend_eq.
  pose proof (paddedAppend_SetBytes (firstn 32 rest)) as H1.
  pose proof (paddedAppend_SetBytes (skipn 32 rest)) as H2.
  rewrite Hl1, paddedAppend_eq in H1.
  rewrite Hl2, paddedAppend_eq in H2.
  cbn [app] in H1, H2. rewrite HX, HY. cbn [app].
  rewrite <- app_assoc. cbn [app]. f_equal.
  rewrite <- (firstn_skipn 32 rest) at 5.
  rewrite app_assoc, H1. f_equal. exact H2.
Qed.

Lemma SerializePublicKey_parsePubKey_witness :
  SerializePublicKey Q5 = Byte.x04 :: tl (SerializePublicKey Q5).
Proof.
  apply (SerializePublicKey_parsePubKey (SerializePublicKey Q5) Q5).
  - apply parsePubKey_SerializePublicKey, Q5_valid.
  - reflexivity.
Defined.

(** ** Compressed public keys *)

(** [parsePubKeyCompressed] on 33 bytes, step by step. *)
Lemma parsePubKeyCompressed_33 (tag : byte) (xs : list byte) :
  len xs = 32 ->
  parsePubKeyCompressed (tag :: xs) =
  if negb (byte.unsigned tag =? 2) && negb (byte.unsigned tag =? 3)
  then Err ErrCompressedForm
  else
    let x := big.SetBytes xs in
    if elliptic.P elliptic.P256 <=? x then Err ErrXData
    else
      match big.ModSqrt
              (polynomial (elliptic.B elliptic.P256) (elliptic.P elliptic.P256) x)
              (elliptic.P elliptic.P256) with
      | None => Panic
      | Some None => Err ErrYData
      | Some (Some y) =>
          let y :=
            if negb (big.Bit y 0 =? Z.land (byte.unsigned tag) 1)
            then big.Mod (- y) (elliptic.P elliptic.P256)
            else y in
          if negb (elliptic.IsOnCurve elliptic.P256 x y) then Err ErrIsOnCurve
          else Ok {| ecdsa.X := x; ecdsa.Y := y |}
      end.
Proof.
  intros Hlen. unfold parsePubKeyCompressed.
  change (1 + (elliptic.BitSize elliptic.P256 + 7) / 8) with 33.
  rewrite len_cons, Hlen. cbn [Z.add Z.eqb Pos.eqb Pos.add negb].
  pose proof (@slice_from_app error byte [tag] xs) as Hs.
  cbn [app] in Hs. change (len [tag]) with 1 in Hs. rewrite Hs.
  unfold index. rewrite len_cons, Hlen.
  cbn [Z.leb Z.ltb Z.compare andb bind Z.to_nat nth Z.add Pos.add].
  rewrite Cmp_ge_0. reflexivity.
Qed.

Lemma parsePubKeyCompressed_Ok_33 (data : list byte) (Q : ecdsa.PublicKey) :
  parsePubKeyCompressed data = Ok Q ->
  exists (tag : byte) (xs : list byte), data = tag :: xs /\ len xs = 32.
Proof.
  intros Hparse.
  destruct (Z.eq_dec (len data) 33) as [Hlen|Hlen].
  - destruct data as [|tag xs]; [discriminate Hlen|].
    exists tag, xs. split; [reflexivity|]. rewrite len_cons in Hlen. lia.
  - rewrite (parsePubKeyCompressed_wrong_length data Hlen) in Hparse.
    discriminate.
Qed.

Lemma tag_parity (tag : byte) (y : Z) :
  byte.unsigned tag = 2 \/ byte.unsigned tag = 3 ->
  big.Bit y 0 = Z.land (byte.unsigned tag) 1 ->
  tag = if Z.even y then Byte.x02 else Byte.x03.
Proof.
  intros Htag Hbit. rewrite Bit0_odd, <- Z.negb_even in Hbit.
  apply byte.unsigned_inj.
  destruct Htag as [Ht|Ht]; rewrite Ht in *; destruct (Z.even y);
    try reflexivity; discriminate.
Qed.

(** The root chosen by [parsePubKeyCompressed]: the one whose low bit is
    the low bit of the tag. *)
Lemma chosen_root (x y0 t : Z) :
  0 <= y0 < elliptic.P elliptic.P256 ->
  0 <= t <= 1 ->
  elliptic.IsOnCurve elliptic.P256 x
    (if negb (big.Bit y0 0 =? t)
     then big.Mod (- y0) (elliptic.P elliptic.P256) else y0) = true ->
  0 <= (if negb (big.Bit y0 0 =? t)
        then big.Mod (- y0) (elliptic.P elliptic.P256) else y0)
    < elliptic.P elliptic.P256 /\
  big.Bit (if negb (big.Bit y0 0 =? t)
           then big.Mod (- y0) (elliptic.P elliptic.P256) else y0) 0 = t.
Proof.
  intros Hy Ht Hon. pose proof P256_P_pos as HP.
  destruct (Z.eqb_spec (big.Bit y0 0) t) as [Heq|Hne]; cbn [negb] in *.
  - split; [exact Hy|exact Heq].
  - destruct (Z.eq_dec y0 0) as [Hz|Hnz].
    + subst y0. change (big.Mod (- 0) (elliptic.P elliptic.P256)) with 0 in Hon.
      rewrite IsOnCurve_Y_nonzero in Hon. discriminate Hon.
    + split.
      * unfold big.Mod. rewrite Z.abs_eq by lia. apply Z.mod_pos_bound. lia.
      * rewrite neg_mod_parity by lia.
        assert (Hbit : 0 <= big.Bit y0 0 <= 1)
          by (rewrite Bit0_odd; destruct (Z.odd y0); cbn; lia).
        lia.
Qed.

(** Everything a successful call tells. *)
Lemma parsePubKeyCompressed_inv (data : list byte) (Q : ecdsa.PublicKey) :
  parsePubKeyCompressed data = Ok Q ->
  exists (tag : byte) (xs : list byte),
    data = tag :: xs /\ len xs = 32 /\
    (byte.unsigned tag = 2 \/ byte.unsigned tag = 3) /\
    ecdsa.X Q = big.SetBytes xs /\
    valid_point Q /\
    big.Bit (ecdsa.Y Q) 0 = Z.land (byte.unsigned tag) 1.
Proof.
  intros Hparse.
  destruct (parsePubKeyCompressed_Ok_33 data Q Hparse) as (tag & xs & -> & Hlen).
  exists tag, xs. split; [reflexivity|]. split; [exact Hlen|].
  rewrite (parsePubKeyCompressed_33 tag xs Hlen) in Hparse. cbv zeta in Hparse.
  assert (Htag : byte.unsigned tag = 2 \/ byte.unsigned tag = 3).
  { destruct (Z.eqb_spec (byte.unsigned tag) 2) as [H2|H2]; [now left|].
    destruct (Z.eqb_spec (byte.unsigned tag) 3) as [H3|H3]; [now right|].
    discriminate Hparse. }
  split; [exact Htag|].
  replace (negb (byte.unsigned tag =? 2) && negb (byte.unsigned tag =? 3))
    with false in Hparse
    by (destruct Htag as [Ht|Ht]; rewrite Ht; reflexivity).
  pose proof (SetBytes_range xs) as Hx.
  destruct (Z.leb_spec (elliptic.P elliptic.P256) (big.SetBytes xs))
    as [Hbig|Hsmall]; [discriminate Hparse|].
  destruct (big.ModSqrt _ _) as [[y0|]|] eqn:Hsqrt; try discriminate Hparse.
  apply ModSqrt_range in Hsqrt; [|exact P256_P_pos].
  assert (Ht : 0 <= Z.land (byte.unsigned tag) 1 <= 1)
    by (destruct Htag as [Ht|Ht]; rewrite Ht; cbn; lia).
  destruct (elliptic.IsOnCurve _ _ _) eqn:Hon; [|discriminate Hparse].
  destruct (chosen_root _ _ _ Hsqrt Ht Hon) as [Hrange Hbit].
  cbn [negb] in Hparse.
  assert (HQ : Q = {| ecdsa.X := big.SetBytes xs;
                      ecdsa.Y := if negb (big.Bit y0 0 =? Z.land (byte.unsigned tag) 1)
                                 then big.Mod (- y0) (elliptic.P elliptic.P256)
                                 else y0 |}) by congruence.
  rewrite HQ. unfold valid_point. cbn [ecdsa.X ecdsa.Y].
  split; [reflexivity|]. split; [|exact Hbit].
  split; [lia|]. split; [exact Hrange|exact Hon].
Qed.

(** X11: a key returned by [parsePubKeyCompressed] is a valid curve point
    with Y not zero; its X is the value of the 32 bytes after the tag. *)
Theorem parsePubKeyCompressed_sound (data : list byte) (Q : ecdsa.PublicKey) :
  parsePubKeyCompressed data = Ok Q ->
  valid_point Q /\ 0 < ecdsa.Y Q /\ len data = 33 /\
  ecdsa.X Q = big.SetBytes (tl data).
Proof.
  intros Hparse.
  destruct (parsePubKeyCompressed_inv data Q Hparse)
    as (tag & xs & -> & Hlen & _ & HX & Hv & _).
  split; [exact Hv|]. split; [exact (IsOnCurve_Y_pos Q Hv)|].
  split; [rewrite len_cons; lia|exact HX].
Qed.

Lemma parsePubKeyCompressed_sound_witness :
  0 < 0x62ed618899258a6863b9f92d382469b3b6ab7da4bd35629d6c580c07fa92936d.
Proof.
  refine (proj1 (proj2 (parsePubKeyCompressed_sound compressed_odd
    {| ecdsa.X := 5 * 2 ^ 248;
       ecdsa.Y := 0x62ed618899258a6863b9f92d382469b3b6ab7da4bd35629d6c580c07fa92936d |}
    _))).
  vm_compute. reflexivity.
Defined.

(** X12: [parsePubKeyCompressed] returns a point or an error on every
    input: it never panics (the length is checked before any byte is read,
    and the loop of the Jacobi symbol inside [ModSqrt] always returns). *)
Theorem parsePubKeyCompressed_total (data : list byte) :
  (exists Q, parsePubKeyCompressed data = Ok Q) \/
  (exists e, parsePubKeyCompressed data = Err e).
Proof.
  pose proof (parsePubKeyCompressed_no_panic data) as Hnp.
  destruct (parsePubKeyCompressed data) as [Q|e|]; [left|right|contradiction];
    eexists; reflexivity.
Qed.

(** X13: the order of the checks of [parsePubKeyCompressed].  Any length
    other than 33 gives the length error, whatever the bytes; 33 bytes with
    a first byte other than 2 and 3 give the form error, whatever the rest;
    with a good tag, 32 bytes that read as P or more give the X error. *)
Theorem parsePubKeyCompressed_errors (data : list byte) :
  (len data <> 33 -> parsePubKeyCompressed data = Err ErrByteLen) /\
  (len data = 33 ->
   byte.unsigned (hd Byte.x00 data) <> 2 ->
   byte.unsigned (hd Byte.x00 data) <> 3 ->
   parsePubKeyCompressed data = Err ErrCompressedForm) /\
  (len data = 33 ->
   byte.unsigned (hd Byte.x00 data) = 2 \/ byte.unsigned (hd Byte.x00 data) = 3 ->
   elliptic.P elliptic.P256 <= big.SetBytes (tl data) ->
   parsePubKeyCompressed data = Err ErrXData).
Proof.
  split; [apply parsePubKeyCompressed_wrong_length|].
  split.
  - intros Hlen H2 H3. destruct data as [|tag xs]; [discriminate Hlen|].
    cbn [hd] in *. rewrite len_cons in Hlen.
    rewrite parsePubKeyCompressed_33 by lia.
    destruct (Z.eqb_spec (byte.unsigned tag) 2); [contradiction|].
    destruct (Z.eqb_spec (byte.unsigned tag) 3); [contradiction|]. reflexivity.
  - intros Hlen Htag Hx. destruct data as [|tag xs]; [discriminate Hlen|].
    cbn [hd tl] in *. rewrite len_cons in Hlen.
    rewrite parsePubKeyCompressed_33 by lia. cbv zeta.
    replace (negb (byte.unsigned tag =? 2) && negb (byte.unsigned tag =? 3))
      with false
      by (destruct Htag as [-> | ->]; reflexivity).
    destruct (Z.leb_spec (elliptic.P elliptic.P256) (big.SetBytes xs)); [|lia].
    reflexivity.
Qed.

Lemma parsePubKeyCompressed_errors_witness :
  parsePubKeyCompressed (SerializePublicKey Q5) = Err ErrByteLen /\
  parsePubKeyCompressed (Byte.x04 :: repeat Byte.x00 32) = Err ErrCompressedForm /\
  parsePubKeyCompressed (Byte.x02 :: repeat Byte.xff 32) = Err ErrXData.
Proof.
  split; [|split].
  - apply (proj1 (parsePubKeyCompressed_errors (SerializePublicKey Q5))).
    vm_compute. congruence.
  - apply (proj1 (proj2 (parsePubKeyCompressed_errors
                           (Byte.x04 :: repeat Byte.x00 32))));
      vm_compute; congruence.
  - apply (proj2 (proj2 (parsePubKeyCompressed_errors
                           (Byte.x02 :: repeat Byte.xff 32)))).
    + reflexivity.
    + left. reflexivity.
    + vm_compute. congruence.
Defined.

(** The bytes of a number that fills the field are the field. *)
Lemma Bytes_SetBytes_full (xs : list byte) :
  256 ^ (len xs - 1) <= big.SetBytes xs -> big.Bytes (big.SetBytes xs) = xs.
Proof.
  intros Hfull. pose proof (SetBytes_range xs) as Hr.
  pose proof (len_nonneg xs) as Hl.
  assert (Hle : len (big.Bytes (big.SetBytes xs)) <= len xs)
    by (apply length_Bytes_le; [lia|]; rewrite Z.abs_eq; lia).
  assert (Hge : len xs <= len (big.Bytes (big.SetBytes xs))).
  { pose proof (SetBytes_range (big.Bytes (big.SetBytes xs))) as Hb.
    rewrite SetBytes_Bytes, Z.abs_eq in Hb by lia.
    destruct (Z.le_gt_cases (len xs) (len (big.Bytes (big.SetBytes xs))))
      as [|Hlt]; [assumption|].
    assert (256 ^ len (big.Bytes (big.SetBytes xs)) <= 256 ^ (len xs - 1))
      by (apply Z.pow_le_mono_r; [lia|]; pose proof (len_nonneg (big.Bytes (big.SetBytes xs))); lia).
    lia. }
  apply SetBytes_inj; [unfold len in *; lia|].
  rewrite SetBytes_Bytes, Z.abs_eq; lia.
Qed.

(** X14: parsing then serializing, compressed.  When an input is parsed to
    a key whose X is 2^248 or more, [SerializePublicKeyCompressed] of the
    key is the input. *)
Theorem SerializePublicKeyCompressed_parsePubKeyCompressed
    (data : list byte) (Q : ecdsa.PublicKey) :
  parsePubKeyCompressed data = Ok Q ->
  256 ^ 31 <= ecdsa.X Q ->
  SerializePublicKeyCompressed Q = data.
Proof.
  intros Hparse Hfull.
  destruct (parsePubKeyCompressed_inv data Q Hparse)
    as (tag & xs & -> & Hlen & Htag & HX & (HXr & _ & _) & Hbit).
  rewrite SerializePublicKeyCompressed_eq by exact HXr.
  rewrite <- (tag_parity tag (ecdsa.Y Q) Htag Hbit). f_equal.
  rewrite HX, Bytes_SetBytes_full by (rewrite Hlen, <- HX; exact Hfull).
  rewrite Hlen. cbn [Z.sub Z.to_nat repeat]. apply app_nil_r.
Qed.

Lemma SerializePublicKeyCompressed_parsePubKeyCompressed_witness :
  SerializePublicKeyCompressed
    {| ecdsa.X := 5 * 2 ^ 248;
       ecdsa.Y := 0x62ed618899258a6863b9f92d382469b3b6ab7da4bd35629d6c580c07fa92936d |}
  = compressed_odd.
Proof.
  apply (SerializePublicKeyCompressed_parsePubKeyCompressed compressed_odd).
  - vm_compute. reflexivity.
  - vm_compute. congruence.
Defined.

(** X15: two inputs that [parsePubKeyCompressed] parses to the same key
    are the same bytes: a key has at most one accepted compressed form. *)
Theorem parsePubKeyCompressed_injective (d1 d2 : list byte) (Q : ecdsa.PublicKey) :
  parsePubKeyCompressed d1 = Ok Q ->
  parsePubKeyCompressed d2 = Ok Q ->
  d1 = d2.
Proof.
  intros H1 H2.
  destruct (parsePubKeyCompressed_inv d1 Q H1)
    as (t1 & xs1 & -> & Hl1 & Ht1 & HX1 & _ & Hb1).
  destruct (parsePubKeyCompressed_inv d2 Q H2)
    as (t2 & xs2 & -> & Hl2 & Ht2 & HX2 & _ & Hb2).
  rewrite (tag_parity t1 _ Ht1 Hb1), (tag_parity t2 _ Ht2 Hb2). f_equal.
  apply SetBytes_inj; [unfold len in *; lia|congruence].
Qed.

Lemma parsePubKeyCompressed_injective_witness : compressed_odd = compressed_odd.
Proof.
  apply (parsePubKeyCompressed_injective compressed_odd compressed_odd
    {| ecdsa.X := 5 * 2 ^ 248;
       ecdsa.Y := 0x62ed618899258a6863b9f92d382469b3b6ab7da4bd35629d6c580c07fa92936d |});
    vm_compute; reflexivity.
Defined.

(** X16: from the compressed to the uncompressed form.  A key parsed from
    a compressed input, serialized with [SerializePublicKey] and parsed
    with [parsePubKey], is the same key. *)
Theorem compressed_to_uncompressed (data : list byte) (Q : ecdsa.PublicKey) :
  parsePubKeyCompressed data = Ok Q ->
  parsePubKey (SerializePublicKey Q) = Ok Q.
Proof.
  intros Hparse.
  destruct (parsePubKeyCompressed_inv data Q Hparse)
    as (_ & _ & _ & _ & _ & _ & Hv & _).
  now apply parsePubKey_SerializePublicKey.
Qed.

Lemma compressed_to_uncompressed_witness :
  parsePubKey (SerializePublicKey
    {| ecdsa.X := 5 * 2 ^ 248;
       ecdsa.Y := 0x62ed618899258a6863b9f92d382469b3b6ab7da4bd35629d6c580c07fa92936d |})
  = Ok {| ecdsa.X := 5 * 2 ^ 248;
          ecdsa.Y := 0x62ed618899258a6863b9f92d382469b3b6ab7da4bd35629d6c580c07fa92936d |}.
Proof.
  apply (compressed_to_uncompressed compressed_odd). vm_compute. reflexivity.
Defined.

(** X17: [SerializePublicKeyCompressed] returns 33 bytes for every key,
    whatever the size of X, and the first byte is 2 for an even Y and 3
    for an odd one. *)
Theorem SerializePublicKeyCompressed_33 (p : ecdsa.PublicKey) :
  len (SerializePublicKeyCompressed p) = 33 /\
  hd Byte.x00 (SerializePublicKeyCompressed p) =
    (if Z.even (ecdsa.Y p) then Byte.x02 else Byte.x03).
Proof.
  unfold SerializePublicKeyCompressed. rewrite parity_tag.
  split; [|reflexivity].
  change (make (1 + Z.shiftr (elliptic.BitSize elliptic.P256 + 7) 3))
    with (repeat Byte.x00 33).
  unfold copy. rewrite !skipn_repeat, repeat_length, len_cons, len_app.
  unfold len. rewrite length_firstn, repeat_length. lia.
Qed.

(** ** Signatures: integers of either sign *)

Lemma not_involutive (b : byte) : asn1.not (asn1.not b) = b.
Proof. destruct b; reflexivity. Qed.

Lemma map_not_involutive (l : list byte) : map asn1.not (map asn1.not l) = l.
Proof.
  induction l as [|b l IH]; [reflexivity|].
  cbn [map]. now rewrite not_involutive, IH.
Qed.

Lemma not_high_bit (b : byte) :
  (Z.land (byte.unsigned (asn1.not b)) 128 =? 0) =
  negb (Z.land (byte.unsigned b) 128 =? 0).
Proof. destruct b; reflexivity. Qed.

Lemma high_bit_128 (b : byte) :
  (Z.land (byte.unsigned b) 128 =? 128) =
  negb (Z.land (byte.unsigned b) 128 =? 0).
Proof. destruct b; reflexivity. Qed.

Lemma not_is_ff (b : byte) :
  (byte.unsigned (asn1.not b) =? 255) = (byte.unsigned b =? 0).
Proof. destruct b; reflexivity. Qed.

Lemma not_is_0 (b : byte) :
  (byte.unsigned (asn1.not b) =? 0) = (byte.unsigned b =? 255).
Proof. destruct b; reflexivity. Qed.

Lemma len_map {A B : Type} (f : A -> B) (l : list A) : len (map f l) = len l.
Proof. unfold len. now rewrite length_map. Qed.

(** The contents written for a negative integer (two's complement) are
    read back as that integer. *)
Lemma parseBigInt_makeBigInt_neg (n : Z) :
  n < 0 ->
  exists body : list byte,
    asn1.makeBigInt (Some n) = Ok body /\
    asn1.parseBigInt body = Ok n /\
    1 <= len body <= len (big.Bytes (- n - 1)) + 1.
Proof.
  intros Hn. unfold asn1.makeBigInt, big.Sign.
  rewrite Z.sgn_neg by lia. cbn [Z.ltb Z.compare].
  destruct (Z.eq_dec (- n - 1) 0) as [Hm0|Hm0].
  { rewrite Hm0. exists [Byte.xff]. split; [reflexivity|].
    split; [|cbn; lia]. cbn. f_equal. lia. }
  destruct (Bytes_head (- n - 1)) as (b & l & Hb & Hpos); [lia|].
  assert (Hval : big.SetBytes (b :: l) = - n - 1)
    by (rewrite <- Hb, SetBytes_Bytes; lia).
  rewrite Hb. cbn [map hd]. rewrite !len_cons.
  pose proof (len_nonneg (map asn1.not l)) as Hl.
  pose proof (len_nonneg l) as Hl'.
  destruct (Z.eqb_spec (1 + len (map asn1.not l)) 0) as [Hz|_]; [lia|].
  cbn [orb]. rewrite not_high_bit.
  destruct (Z.eqb_spec (Z.land (byte.unsigned b) 128) 0) as [Hhi|Hhi];
    cbn [negb].
  - exists (asn1.not b :: map asn1.not l). split; [reflexivity|].
    split; [|rewrite ?len_cons, len_map; lia].
    unfold asn1.parseBigInt.
    assert (Hc : asn1.checkInteger (asn1.not b :: map asn1.not l) = Ok tt).
    { unfold asn1.checkInteger. destruct (map asn1.not l) as [|b1 l']; [reflexivity|].
      rewrite not_is_0, not_is_ff.
      destruct (Z.eqb_spec (byte.unsigned b) 0); [lia|].
      destruct (Z.eqb_spec (byte.unsigned b) 255) as [H255|]; [|reflexivity].
      rewrite H255 in Hhi. discriminate Hhi. }
    rewrite Hc. cbn [bind hd]. rewrite len_cons.
    replace (0 <? 1 + len (map asn1.not l)) with true
      by (symmetry; apply Z.ltb_lt; lia).
    rewrite high_bit_128, not_high_bit.
    destruct (Z.eqb_spec (Z.land (byte.unsigned b) 128) 0); [|contradiction].
    cbn [negb andb map]. rewrite not_involutive, map_not_involutive, Hval.
    f_equal. lia.
  - exists (Byte.xff :: asn1.not b :: map asn1.not l). split; [reflexivity|].
    split; [|rewrite ?len_cons, len_map; lia].
    unfold asn1.parseBigInt.
    assert (Hc : asn1.checkInteger (Byte.xff :: asn1.not b :: map asn1.not l)
                 = Ok tt).
    { unfold asn1.checkInteger.
      change (byte.unsigned Byte.xff =? 0) with false.
      rewrite high_bit_128, not_high_bit.
      destruct (Z.eqb_spec (Z.land (byte.unsigned b) 128) 0); [contradiction|].
      cbn [negb andb orb]. rewrite andb_false_r. reflexivity. }
    rewrite Hc. cbn [bind hd]. rewrite !len_cons.
    replace (0 <? 1 + (1 + len (map asn1.not l))) with true
      by (symmetry; apply Z.ltb_lt; lia).
    change (Z.land (byte.unsigned Byte.xff) 128 =? 128) with true.
    cbn [andb map]. rewrite not_involutive, map_not_involutive.
    change (asn1.not Byte.xff) with Byte.x00.
    rewrite SetBytes_cons, Hval. change (byte.unsigned Byte.x00) with 0.
    f_equal. lia.
Qed.

Lemma parseBigInt_makeBigInt_any (n : Z) :
  exists body : list byte,
    asn1.makeBigInt (Some n) = Ok body /\
    asn1.parseBigInt body = Ok n /\
    1 <= len body.
Proof.
  destruct (Z.ltb_spec n 0) as [Hneg|Hpos].
  - destruct (parseBigInt_makeBigInt_neg n Hneg) as (body & Hmk & Hp & Hlen).
    exists body. split; [exact Hmk|]. split; [exact Hp|]. lia.
  - destruct (parseBigInt_makeBigInt n Hpos) as (body & Hmk & Hp & Hlen).
    exists body. split; [exact Hmk|]. split; [exact Hp|].
    destruct (Z.eq_dec n 0) as [Hz|Hnz].
    + subst n. cbn in Hmk. injection Hmk as <-. cbn. lia.
    + destruct (Bytes_head n) as (b & l & Hb & _); [lia|].
      rewrite Hb, len_cons in Hlen. pose proof (len_nonneg l). lia.
Qed.

(** A SEQUENCE that holds two INTEGER fields and then any bytes is read as
    the two integers. *)
Lemma Unmarshal_sequence (r s : Z) (rb sb junk extra : list byte) :
  asn1.parseBigInt rb = Ok r ->
  asn1.parseBigInt sb = Ok s ->
  len (asn1.makeField asn1.TagSequence true
         (asn1.makeField asn1.TagInteger false rb
          ++ asn1.makeField asn1.TagInteger false sb ++ junk)) < 2 ^ 31 ->
  asn1.Unmarshal
    (asn1.makeField asn1.TagSequence true
       (asn1.makeField asn1.TagInteger false rb
        ++ asn1.makeField asn1.TagInteger false sb ++ junk) ++ extra) =
  Ok (extra, {| asn1.R := Some r; asn1.S := Some s |}).
Proof.
  intros Hrp Hsp Hlen.
  set (fR := asn1.makeField asn1.TagInteger false rb) in *.
  set (fS := asn1.makeField asn1.TagInteger false sb) in *.
  pose proof (len_makeField_ge asn1.TagSequence true (fR ++ fS ++ junk)) as H1.
  pose proof (len_makeField_ge asn1.TagInteger false rb) as H2.
  pose proof (len_makeField_ge asn1.TagInteger false sb) as H3.
  fold fR in H2. fold fS in H3. rewrite !len_app in H1.
  pose proof (len_nonneg fR) as HfR. pose proof (len_nonneg fS) as HfS.
  pose proof (len_nonneg junk) as Hjunk.
  assert (Hstruct : asn1.parseStruct_signatureECDSA (fR ++ fS ++ junk) =
                    Ok {| asn1.R := Some r; asn1.S := Some s |}).
  { unfold asn1.parseStruct_signatureECDSA, asn1.parseField_bigInt.
    pose proof (parseField_makeField asn1.TagInteger false asn1.parseBigInt
                  rb r [] (fS ++ junk)) as Hf1.
    cbn [app] in Hf1. change (len []) with 0 in Hf1. fold fR in Hf1.
    rewrite Hf1 by (auto; lia). cbn [bind]. rewrite Z.add_0_l.
    pose proof (parseField_makeField asn1.TagInteger false asn1.parseBigInt
                  sb s fR junk) as Hf2.
    fold fS in Hf2.
    rewrite Hf2 by (auto; lia). reflexivity. }
  unfold asn1.Unmarshal.
  pose proof (parseField_makeField asn1.TagSequence true
                asn1.parseStruct_signatureECDSA (fR ++ fS ++ junk)
                {| asn1.R := Some r; asn1.S := Some s |} [] extra) as Hf.
  cbn [app] in Hf. change (len []) with 0 in Hf.
  rewrite Hf by (auto; rewrite ?len_app; lia). cbn [bind].
  rewrite Z.add_0_l, slice_from_app. reflexivity.
Qed.

(** The shape of an encoding. *)
Lemma Marshal_shape (r s : Z) :
  exists rb sb : list byte,
    asn1.makeBigInt (Some r) = Ok rb /\ asn1.parseBigInt rb = Ok r /\
    asn1.makeBigInt (Some s) = Ok sb /\ asn1.parseBigInt sb = Ok s /\
    MarshalECDSASignature (Some r) (Some s) =
    Ok (asn1.makeField asn1.TagSequence true
          (asn1.makeField asn1.TagInteger false rb
           ++ asn1.makeField asn1.TagInteger false sb)).
Proof.
  destruct (parseBigInt_makeBigInt_any r) as (rb & Hrb & Hrp & _).
  destruct (parseBigInt_makeBigInt_any s) as (sb & Hsb & Hsp & _).
  exists rb, sb. repeat (split; [assumption|]).
  unfold MarshalECDSASignature, asn1.Marshal. cbn [asn1.R asn1.S].
  rewrite Hrb, Hsb. reflexivity.
Qed.

(** What [asn1.Marshal] writes for two integers of either sign,
    [asn1.Unmarshal] reads back, below the length limit. *)
Lemma Unmarshal_Marshal_any (r s : Z) (enc extra : list byte) :
  MarshalECDSASignature (Some r) (Some s) = Ok enc ->
  len enc < 2 ^ 31 ->
  asn1.Unmarshal (enc ++ extra) =
  Ok (extra, {| asn1.R := Some r; asn1.S := Some s |}).
Proof.
  intros Hm Hlen.
  destruct (Marshal_shape r s)
    as (rb & sb & _ & Hrp & _ & Hsp & Hshape).
  rewrite Hshape in Hm. injection Hm as Henc. subst enc.
  pose proof (Unmarshal_sequence r s rb sb [] extra Hrp Hsp) as Hu.
  rewrite app_nil_r in Hu. apply Hu. exact Hlen.
Qed.

(** ** Signatures: what the decoder returns *)

(** The decoding of an encoded pair with a component that is not positive
    stops at the sign checks. *)
Lemma UnmarshalECDSASignature_Marshal (R S : Z) (enc : list byte) :
  MarshalECDSASignature (Some R) (Some S) = Ok enc ->
  len enc < 2 ^ 31 ->
  UnmarshalECDSASignature enc =
  checkSignature {| asn1.R := Some R; asn1.S := Some S |}.
Proof.
  intros Hm Hlen. unfold UnmarshalECDSASignature.
  pose proof (Unmarshal_Marshal_any R S enc [] Hm Hlen) as Hu.
  rewrite app_nil_r in Hu. rewrite Hu. reflexivity.
Qed.

(** X18: a pair with a component that is zero or negative is encoded like
    any other, and decoding the encoding (shorter than 2^31 bytes) gives
    the sign error of the first such component: R is checked before S. *)
Theorem UnmarshalECDSASignature_not_positive (R S : Z) (enc : list byte) :
  MarshalECDSASignature (Some R) (Some S) = Ok enc ->
  len enc < 2 ^ 31 ->
  (R <= 0 -> UnmarshalECDSASignature enc = Err ErrRNotPositive) /\
  (0 < R -> S <= 0 -> UnmarshalECDSASignature enc = Err ErrSNotPositive).
Proof.
  intros Hm Hlen. rewrite (UnmarshalECDSASignature_Marshal R S enc Hm Hlen).
  unfold checkSignature, big.Sign. cbn [asn1.R asn1.S].
  split.
  - intros HR. destruct (Z.eqb_spec (Z.sgn R) 1) as [Hs|_]; [|reflexivity].
    pose proof (Z.sgn_pos_iff R). lia.
  - intros HR HS. rewrite Z.sgn_pos by exact HR. cbn [Z.eqb Pos.eqb negb].
    destruct (Z.eqb_spec (Z.sgn S) 1) as [Hs|_]; [|reflexivity].
    pose proof (Z.sgn_pos_iff S). lia.
Qed.

Lemma UnmarshalECDSASignature_not_positive_witness :
  UnmarshalECDSASignature
    [Byte.x30; Byte.x06; Byte.x02; Byte.x01; Byte.xfb;
     Byte.x02; Byte.x01; Byte.x07] = Err ErrRNotPositive /\
  UnmarshalECDSASignature
    [Byte.x30; Byte.x07; Byte.x02; Byte.x01; Byte.x07;
     Byte.x02; Byte.x02; Byte.xff; Byte.x00] = Err ErrSNotPositive.
Proof.
  split.
  - apply (proj1 (UnmarshalECDSASignature_not_positive (-5) 7 _
                    eq_refl eq_refl)).
    discriminate.
  - apply (proj2 (UnmarshalECDSASignature_not_positive 7 (-256) _
                    eq_refl eq_refl)).
    + reflexivity.
    + discriminate.
Defined.

(** *** No panic in the decoder *)

Lemma index_in_range {E : Type} (s : list byte) (i : Z) :
  0 <= i < len s -> exists b, @index E s i = Ok b.
Proof.
  intros Hi. unfold index.
  destruct (Z.leb_spec 0 i); [|lia]. destruct (Z.ltb_spec i (len s)); [|lia].
  eexists. reflexivity.
Qed.

Lemma slice_in_range {E A : Type} (s : list A) (lo hi : Z) :
  0 <= lo <= hi -> hi <= len s -> exists l, @slice E A s lo hi = Ok l.
Proof.
  intros Hlo Hhi. unfold slice.
  destruct (Z.leb_spec 0 lo); [|lia]. destruct (Z.leb_spec lo hi); [|lia].
  destruct (Z.leb_spec hi (len s)); [|lia]. eexists. reflexivity.
Qed.

Lemma parseBase128Int_loop_safe (left : nat) (bytes : list byte)
    (offset ret64 : Z) (first : bool) :
  0 <= offset ->
  asn1.parseBase128Int_loop left bytes offset ret64 first <> Panic /\
  forall v off,
    asn1.parseBase128Int_loop left bytes offset ret64 first = Ok (v, off) ->
    0 <= off <= len bytes.
Proof.
  revert offset ret64 first.
  induction left as [|left IH]; intros offset ret64 first Hoff;
    cbn [asn1.parseBase128Int_loop].
  - destruct (offset <? len bytes); cbn [negb]; split; discriminate.
  - destruct (Z.ltb_spec offset (len bytes)) as [Hlt|Hge]; cbn [negb];
      [|split; discriminate].
    destruct (@index_in_range asn1.error bytes offset) as (b & Hb); [lia|].
    rewrite Hb. cbn [bind].
    destruct (first && (byte.unsigned b =? 128)); [split; discriminate|].
    destruct (Z.land (byte.unsigned b) 128 =? 0).
    + destruct (_ >? asn1.MaxInt32); [split; discriminate|].
      split; [discriminate|]. intros v off Hok. inversion Hok. lia.
    + apply IH. lia.
Qed.

Lemma parseLength_loop_safe (numBytes : nat) (bytes : list byte)
    (offset length : Z) :
  0 <= offset <= len bytes ->
  asn1.parseLength_loop numBytes bytes offset length <> Panic /\
  forall v off,
    asn1.parseLength_loop numBytes bytes offset length = Ok (v, off) ->
    0 <= off <= len bytes.
Proof.
  revert offset length.
  induction numBytes as [|n IH]; intros offset length Hoff;
    cbn [asn1.parseLength_loop].
  - split; [discriminate|]. intros v off Hok. inversion Hok. subst. exact Hoff.
  - destruct (Z.geb_spec offset (len bytes)) as [Hge|Hlt];
      [split; discriminate|].
    destruct (@index_in_range asn1.error bytes offset) as (b & Hb); [lia|].
    rewrite Hb. cbn [bind].
    destruct (length >=? Z.shiftl 1 23); [split; discriminate|].
    destruct (_ =? 0); [split; discriminate|].
    apply IH. lia.
Qed.

Lemma parseTagAndLength_safe (bytes : list byte) (offset : Z) :
  0 <= offset ->
  asn1.parseTagAndLength bytes offset <> Panic /\
  forall t off,
    asn1.parseTagAndLength bytes offset = Ok (t, off) ->
    0 <= off <= len bytes.
Proof.
  intros Hoff. unfold asn1.parseTagAndLength.
  destruct (Z.geb_spec offset (len bytes)) as [Hge|Hlt]; [split; discriminate|].
  destruct (@index_in_range asn1.error bytes offset) as (b & Hb); [lia|].
  rewrite Hb. cbn [bind].
  match goal with
  | |- bind ?t _ <> _ /\ _ =>
      assert (Ht : t <> Panic /\
                   forall v off, t = Ok (v, off) -> 0 <= off <= len bytes);
      [|destruct t as [[tag offset']| |]]
  end.
  { destruct (Z.land (byte.unsigned b) 31 =? 31).
    - unfold asn1.parseBase128Int.
      destruct (parseBase128Int_loop_safe 5 bytes (offset + 1) 0 true)
        as [Hnp Hok]; [lia|].
      destruct (asn1.parseBase128Int_loop 5 bytes (offset + 1) 0 true)
        as [[tag0 offset0]| |]; cbn [bind]; [|split; discriminate|contradiction].
      destruct (tag0 <? 31); [split; discriminate|].
      split; [discriminate|]. intros v off Hv. inversion Hv. subst.
      exact (Hok _ _ eq_refl).
    - split; [discriminate|]. intros v off Hv. inversion Hv. lia. }
  - cbn [bind]. destruct Ht as [_ Hok]. specialize (Hok _ _ eq_refl).
    destruct (Z.geb_spec offset' (len bytes)) as [Hge'|Hlt'];
      [split; discriminate|].
    destruct (@index_in_range asn1.error bytes offset') as (b' & Hb'); [lia|].
    rewrite Hb'. cbn [bind].
    destruct (Z.land (byte.unsigned b') 128 =? 0).
    { split; [discriminate|]. intros t off Hv. inversion Hv. lia. }
    destruct (Z.land (byte.unsigned b') 127 =? 0); [split; discriminate|].
    destruct (parseLength_loop_safe
                (Z.to_nat (Z.land (byte.unsigned b') 127)) bytes (offset' + 1) 0)
      as [Hnp Hl]; [lia|].
    destruct (asn1.parseLength_loop _ bytes (offset' + 1) 0)
      as [[length0 offset0]| |]; cbn [bind]; [|split; discriminate|contradiction].
    destruct (length0 <? 128); [split; discriminate|].
    split; [discriminate|]. intros t off Hv. inversion Hv. subst.
    exact (Hl _ _ eq_refl).
  - cbn [bind]. split; discriminate.
  - destruct Ht as [Hnp _]. contradiction.
Qed.

Lemma parseField_safe {A : Type} (universalTag : Z) (compoundType : bool)
    (body : list byte -> result asn1.error A) (bytes : list byte) (offset : Z) :
  (forall inner, body inner <> Panic) ->
  0 <= offset ->
  asn1.parseField universalTag compoundType body bytes offset <> Panic /\
  forall v off,
    asn1.parseField universalTag compoundType body bytes offset = Ok (v, off) ->
    0 <= off <= len bytes.
Proof.
  intros Hbody Hoff. unfold asn1.parseField.
  destruct (offset =? len bytes); [split; discriminate|].
  destruct (parseTagAndLength_safe bytes offset Hoff) as [Hnp Hok].
  destruct (asn1.parseTagAndLength bytes offset) as [[t offset']| |];
    cbn [bind]; [|split; discriminate|contradiction].
  specialize (Hok _ _ eq_refl).
  destruct (_ || _); [split; discriminate|].
  unfold asn1.invalidLength.
  destruct (Z.ltb_spec (offset' + asn1.length t) offset'); cbn [orb];
    [split; discriminate|].
  destruct (Z.gtb_spec (offset' + asn1.length t) (len bytes));
    [split; discriminate|].
  destruct (@slice_in_range asn1.error byte bytes offset'
              (offset' + asn1.length t)) as (inner & Hs); [lia|lia|].
  rewrite Hs. cbn [bind]. specialize (Hbody inner).
  destruct (body inner) as [v| |]; cbn [bind];
    [|split; discriminate|contradiction].
  split; [discriminate|]. intros v' off Hv. inversion Hv. lia.
Qed.

Lemma parseBigInt_safe (bytes : list byte) : asn1.parseBigInt bytes <> Panic.
Proof.
  unfold asn1.parseBigInt.
  destruct (asn1.checkInteger bytes) as [u| |] eqn:Hc; cbn [bind].
  - destruct (_ && _); discriminate.
  - discriminate.
  - unfold asn1.checkInteger in Hc.
    destruct bytes as [|b0 [|b1 l]]; try discriminate Hc.
    destruct (_ || _); discriminate Hc.
Qed.

(** The fields of a parsed value are never nil. *)
Lemma parseStruct_signatureECDSA_safe (inner : list byte) :
  asn1.parseStruct_signatureECDSA inner <> Panic /\
  forall sig, asn1.parseStruct_signatureECDSA inner = Ok sig ->
    exists r s, sig = {| asn1.R := Some r; asn1.S := Some s |}.
Proof.
  unfold asn1.parseStruct_signatureECDSA, asn1.parseField_bigInt.
  destruct (parseField_safe asn1.TagInteger false asn1.parseBigInt inner 0
              parseBigInt_safe ltac:(lia)) as [Hnp1 Hok1].
  destruct (asn1.parseField asn1.TagInteger false asn1.parseBigInt inner 0)
    as [[r off1]| |]; cbn [bind]; [|split; discriminate|contradiction].
  specialize (Hok1 _ _ eq_refl).
  destruct (parseField_safe asn1.TagInteger false asn1.parseBigInt inner off1
              parseBigInt_safe ltac:(lia)) as [Hnp2 _].
  destruct (asn1.parseField asn1.TagInteger false asn1.parseBigInt inner off1)
    as [[s off2]| |]; cbn [bind]; [|split; discriminate|contradiction].
  split; [discriminate|]. intros sig Hv. inversion Hv. eauto.
Qed.

Lemma Unmarshal_safe (b : list byte) :
  asn1.Unmarshal b <> Panic /\
  forall rest sig, asn1.Unmarshal b = Ok (rest, sig) ->
    exists r s, sig = {| asn1.R := Some r; asn1.S := Some s |}.
Proof.
  unfold asn1.Unmarshal.
  destruct (parseField_safe asn1.TagSequence true
              asn1.parseStruct_signatureECDSA b 0
              (fun inner => proj1 (parseStruct_signatureECDSA_safe inner))
              ltac:(lia)) as [Hnp Hok].
  pose proof (fun v off (H : asn1.parseField asn1.TagSequence true
                 asn1.parseStruct_signatureECDSA b 0 = Ok (v, off)) => H) as Hid.
  assert (Hsig : forall v off,
             asn1.parseField asn1.TagSequence true
               asn1.parseStruct_signatureECDSA b 0 = Ok (v, off) ->
             exists r s, v = {| asn1.R := Some r; asn1.S := Some s |}).
  { clear Hid. unfold asn1.parseField. intros v off.
    destruct (0 =? len b); [discriminate|].
    destruct (asn1.parseTagAndLength b 0) as [[t offset']| |]; cbn [bind];
      try discriminate.
    destruct (_ || _); [discriminate|].
    destruct (asn1.invalidLength _ _ _); [discriminate|].
    destruct (slice b offset' (offset' + asn1.length t)) as [inner| |];
      cbn [bind]; try discriminate.
    destruct (asn1.parseStruct_signatureECDSA inner) as [sig| |] eqn:Hp;
      cbn [bind]; try discriminate.
    intros Hv. inversion Hv. subst.
    exact (proj2 (parseStruct_signatureECDSA_safe inner) _ Hp). }
  clear Hid.
  destruct (asn1.parseField asn1.TagSequence true
              asn1.parseStruct_signatureECDSA b 0)
    as [[v off]| |]; cbn [bind]; [|split; discriminate|contradiction].
  specialize (Hok _ _ eq_refl). specialize (Hsig _ _ eq_refl).
  destruct (@slice_in_range asn1.error byte b off (len b)) as (rest & Hs);
    [lia|lia|].
  unfold slice_from. rewrite Hs. cbn [bind].
  split; [discriminate|]. intros rest' sig Hv. inversion Hv. subst. exact Hsig.
Qed.

(** X19: the outcomes of [UnmarshalECDSASignature].  On every input it
    returns a pair, the wrapped error of asn1, or one of the two sign errors:
    it never panics, and the two errors for a nil component are never
    returned (the parser fills both fields or fails). *)
Theorem UnmarshalECDSASignature_outcomes (raw : list byte) :
  (exists r s, UnmarshalECDSASignature raw = Ok (r, s)) \/
  (exists cause, UnmarshalECDSASignature raw = Err (ErrUnmarshal cause)) \/
  UnmarshalECDSASignature raw = Err ErrRNotPositive \/
  UnmarshalECDSASignature raw = Err ErrSNotPositive.
Proof.
  unfold UnmarshalECDSASignature.
  destruct (Unmarshal_safe raw) as [Hnp Hsig].
  destruct (asn1.Unmarshal raw) as [[rest sig]|cause|];
    [|right; left; eexists; reflexivity|contradiction].
  destruct (Hsig _ _ eq_refl) as (r & s & ->).
  unfold checkSignature. cbn [asn1.R asn1.S].
  destruct (big.Sign r =? 1); cbn [negb]; [|right; right; left; reflexivity].
  destruct (big.Sign s =? 1); cbn [negb]; [|right; right; right; reflexivity].
  left. eexists _, _. reflexivity.
Qed.

(** ** Signatures: the encoder *)

(** X20: [MarshalECDSASignature] fails exactly when a component is nil,
    with the error "empty integer" of asn1; every pair of integers, of any
    sign, is encoded. *)
Theorem MarshalECDSASignature_nil (r s : option Z) :
  (r = None \/ s = None ->
   MarshalECDSASignature r s = Err (asn1.StructuralError "empty integer")) /\
  (r <> None -> s <> None -> exists enc, MarshalECDSASignature r s = Ok enc).
Proof.
  split.
  - intros Hnil. unfold MarshalECDSASignature, asn1.Marshal. cbn [asn1.R asn1.S].
    destruct r as [r|]; [|reflexivity].
    destruct Hnil as [Hr|Hs]; [discriminate Hr|]. subst s.
    destruct (Marshal_shape r 0) as (rb & _ & Hrb & _). rewrite Hrb. reflexivity.
  - intros Hr Hs. destruct r as [r|]; [|contradiction].
    destruct s as [s|]; [|contradiction].
    destruct (Marshal_shape r s) as (rb & sb & _ & _ & _ & _ & Hshape).
    eexists. exact Hshape.
Qed.

Lemma MarshalECDSASignature_nil_witness :
  MarshalECDSASignature (Some 1) None =
  Err (asn1.StructuralError "empty integer").
Proof.
  apply (proj1 (MarshalECDSASignature_nil (Some 1) None)). right. reflexivity.
Defined.

(** A field whose contents are shorter than 128 bytes: one byte of tag,
    one byte of length. *)
Lemma makeField_short (universalTag : Z) (compoundType : bool)
    (body : list byte) :
  len body < 128 ->
  asn1.makeField universalTag compoundType body =
  byte.of_Z (Z.lor (if compoundType then Z.lor (Z.shiftl asn1.ClassUniversal 6) 32
                    else Z.shiftl asn1.ClassUniversal 6) universalTag)
  :: byte.of_Z (len body) :: body.
Proof.
  intros Hlen. unfold asn1.makeField, asn1.appendTagAndLength.
  cbn [asn1.class asn1.tag asn1.length asn1.isCompound].
  destruct (Z.geb_spec (len body) 128); [lia|]. reflexivity.
Qed.

(** X21: the size of a signature.  For 0 < R, S < 2^256 the encoding is
    between 8 and 72 bytes long, starts with the byte 0x30 and then the
    byte that counts the bytes after it. *)
Theorem MarshalECDSASignature_size (R S : Z) :
  0 < R < 2 ^ 256 -> 0 < S < 2 ^ 256 ->
  exists enc rest : list byte,
    MarshalECDSASignature (Some R) (Some S) = Ok enc /\
    8 <= len enc <= 72 /\
    enc = Byte.x30 :: byte.of_Z (len rest) :: rest /\
    len rest < 128.
Proof.
  intros HR HS.
  destruct (parseBigInt_makeBigInt R) as (rb & Hrb & _ & Hrl); [lia|].
  destruct (parseBigInt_makeBigInt S) as (sb & Hsb & _ & Hsl); [lia|].
  assert (HbR : 1 <= len (big.Bytes R) <= 32).
  { split.
    - destruct (Bytes_head R) as (b & l & -> & _); [lia|].
      rewrite len_cons. pose proof (len_nonneg l). lia.
    - apply length_Bytes_le; [lia|]. change (256 ^ 32) with (2 ^ 256). lia. }
  assert (HbS : 1 <= len (big.Bytes S) <= 32).
  { split.
    - destruct (Bytes_head S) as (b & l & -> & _); [lia|].
      rewrite len_cons. pose proof (len_nonneg l). lia.
    - apply length_Bytes_le; [lia|]. change (256 ^ 32) with (2 ^ 256). lia. }
  set (fR := asn1.makeField asn1.TagInteger false rb).
  set (fS := asn1.makeField asn1.TagInteger false sb).
  assert (HfR : len fR = len rb + 2).
  { subst fR. rewrite makeField_short by lia. rewrite !len_cons. lia. }
  assert (HfS : len fS = len sb + 2).
  { subst fS. rewrite makeField_short by lia. rewrite !len_cons. lia. }
  exists (asn1.makeField asn1.TagSequence true (fR ++ fS)), (fR ++ fS).
  split.
  { unfold MarshalECDSASignature, asn1.Marshal. cbn [asn1.R asn1.S].
    rewrite Hrb, Hsb. reflexivity. }
  assert (Hbody : len (fR ++ fS) < 128) by (rewrite len_app; lia).
  rewrite makeField_short by exact Hbody.
  split; [rewrite !len_cons, len_app; lia|].
  split; [reflexivity|exact Hbody].
Qed.

Lemma MarshalECDSASignature_size_witness :
  exists enc rest : list byte,
    MarshalECDSASignature (Some 5) (Some 255) = Ok enc /\
    8 <= len enc <= 72 /\
    enc = Byte.x30 :: byte.of_Z (len rest) :: rest /\
    len rest < 128.
Proof.
  apply (MarshalECDSASignature_size 5 255); split; reflexivity.
Defined.

(** ** Signatures: bytes inside the SEQUENCE *)

(** X22: bytes after the second INTEGER inside the SEQUENCE are ignored
    too.  For a positive pair (R, S) whose integers are written as [rb] and
    [sb], the SEQUENCE of the two INTEGER fields followed by any bytes
    [junk] is decoded to (R, S). *)
Theorem UnmarshalECDSASignature_inner_bytes (R S : Z) (rb sb junk : list byte) :
  0 < R -> 0 < S ->
  asn1.makeBigInt (Some R) = Ok rb ->
  asn1.makeBigInt (Some S) = Ok sb ->
  len (asn1.makeField asn1.TagSequence true
         (asn1.makeField asn1.TagInteger false rb
          ++ asn1.makeField asn1.TagInteger false sb ++ junk)) < 2 ^ 31 ->
  UnmarshalECDSASignature
    (asn1.makeField asn1.TagSequence true
       (asn1.makeField asn1.TagInteger false rb
        ++ asn1.makeField asn1.TagInteger false sb ++ junk)) = Ok (R, S).
Proof.
  intros HR HS Hrb Hsb Hlen.
  destruct (parseBigInt_makeBigInt R) as (rb' & Hrb' & Hrp & _); [lia|].
  destruct (parseBigInt_makeBigInt S) as (sb' & Hsb' & Hsp & _); [lia|].
  assert (rb' = rb) by congruence. assert (sb' = sb) by congruence.
  subst rb' sb'.
  pose proof (Unmarshal_sequence R S rb sb junk [] Hrp Hsp Hlen) as Hu.
  rewrite app_nil_r in Hu.
  unfold UnmarshalECDSASignature. rewrite Hu.
  unfold checkSignature, big.Sign. cbn [asn1.R asn1.S].
  rewrite !Z.sgn_pos by assumption. reflexivity.
Qed.

Lemma UnmarshalECDSASignature_inner_bytes_witness :
  UnmarshalECDSASignature
    [Byte.x30; Byte.x08; Byte.x02; Byte.x01; Byte.x05;
     Byte.x02; Byte.x01; Byte.x07; Byte.xde; Byte.xad] = Ok (5, 7).
Proof.
  apply (UnmarshalECDSASignature_inner_bytes 5 7 [Byte.x05] [Byte.x07]
           [Byte.xde; Byte.xad]); reflexivity.
Defined.

(** ** Signatures: low S *)



(** ** The Jacobi symbol: sums, ranges and signs *)

(** *** Sums *)

Lemma Zsum_app (l1 l2 : list Z) : Zsum (l1 ++ l2) = Zsum l1 + Zsum l2.
Proof.
  induction l1 as [|x l1 IH]; cbn [app Zsum fold_right]; [reflexivity|].
  fold (Zsum (l1 ++ l2)) (Zsum l1). rewrite IH. ring.
Qed.

Lemma Zsum_Permutation (l l' : list Z) :
  Permutation l l' -> Zsum l = Zsum l'.
Proof.
  induction 1 as [|x l l' _ IH|x y l|l l' l'' _ IH1 _ IH2]; cbn [Zsum fold_right].
  - reflexivity.
  - fold (Zsum l) (Zsum l'). now rewrite IH.
  - ring.
  - congruence.
Qed.

Lemma Zsum_map_add (f g : Z -> Z) (l : list Z) :
  Zsum (map (fun x => f x + g x) l) = Zsum (map f l) + Zsum (map g l).
Proof.
  induction l as [|x l IH]; cbn [map Zsum fold_right]; [reflexivity|].
  fold (Zsum (map (fun x => f x + g x) l)) (Zsum (map f l)) (Zsum (map g l)).
  rewrite IH. ring.
Qed.

Lemma Zsum_map_ext (f g : Z -> Z) (l : list Z) :
  (forall x, In x l -> f x = g x) -> Zsum (map f l) = Zsum (map g l).
Proof. intros Hfg. f_equal. now apply map_ext_in. Qed.

Lemma Zsum_map_const (c : Z) (l : list Z) :
  Zsum (map (fun _ => c) l) = c * len l.
Proof.
  induction l as [|x l IH]; cbn [map Zsum fold_right].
  - change (len []) with 0. ring.
  - fold (Zsum (map (fun _ => c) l)). rewrite IH, len_cons. ring.
Qed.

(** Sums that agree in parity term by term agree in parity. *)
Lemma Zsum_map_even (f g : Z -> Z) (l : list Z) :
  (forall x, In x l -> Z.even (f x) = Z.even (g x)) ->
  Z.even (Zsum (map f l)) = Z.even (Zsum (map g l)).
Proof.
  induction l as [|x l IH]; intros Hfg; cbn [map Zsum fold_right]; [reflexivity|].
  fold (Zsum (map f l)) (Zsum (map g l)).
  rewrite !Z.even_add, IH, (Hfg x) by (cbn [In] in *; auto).
  reflexivity.
Qed.

Lemma Zsum_swap (f : Z -> Z -> Z) (l1 l2 : list Z) :
  Zsum (map (fun x => Zsum (map (fun y => f x y) l2)) l1) =
  Zsum (map (fun y => Zsum (map (fun x => f x y) l1)) l2).
Proof.
  induction l1 as [|x l1 IH]; cbn [map Zsum fold_right].
  - symmetry. rewrite (Zsum_map_const 0). ring.
  - fold (Zsum (map (fun x0 => Zsum (map (fun y => f x0 y) l2)) l1)).
    rewrite IH.
    change (fun y => f x y + fold_right Z.add 0 (map (fun x0 => f x0 y) l1))
      with (fun y => f x y + Zsum (map (fun x0 => f x0 y) l1)).
    now rewrite <- Zsum_map_add.
Qed.

(** *** Ranges *)

Lemma range_In (h x : Z) : In x (range h) <-> 1 <= x <= h.
Proof.
  unfold range. rewrite in_map_iff. split.
  - intros (k & <- & Hk). apply in_seq in Hk. lia.
  - intros Hx. exists (Z.to_nat x). split; [lia|]. apply in_seq. lia.
Qed.

Lemma range_NoDup (h : Z) : NoDup (range h).
Proof.
  unfold range. apply NoDup_map_NoDup_ForallPairs; [|apply seq_NoDup].
  intros x y _ _. apply Nat2Z.inj.
Qed.

Lemma range_length (h : Z) : 0 <= h -> len (range h) = h.
Proof. intros Hh. unfold range, len. rewrite length_map, length_seq. lia. Qed.

Lemma range_succ (h : Z) : 0 <= h -> range (h + 1) = range h ++ [h + 1].
Proof.
  intros Hh. unfold range.
  replace (Z.to_nat (h + 1)) with (S (Z.to_nat h)) by lia.
  rewrite seq_S, map_app. cbn [map]. do 2 f_equal. lia.
Qed.

(** The number of x in 1..h with x <= q. *)
Lemma count_le (h q : Z) :
  0 <= h -> 0 <= q <= h ->
  Zsum (map (fun x => if x <=? q then 1 else 0) (range h)) = q.
Proof.
  intros Hh. revert q. pattern h. apply natlike_ind; [| |exact Hh].
  - intros q Hq. assert (q = 0) by lia. subst q. reflexivity.
  - intros k Hk IH q Hq. change (Z.succ k) with (k + 1) in *.
    rewrite range_succ, map_app, Zsum_app by exact Hk.
    cbn [map Zsum fold_right].
    destruct (Z.leb_spec (k + 1) q) as [Hle|Hgt].
    + assert (q = k + 1) by lia. subst q.
      rewrite (Zsum_map_ext _ (fun _ => 1)).
      * rewrite Zsum_map_const, range_length by exact Hk. ring.
      * intros x Hx. apply range_In in Hx.
        destruct (Z.leb_spec x (k + 1)); [reflexivity|lia].
    + rewrite IH by lia. ring.
Qed.

(** *** Signs *)

Lemma sign_add (a b : Z) : sign (a + b) = sign a * sign b.
Proof.
  unfold sign. rewrite Z.even_add.
  destruct (Z.even a), (Z.even b); reflexivity.
Qed.

Lemma sign_even (a b : Z) : Z.even a = Z.even b -> sign a = sign b.
Proof. unfold sign. now intros ->. Qed.

Lemma sign_square (a : Z) : sign a * sign a = 1.
Proof. unfold sign. destruct (Z.even a); reflexivity. Qed.

Lemma sign_cases (a : Z) : sign a = 1 \/ sign a = -1.
Proof. unfold sign. destruct (Z.even a); auto. Qed.

(** *** Coprimality *)

Lemma coprime_mul (a b n : Z) :
  Z.gcd a n = 1 -> Z.gcd b n = 1 -> Z.gcd (a * b) n = 1.
Proof.
  intros Ha Hb.
  apply Z.gcd_unique; [lia|apply Z.divide_1_l|apply Z.divide_1_l|].
  intros q Hq1 Hq2.
  assert (Hqa : Z.gcd q a = 1).
  { apply Z.gcd_unique; [lia|apply Z.divide_1_l|apply Z.divide_1_l|].
    intros d Hd1 Hd2. rewrite <- Ha. apply Z.gcd_greatest; [exact Hd2|].
    now apply (Z.divide_trans _ q). }
  apply Z.gauss in Hq1; [|exact Hqa].
  rewrite <- Hb. now apply Z.gcd_greatest.
Qed.

Lemma coprime_mul_l (a b n : Z) : Z.gcd (a * b) n = 1 -> Z.gcd a n = 1.
Proof.
  intros Hab.
  assert (Hd : (Z.gcd a n | 1)).
  { rewrite <- Hab. apply Z.gcd_greatest.
    - apply Z.divide_mul_l, Z.gcd_divide_l.
    - apply Z.gcd_divide_r. }
  apply Z.divide_1_r_nonneg in Hd; [exact Hd|apply Z.gcd_nonneg].
Qed.

Lemma coprime_mul_r (a b n : Z) : Z.gcd (a * b) n = 1 -> Z.gcd b n = 1.
Proof. rewrite Z.mul_comm. apply coprime_mul_l. Qed.

Lemma coprime_not_divide (a n x : Z) :
  Z.gcd a n = 1 -> 0 < x < n -> ~ (n | a * x).
Proof.
  intros Ha Hx Hd. apply Z.gauss in Hd; [|now rewrite Z.gcd_comm].
  apply Z.divide_pos_le in Hd; lia.
Qed.

Lemma half_spec (n : Z) : Z.odd n = true -> n = 2 * half n + 1.
Proof.
  intros Hodd. unfold half. pose proof (Zmod_odd n) as Hm. rewrite Hodd in Hm.
  Z.div_mod_to_equations. lia.
Qed.

(** *** Residues around a multiple of an odd modulus *)
Section Residues.

Variable n : Z.
Hypothesis Hpos : 0 < n.
Hypothesis Hodd : Z.odd n = true.

Lemma over_cases (t : Z) :
  (t mod n <= half n /\ over n t = 0 /\ absr n t = t mod n) \/
  (half n < t mod n /\ over n t = 1 /\ absr n t = n - t mod n).
Proof.
  unfold over, absr. destruct (Z.leb_spec (t mod n) (half n)); [left|right]; auto.
Qed.

Lemma absr_range (t : Z) : 0 <= absr n t <= half n.
Proof.
  pose proof (half_spec n Hodd). pose proof (Z.mod_pos_bound t n Hpos).
  destruct (over_cases t) as [(H1 & _ & ->)|(H1 & _ & ->)]; lia.
Qed.

Lemma absr_pos (t : Z) : ~ (n | t) -> 1 <= absr n t <= half n.
Proof.
  intros Hnd. pose proof (absr_range t) as Hr.
  assert (absr n t <> 0); [|lia].
  intros H0. apply Hnd. apply Z.mod_divide; [lia|].
  pose proof (Z.mod_pos_bound t n Hpos).
  destruct (over_cases t) as [(_ & _ & He)|(_ & _ & He)]; lia.
Qed.

Lemma over_cong (s t : Z) : s mod n = t mod n -> over n s = over n t.
Proof. unfold over. now intros ->. Qed.

Lemma absr_cong (s t : Z) : s mod n = t mod n -> absr n s = absr n t.
Proof. unfold absr. now intros ->. Qed.

Lemma over_opp (t : Z) :
  ~ (n | t) -> over n (- t) = 1 - over n t /\ absr n (- t) = absr n t.
Proof.
  intros Hnd. pose proof (half_spec n Hodd) as Hh.
  pose proof (Z.mod_pos_bound t n Hpos) as Hb.
  assert (Hnz : t mod n <> 0)
    by (intros H0; apply Hnd, Z.mod_divide; [lia|exact H0]).
  unfold over, absr. rewrite Z.mod_opp_l_nz by lia.
  destruct (Z.leb_spec (t mod n) (half n)), (Z.leb_spec (n - t mod n) (half n));
    lia.
Qed.

(** Multiplying by a commutes with folding a residue to 1..(n-1)/2, up to
    the sign that the folding took. *)
Lemma over_mul_absr (a t : Z) :
  ~ (n | a * t) ->
  Z.even (over n (a * t)) = Z.even (over n (a * absr n t) + over n t) /\
  absr n (a * t) = absr n (a * absr n t).
Proof.
  intros Hnd.
  destruct (over_cases t) as [(_ & -> & ->)|(_ & -> & ->)].
  - assert (Hc : (a * (t mod n)) mod n = (a * t) mod n)
      by (rewrite Z.mul_mod_idemp_r by lia; reflexivity).
    rewrite (over_cong _ _ Hc), (absr_cong _ _ Hc), Z.add_0_r. auto.
  - assert (Hc : (a * (n - t mod n)) mod n = (- (a * t)) mod n).
    { apply cong_divide; [lia|].
      pose proof (Z.div_mod t n ltac:(lia)) as Ht.
      exists (a + a * (t / n)). nia. }
    rewrite (over_cong _ _ Hc), (absr_cong _ _ Hc).
    destruct (over_opp (a * t) Hnd) as [-> ->]. split; [|reflexivity].
    replace (1 - over n (a * t) + 1) with (over n (a * t) + 2 * (1 - over n (a * t)))
      by ring.
    now rewrite Z.even_add_mul_2.
Qed.

(** Two numbers with the same folded residue are congruent or opposite. *)
Lemma absr_eq (s t : Z) :
  absr n s = absr n t -> (n | s - t) \/ (n | s + t).
Proof.
  intros Heq.
  pose proof (Z.div_mod s n ltac:(lia)) as Hs.
  pose proof (Z.div_mod t n ltac:(lia)) as Ht.
  destruct (over_cases s) as [(_ & _ & Hs')|(_ & _ & Hs')];
    destruct (over_cases t) as [(_ & _ & Ht')|(_ & _ & Ht')];
    rewrite Hs', Ht' in Heq.
  - left. exists (s / n - t / n). lia.
  - right. exists (s / n + t / n + 1). lia.
  - right. exists (s / n + t / n + 1). lia.
  - left. exists (s / n - t / n). lia.
Qed.

(** For a coprime to n, x -> |a x| permutes 1..(n-1)/2. *)
Lemma absr_Permutation (a : Z) :
  Z.gcd a n = 1 ->
  Permutation (map (fun x => absr n (a * x)) (range (half n))) (range (half n)).
Proof.
  intros Ha. pose proof (half_spec n Hodd) as Hh.
  apply NoDup_Permutation_bis.
  - apply NoDup_map_NoDup_ForallPairs; [|apply range_NoDup].
    intros x y Hx Hy Heq. apply range_In in Hx, Hy.
    apply absr_eq in Heq. destruct Heq as [Hd|Hd].
    + replace (a * x - a * y) with (a * (x - y)) in Hd by ring.
      apply Z.gauss in Hd; [|now rewrite Z.gcd_comm].
      destruct (Z.eq_dec (x - y) 0) as [|Hne]; [lia|].
      apply Z.divide_pos_le in Hd.
      * lia.
      * destruct Hd as [k Hk].
        destruct (Z.lt_trichotomy (x - y) 0) as [Hlt|[H0|Hgt]]; [|lia|lia].
        exfalso. assert (Hd' : (n | y - x)) by (exists (- k); lia).
        apply Z.divide_pos_le in Hd'; lia.
    + replace (a * x + a * y) with (a * (x + y)) in Hd by ring.
      apply Z.gauss in Hd; [|now rewrite Z.gcd_comm].
      apply Z.divide_pos_le in Hd; lia.
  - rewrite length_map. lia.
  - intros y Hy. apply in_map_iff in Hy. destruct Hy as (x & <- & Hx).
    apply range_In in Hx. apply range_In. apply absr_pos.
    apply coprime_not_divide; [exact Ha|lia].
Qed.

End Residues.

(** *** The symbol is multiplicative and periodic in its first argument *)
Section Symbol.

Variable n : Z.
Hypothesis Hpos : 0 < n.
Hypothesis Hodd : Z.odd n = true.

Lemma mu_mul (a b : Z) :
  Z.gcd a n = 1 -> Z.gcd b n = 1 ->
  Z.even (mu (a * b) n) = Z.even (mu a n + mu b n).
Proof.
  intros Ha Hb. pose proof (half_spec n Hodd) as Hh. unfold mu.
  rewrite <- (Zsum_Permutation _ _
                (Permutation_map (fun y => over n (a * y))
                   (absr_Permutation n Hpos Hodd b Hb))).
  rewrite map_map, <- Zsum_map_add.
  apply Zsum_map_even. intros x Hx. apply range_In in Hx.
  rewrite <- Z.mul_assoc.
  apply (over_mul_absr n Hpos Hodd a (b * x)).
  rewrite Z.mul_assoc. apply coprime_not_divide; [|lia].
  now apply coprime_mul.
Qed.

Lemma mu_mod (a : Z) : mu (a mod n) n = mu a n.
Proof.
  unfold mu. apply Zsum_map_ext. intros x _. apply over_cong.
  rewrite Z.mul_mod_idemp_l by lia. reflexivity.
Qed.

Lemma jacobi_symbol_mod (a : Z) : jacobi_symbol (a mod n) n = jacobi_symbol a n.
Proof.
  unfold jacobi_symbol.
  rewrite Z.gcd_mod, (Z.gcd_comm n a), mu_mod by lia. reflexivity.
Qed.

Lemma jacobi_symbol_mul (a b : Z) :
  jacobi_symbol (a * b) n = jacobi_symbol a n * jacobi_symbol b n.
Proof.
  unfold jacobi_symbol.
  destruct (Z.eqb_spec (Z.gcd a n) 1) as [Ha|Ha].
  - destruct (Z.eqb_spec (Z.gcd b n) 1) as [Hb|Hb].
    + rewrite (coprime_mul a b n Ha Hb). cbn [Z.eqb Pos.eqb].
      rewrite <- sign_add. apply sign_even, mu_mul; assumption.
    + destruct (Z.eqb_spec (Z.gcd (a * b) n) 1) as [Hab|_]; [|ring].
      apply coprime_mul_r in Hab. contradiction.
  - destruct (Z.eqb_spec (Z.gcd (a * b) n) 1) as [Hab|_]; [|ring].
    apply coprime_mul_l in Hab. contradiction.
Qed.

Lemma jacobi_symbol_cases (a : Z) :
  Z.gcd a n = 1 -> jacobi_symbol a n = 1 \/ jacobi_symbol a n = -1.
Proof.
  intros Ha. unfold jacobi_symbol. rewrite Ha. cbn [Z.eqb Pos.eqb].
  apply sign_cases.
Qed.

Lemma jacobi_symbol_square (a : Z) :
  Z.gcd a n = 1 -> jacobi_symbol (a * a) n = 1.
Proof.
  intros Ha. rewrite jacobi_symbol_mul.
  destruct (jacobi_symbol_cases a Ha) as [-> | ->]; reflexivity.
Qed.

Lemma jacobi_symbol_zero (a : Z) :
  jacobi_symbol a n = 0 <-> Z.gcd a n <> 1.
Proof.
  unfold jacobi_symbol. destruct (Z.eqb_spec (Z.gcd a n) 1) as [Ha|Ha].
  - split; [|contradiction]. destruct (sign_cases (mu a n)); lia.
  - tauto.
Qed.

(** *** The second supplement *)

Lemma coprime_2 : Z.gcd 2 n = 1.
Proof.
  pose proof (half_spec n Hodd) as Hh.
  apply Z.gcd_unique; [lia|apply Z.divide_1_l|apply Z.divide_1_l|].
  intros q Hq2 Hqn.
  assert (Hq : (q | n - 2 * half n))
    by (apply Z.divide_sub_r; [exact Hqn|now apply Z.divide_mul_l]).
  replace (n - 2 * half n) with 1 in Hq by lia. exact Hq.
Qed.

Lemma mu_2 : mu 2 n = half n - half n / 2.
Proof.
  pose proof (half_spec n Hodd) as Hh.
  assert (Hh0 : 0 <= half n) by lia.
  unfold mu.
  rewrite (Zsum_map_ext _
             (fun x => 1 + (-1) * (if x <=? half n / 2 then 1 else 0))).
  - rewrite (Zsum_map_add (fun _ => 1)
               (fun x => (-1) * (if x <=? half n / 2 then 1 else 0))).
    rewrite Zsum_map_const, range_length by exact Hh0.
    assert (Hm : forall l : list Z,
               Zsum (map (fun x => -1 * (if x <=? half n / 2 then 1 else 0)) l)
               = - Zsum (map (fun x => if x <=? half n / 2 then 1 else 0) l)).
    { induction l as [|x l IH]; cbn [map Zsum fold_right]; [reflexivity|].
      fold (Zsum (map (fun x => -1 * (if x <=? half n / 2 then 1 else 0)) l))
           (Zsum (map (fun x => if x <=? half n / 2 then 1 else 0) l)).
      rewrite IH. ring. }
    rewrite Hm, count_le; [ring|exact Hh0|].
    split; [apply Z.div_pos; lia|]. apply Z.div_le_upper_bound; lia.
  - intros x Hx. apply range_In in Hx. unfold over.
    rewrite Z.mod_small by lia.
    destruct (Z.leb_spec (2 * x) (half n)), (Z.leb_spec x (half n / 2));
      try reflexivity.
    + exfalso. assert (half n / 2 < x) by lia.
      assert (half n < 2 * x); [|lia].
      pose proof (Z.div_mod (half n) 2 ltac:(lia)).
      pose proof (Z.mod_pos_bound (half n) 2 ltac:(lia)). lia.
    + exfalso.
      pose proof (Z.div_mod (half n) 2 ltac:(lia)).
      pose proof (Z.mod_pos_bound (half n) 2 ltac:(lia)). lia.
Qed.

Lemma jacobi_symbol_2 :
  jacobi_symbol 2 n =
  if (n mod 8 =? 3) || (n mod 8 =? 5) then -1 else 1.
Proof.
  unfold jacobi_symbol. rewrite coprime_2, mu_2. cbn [Z.eqb Pos.eqb].
  pose proof (half_spec n Hodd) as Hh.
  pose proof (Z.div_mod n 8 ltac:(lia)) as H8.
  pose proof (Z.mod_pos_bound n 8 ltac:(lia)) as Hb.
  pose proof (Z.div_mod (half n) 2 ltac:(lia)) as H2.
  pose proof (Z.mod_pos_bound (half n) 2 ltac:(lia)) as Hb2.
  unfold sign.
  assert (Hc : n mod 8 = 1 \/ n mod 8 = 3 \/ n mod 8 = 5 \/ n mod 8 = 7) by lia.
  destruct Hc as [Hc|[Hc|[Hc|Hc]]]; rewrite Hc; cbn [Z.eqb Pos.eqb orb].
  - replace (half n - half n / 2) with (0 + 2 * (n / 8)) by lia.
    now rewrite Z.even_add_mul_2.
  - replace (half n - half n / 2) with (1 + 2 * (n / 8)) by lia.
    now rewrite Z.even_add_mul_2.
  - replace (half n - half n / 2) with (1 + 2 * (n / 8)) by lia.
    now rewrite Z.even_add_mul_2.
  - replace (half n - half n / 2) with (0 + 2 * (n / 8 + 1)) by lia.
    now rewrite Z.even_add_mul_2.
Qed.

(** *** Eisenstein: the parity of mu is that of a sum of quotients *)

Lemma mu_quotients (a : Z) :
  Z.odd a = true -> Z.gcd a n = 1 ->
  Z.even (mu a n) =
  Z.even (Zsum (map (fun x => a * x / n) (range (half n)))).
Proof.
  intros Ha Hg. pose proof (half_spec n Hodd) as Hh.
  pose proof (half_spec a Ha) as Hha.
  pose proof (Zsum_Permutation _ _ (absr_Permutation n Hpos Hodd a Hg)) as Hperm.
  assert (Hpar :
    Z.even (Zsum (map (fun x => x) (range (half n)))) =
    Z.even (Zsum (map (fun x => a * x / n + over n (a * x) + absr n (a * x))
                      (range (half n))))).
  { apply Zsum_map_even. intros x _.
    pose proof (Z.div_mod (a * x) n ltac:(lia)) as Hdm.
    replace x with
      (a * x / n + over n (a * x) + absr n (a * x)
       + 2 * (half n * (a * x / n) - half a * x
              + over n (a * x) * (half n - absr n (a * x)))) at 1.
    - now rewrite Z.even_add_mul_2.
    - destruct (over_cases n (a * x)) as [(_ & -> & ->)|(_ & -> & ->)]; nia. }
  rewrite map_id in Hpar.
  rewrite (Zsum_map_add (fun x => a * x / n + over n (a * x))
             (fun x => absr n (a * x))) in Hpar.
  rewrite (Zsum_map_add (fun x => a * x / n) (fun x => over n (a * x))) in Hpar.
  rewrite Hperm in Hpar. fold (mu a n) in Hpar.
  rewrite !Z.even_add in Hpar.
  destruct (Z.even (mu a n)), (Z.even (Zsum (range (half n)))),
    (Z.even (Zsum (map (fun x => a * x / n) (range (half n)))));
    cbn in Hpar; congruence.
Qed.

End Symbol.

(** *** Counting lattice points under a line *)

Lemma count_below (m n x : Z) :
  0 < m -> Z.odd m = true -> 0 < n -> Z.odd n = true ->
  Z.gcd m n = 1 -> 1 <= x <= half n ->
  Zsum (map (fun y => if n * y <? m * x then 1 else 0) (range (half m)))
  = m * x / n.
Proof.
  intros Hm Hmo Hn Hno Hg Hx.
  pose proof (half_spec m Hmo) as Hhm. pose proof (half_spec n Hno) as Hhn.
  assert (Hnd : ~ (n | m * x)) by (apply coprime_not_divide; [exact Hg|lia]).
  pose proof (Z.div_mod (m * x) n ltac:(lia)) as Hdm.
  pose proof (Z.mod_pos_bound (m * x) n Hn) as Hb.
  assert (Hnz : (m * x) mod n <> 0)
    by (intros H0; apply Hnd, Z.mod_divide; [lia|exact H0]).
  rewrite (Zsum_map_ext _ (fun y => if y <=? m * x / n then 1 else 0)).
  - apply count_le; [lia|]. split; [apply Z.div_pos; nia|].
    assert (m * x / n < half m + 1); [|lia].
    apply Z.div_lt_upper_bound; nia.
  - intros y Hy. apply range_In in Hy.
    destruct (Z.ltb_spec (n * y) (m * x)), (Z.leb_spec y (m * x / n));
      try reflexivity; exfalso.
    + assert (y <= m * x / n); [|lia]. apply Z.div_le_lower_bound; lia.
    + nia.
Qed.

Lemma lattice_count (m n : Z) :
  0 < m -> Z.odd m = true -> 0 < n -> Z.odd n = true ->
  Z.gcd m n = 1 ->
  Zsum (map (fun x => m * x / n) (range (half n)))
  + Zsum (map (fun y => n * y / m) (range (half m)))
  = half m * half n.
Proof.
  intros Hm Hmo Hn Hno Hg.
  pose proof (half_spec m Hmo) as Hhm. pose proof (half_spec n Hno) as Hhn.
  rewrite (Zsum_map_ext (fun x => m * x / n)
             (fun x => Zsum (map (fun y => if n * y <? m * x then 1 else 0)
                               (range (half m))))).
  2:{ intros x Hx. apply range_In in Hx. symmetry. now apply count_below. }
  rewrite (Zsum_map_ext (fun y => n * y / m)
             (fun y => Zsum (map (fun x => if m * x <? n * y then 1 else 0)
                               (range (half n))))).
  2:{ intros y Hy. apply range_In in Hy. symmetry.
      apply count_below; try assumption. now rewrite Z.gcd_comm. }
  rewrite <- (Zsum_swap (fun x y => if m * x <? n * y then 1 else 0)).
  rewrite <- Zsum_map_add.
  rewrite (Zsum_map_ext _ (fun _ => half m)).
  - rewrite Zsum_map_const, range_length by lia. ring.
  - intros x Hx. apply range_In in Hx.
    rewrite <- Zsum_map_add.
    rewrite (Zsum_map_ext _ (fun _ => 1)).
    + rewrite Zsum_map_const, range_length by lia. ring.
    + intros y Hy. apply range_In in Hy.
      assert (Hne : m * x <> n * y).
      { intros Heq. apply (coprime_not_divide m n x Hg); [lia|].
        exists y. lia. }
      destruct (Z.ltb_spec (n * y) (m * x)), (Z.ltb_spec (m * x) (n * y)); lia.
Qed.

(** *** Quadratic reciprocity for odd positive numbers *)

Lemma half_even (m : Z) :
  Z.odd m = true -> Z.even (half m) = negb (m mod 4 =? 3).
Proof.
  intros Hmo. pose proof (half_spec m Hmo) as Hh.
  pose proof (Z.div_mod m 4 ltac:(lia)) as H4.
  pose proof (Z.mod_pos_bound m 4 ltac:(lia)) as Hb.
  assert (Hc : m mod 4 = 1 \/ m mod 4 = 3) by lia.
  destruct Hc as [Hc|Hc]; rewrite Hc; cbn [Z.eqb Pos.eqb negb].
  - replace (half m) with (0 + 2 * (m / 4)) by lia.
    now rewrite Z.even_add_mul_2.
  - replace (half m) with (1 + 2 * (m / 4)) by lia.
    now rewrite Z.even_add_mul_2.
Qed.

Lemma reciprocity (m n : Z) :
  0 < m -> Z.odd m = true -> 0 < n -> Z.odd n = true ->
  jacobi_symbol m n =
  (if (n mod 4 =? 3) && (m mod 4 =? 3) then -1 else 1) * jacobi_symbol n m.
Proof.
  intros Hm Hmo Hn Hno. unfold jacobi_symbol. rewrite (Z.gcd_comm n m).
  destruct (Z.eqb_spec (Z.gcd m n) 1) as [Hg|Hg]; [|ring].
  assert (Hpar : Z.even (mu m n + mu n m) = Z.even (half m * half n)).
  { rewrite <- (lattice_count m n) by assumption.
    rewrite !Z.even_add.
    rewrite (mu_quotients n Hn Hno m Hmo Hg).
    rewrite (mu_quotients m Hm Hmo n Hno) by (now rewrite Z.gcd_comm).
    reflexivity. }
  assert (Hs : sign (mu m n) * sign (mu n m) = sign (half m * half n))
    by (rewrite <- sign_add; now apply sign_even).
  assert (Hsign : sign (half m * half n) =
                  if (n mod 4 =? 3) && (m mod 4 =? 3) then -1 else 1).
  { unfold sign. rewrite Z.even_mul, !half_even by assumption.
    destruct (m mod 4 =? 3), (n mod 4 =? 3); reflexivity. }
  rewrite <- Hsign, <- Hs.
  pose proof (sign_square (mu n m)) as Hsq.
  rewrite <- Z.mul_assoc, Hsq. ring.
Qed.

(** *** Euler's criterion *)

Lemma Zprod_map_prod (f g : Z -> Z) (l : list Z) :
  Zprod (map (fun x => f x * g x) l) = Zprod (map f l) * Zprod (map g l).
Proof.
  induction l as [|x l IH]; cbn [map Zprod fold_right]; [reflexivity|].
  fold (Zprod (map (fun x => f x * g x) l)) (Zprod (map f l)) (Zprod (map g l)).
  rewrite IH. ring.
Qed.

Lemma Zprod_map_cong (f g : Z -> Z) (m : Z) (l : list Z) :
  m <> 0 ->
  (forall x, In x l -> f x mod m = g x mod m) ->
  Zprod (map f l) mod m = Zprod (map g l) mod m.
Proof.
  intros Hm Hfg.
  rewrite <- (Zprod_map_mod f m l Hm), <- (Zprod_map_mod g m l Hm).
  do 2 f_equal. now apply map_ext_in.
Qed.

Lemma Zprod_signs (f : Z -> Z) (l : list Z) :
  (forall x, In x l -> f x = 0 \/ f x = 1) ->
  Zprod (map (fun x => 1 - 2 * f x) l) = sign (Zsum (map f l)).
Proof.
  induction l as [|x l IH]; intros Hf; cbn [map Zprod Zsum fold_right];
    [reflexivity|].
  fold (Zprod (map (fun x => 1 - 2 * f x) l)) (Zsum (map f l)).
  rewrite IH, sign_add by (intros y Hy; apply Hf; now right).
  f_equal. destruct (Hf x (or_introl eq_refl)) as [-> | ->]; reflexivity.
Qed.

Section Euler.

Variable p : Z.
Hypothesis Hp : Z.prime p.
Hypothesis Hodd : Z.odd p = true.

Lemma prime_coprime (a : Z) : ~ (p | a) -> Z.gcd a p = 1.
Proof.
  intros Hnd. pose proof (Z.prime_ge_2 p Hp) as Hp2.
  pose proof (Z.gcd_nonneg a p) as Hg0.
  pose proof (Z.gcd_divide_r a p) as Hgp.
  pose proof (Z.gcd_divide_l a p) as Hga.
  apply Z.divide_prime_r in Hgp; [|exact Hp].
  destruct Hgp as [Hg|[Hg|[Hg|Hg]]]; try lia.
  rewrite Hg in Hga. contradiction.
Qed.

Lemma coprime_prime (a : Z) : Z.gcd a p = 1 -> ~ (p | a).
Proof.
  intros Hg Hd. pose proof (Z.prime_ge_2 p Hp) as Hp2.
  assert (Hd1 : (p | 1)).
  { rewrite <- Hg. apply Z.gcd_greatest; [exact Hd|apply Z.divide_refl]. }
  apply Z.divide_1_r_nonneg in Hd1; lia.
Qed.

Lemma euler_criterion (a : Z) :
  ~ (p | a) -> a ^ half p mod p = jacobi_symbol a p mod p.
Proof.
  intros Hnd. pose proof (Z.prime_ge_2 p Hp) as Hp2.
  pose proof (half_spec p Hodd) as Hh.
  pose proof (prime_coprime a Hnd) as Hg.
  unfold jacobi_symbol. rewrite Hg. cbn [Z.eqb Pos.eqb].
  assert (Hprod :
    Zprod (map (Z.mul a) (range (half p))) mod p =
    Zprod (map (fun x => (1 - 2 * over p (a * x)) * absr p (a * x))
               (range (half p))) mod p).
  { apply Zprod_map_cong; [lia|]. intros x _.
    pose proof (Z.div_mod (a * x) p ltac:(lia)) as Hdm.
    apply cong_divide; [lia|].
    destruct (over_cases p (a * x)) as [(_ & -> & ->)|(_ & -> & ->)].
    - exists (a * x / p). lia.
    - exists (a * x / p + 1). lia. }
  rewrite Zprod_map_mul, range_length in Hprod by lia.
  rewrite (Zprod_map_prod (fun x => 1 - 2 * over p (a * x))
             (fun x => absr p (a * x))) in Hprod.
  rewrite (Zprod_Permutation _ _ (absr_Permutation p ltac:(lia) Hodd a Hg))
    in Hprod.
  rewrite (Zprod_signs (fun x => over p (a * x))) in Hprod.
  2:{ intros x _.
      destruct (over_cases p (a * x)) as [(_ & -> & _)|(_ & -> & _)]; auto. }
  fold (mu a p) in Hprod.
  apply (mul_cancel_mod p Hp (Zprod (range (half p)))).
  - apply (not_divide_Zprod p Hp). intros x Hx. apply range_In in Hx.
    apply (prime_not_divide_small p x). lia.
  - rewrite !(Z.mul_comm (Zprod (range (half p)))). exact Hprod.
Qed.

End Euler.

(** ** The loop of Jacobi computes the symbol *)

Lemma jacobi_symbol_n_1 (a : Z) : jacobi_symbol a 1 = 1.
Proof. unfold jacobi_symbol. rewrite Z.gcd_1_r. reflexivity. Qed.

Lemma jacobi_symbol_0 (n : Z) : 1 < n -> jacobi_symbol 0 n = 0.
Proof.
  intros Hn. unfold jacobi_symbol. rewrite Z.gcd_0_l, Z.abs_eq by lia.
  destruct (Z.eqb_spec n 1); [lia|reflexivity].
Qed.

Lemma jacobi_symbol_1 (n : Z) :
  0 < n -> Z.odd n = true -> jacobi_symbol 1 n = 1.
Proof.
  intros Hn Hodd.
  apply (jacobi_symbol_square n Hn Hodd 1). apply Z.gcd_1_l.
Qed.

Lemma jacobi_symbol_pow2 (n s : Z) :
  0 < n -> Z.odd n = true -> 0 <= s ->
  jacobi_symbol (2 ^ s) n = if Z.even s then 1 else jacobi_symbol 2 n.
Proof.
  intros Hn Hodd Hs. pattern s. apply natlike_ind; [| |exact Hs].
  - now apply jacobi_symbol_1.
  - intros k Hk IH. rewrite Z.pow_succ_r, jacobi_symbol_mul, IH by assumption.
    rewrite Z.even_succ, <- Z.negb_even.
    destruct (jacobi_symbol_cases n 2 (coprime_2 n Hodd)) as [-> | ->];
      destruct (Z.even k); reflexivity.
Qed.

(** The odd part left by the trailing zero bits. *)
Lemma trailingZeroBits_pos_spec (p : positive) :
  Zpos p = Z.shiftr (Zpos p) (big.trailingZeroBits_pos p)
           * 2 ^ big.trailingZeroBits_pos p /\
  Z.odd (Z.shiftr (Zpos p) (big.trailingZeroBits_pos p)) = true.
Proof.
  induction p as [p _|p IH|]; cbn [big.trailingZeroBits_pos].
  - split; [rewrite Z.shiftr_0_r; lia|reflexivity].
  - pose proof (trailingZeroBits_pos_nonneg p) as Ht.
    rewrite <- Z.shiftr_shiftr by exact Ht.
    change (Z.shiftr (Z.pos p~0) 1) with (Z.pos p).
    destruct IH as [IH1 IH2]. split; [|exact IH2].
    rewrite Z.pow_add_r, Z.pow_1_r by lia.
    change (Z.pos p~0) with (2 * Z.pos p). rewrite IH1 at 1. ring.
  - split; reflexivity.
Qed.

Lemma trailingZeroBits_spec (a : Z) :
  0 < a ->
  0 <= big.trailingZeroBits a /\
  a = Z.shiftr a (big.trailingZeroBits a) * 2 ^ big.trailingZeroBits a /\
  Z.odd (Z.shiftr a (big.trailingZeroBits a)) = true.
Proof.
  intros Ha. destruct a as [|p|p]; try lia. cbn [big.trailingZeroBits].
  split; [apply trailingZeroBits_pos_nonneg|apply trailingZeroBits_pos_spec].
Qed.

Lemma land_1 (s : Z) : (Z.land s 1 =? 0) = Z.even s.
Proof.
  change 1 with (Z.ones 1) at 1. rewrite Z.land_ones by lia.
  change (2 ^ 1) with 2. rewrite Zmod_even. destruct (Z.even s); reflexivity.
Qed.

Lemma land_3 (b : Z) : Z.land b 3 = b mod 4.
Proof. change 3 with (Z.ones 2). now rewrite Z.land_ones by lia. Qed.

Lemma land_7 (b : Z) : Z.land b 7 = b mod 8.
Proof. change 7 with (Z.ones 3). now rewrite Z.land_ones by lia. Qed.

Lemma Jacobi_loop_spec (rounds : nat) (a b j r : Z) :
  0 < b -> Z.odd b = true ->
  big.Jacobi_loop rounds a b j = Some r ->
  r = j * jacobi_symbol a b.
Proof.
  revert a b j. induction rounds as [|rounds IH]; intros a b j Hb Hodd;
    cbn [big.Jacobi_loop]; [discriminate|].
  destruct (Z.eqb_spec b 1) as [Hb1|Hb1].
  { intros Hr. injection Hr as <-. subst b. rewrite jacobi_symbol_n_1. ring. }
  destruct (Z.eqb_spec a 0) as [Ha0|Ha0].
  { intros Hr. injection Hr as <-. subst a.
    rewrite jacobi_symbol_0 by lia. ring. }
  unfold big.Mod. rewrite Z.abs_eq by lia.
  rewrite <- (jacobi_symbol_mod b Hb a).
  pose proof (Z.mod_pos_bound a b Hb) as Hmod.
  destruct (Z.eqb_spec (a mod b) 0) as [Hz|Hnz].
  { intros Hr. injection Hr as <-. rewrite Hz, jacobi_symbol_0 by lia. ring. }
  destruct (trailingZeroBits_spec (a mod b) ltac:(lia)) as (Hs & Hdec & Hcodd).
  pose proof (shiftr_trailingZeroBits (a mod b) ltac:(lia)) as Hc.
  unfold big.Rsh. set (s := big.trailingZeroBits (a mod b)) in *.
  set (c := Z.shiftr (a mod b) s) in *.
  clearbody c. clearbody s.
  intros Hr. apply IH in Hr; [|lia|exact Hcodd]. rewrite Hr, Hdec.
  rewrite (jacobi_symbol_mul b Hb Hodd), (jacobi_symbol_pow2 b s Hb Hodd Hs).
  rewrite (reciprocity c b) by (try assumption; lia).
  rewrite (jacobi_symbol_2 b Hb Hodd).
  rewrite land_1, !land_3, land_7.
  destruct (Z.even s), ((b mod 8 =? 3) || (b mod 8 =? 5)),
    ((b mod 4 =? 3) && (c mod 4 =? 3)); cbn [negb]; ring.
Qed.

(** [Jacobi] returns the Jacobi symbol for every odd positive modulus. *)
Lemma Jacobi_spec (x y : Z) :
  0 < y -> Z.odd y = true -> big.Jacobi x y = Some (jacobi_symbol x y).
Proof.
  intros Hy Hodd. destruct (Jacobi_total x y Hodd) as (j & Hj).
  rewrite Hj. f_equal. unfold big.Jacobi in Hj.
  destruct ((y =? 0) || (Z.land (Z.abs y) 1 =? 0)); [discriminate|].
  destruct (Z.ltb_spec y 0); [lia|]. cbn [andb] in Hj.
  rewrite Z.abs_eq in Hj by lia.
  apply Jacobi_loop_spec in Hj; [|exact Hy|exact Hodd]. lia.
Qed.

(** ** Square roots modulo a prime p with p mod 4 = 3 *)
Section SquareRoots.

Variable p : Z.
Hypothesis Hp : Z.prime p.
Hypothesis Hp3 : p mod 4 = 3.

Lemma prime_3mod4_odd : Z.odd p = true.
Proof.
  pose proof (Zmod_odd p) as Hm. pose proof (Z.div_mod p 4 ltac:(lia)) as H4.
  destruct (Z.odd p); [reflexivity|]. Z.div_mod_to_equations. lia.
Qed.

Lemma root_exponent : 2 * Z.shiftr (p + 1) 2 = half p + 1.
Proof.
  rewrite Z.shiftr_div_pow2 by lia. change (2 ^ 2) with 4. unfold half.
  Z.div_mod_to_equations. lia.
Qed.

Lemma symbol_of_unit (v : Z) :
  0 < v < p -> jacobi_symbol v p = 1 \/ jacobi_symbol v p = -1.
Proof.
  intros Hv. apply jacobi_symbol_cases, (prime_coprime p Hp).
  now apply (prime_not_divide_small p).
Qed.

(** A non-zero square has symbol 1. *)
Lemma symbol_of_square (y : Z) :
  (y * y) mod p <> 0 -> jacobi_symbol ((y * y) mod p) p = 1.
Proof.
  intros Hnz. pose proof (Z.prime_ge_2 p Hp) as Hp2.
  rewrite jacobi_symbol_mod by lia.
  apply jacobi_symbol_square; [lia|exact prime_3mod4_odd|].
  apply (prime_coprime p Hp). intros Hd. apply Hnz.
  apply Z.mod_divide; [lia|]. now apply Z.divide_mul_l.
Qed.

(** A number with symbol 1 is the square of its power (p + 1) / 4. *)
Lemma root_of_symbol_1 (v : Z) :
  0 < v < p -> jacobi_symbol v p = 1 ->
  (v ^ Z.shiftr (p + 1) 2 mod p * (v ^ Z.shiftr (p + 1) 2 mod p)) mod p = v.
Proof.
  intros Hv Hj. pose proof (Z.prime_ge_2 p Hp) as Hp2.
  pose proof root_exponent as He.
  pose proof (half_spec p prime_3mod4_odd) as Hh.
  assert (He0 : 0 <= Z.shiftr (p + 1) 2) by (apply Z.shiftr_nonneg; lia).
  rewrite <- Z.mul_mod, <- Z.pow_add_r by lia.
  replace (Z.shiftr (p + 1) 2 + Z.shiftr (p + 1) 2) with (1 + half p) by lia.
  rewrite Z.pow_add_r, Z.pow_1_r by lia.
  rewrite Z.mul_mod, (euler_criterion p Hp prime_3mod4_odd v), Hj by
    (try lia; now apply (prime_not_divide_small p)).
  rewrite (Z.mod_1_l p), Z.mul_1_r, Z.mod_mod, Z.mod_small by lia.
  reflexivity.
Qed.

(** The outcome of [ModSqrt] on a non-zero residue. *)
Lemma ModSqrt_3mod4 (v : Z) :
  0 < v < p ->
  big.ModSqrt v p =
  if jacobi_symbol v p =? -1 then Some None
  else Some (Some (v ^ Z.shiftr (p + 1) 2 mod p)).
Proof.
  intros Hv. pose proof (Z.prime_ge_2 p Hp) as Hp2.
  unfold big.ModSqrt. rewrite Jacobi_spec by (try lia; exact prime_3mod4_odd).
  destruct (symbol_of_unit v Hv) as [-> | ->]; cbn [Z.eqb Pos.eqb];
    [|reflexivity].
  destruct (Z.ltb_spec v 0); [lia|]. destruct (Z.geb_spec v p); [lia|].
  cbn [orb]. rewrite Z.abs_eq, land_3, Hp3 by lia. cbn [Z.eqb Pos.eqb].
  unfold big.modSqrt3Mod4Prime, big.Rsh.
  rewrite Exp_spec by (try lia; apply Z.shiftr_nonneg; lia). reflexivity.
Qed.

(** [ModSqrt] finds a root exactly when there is one. *)
Lemma ModSqrt_root (v : Z) :
  0 < v < p ->
  (exists r, big.ModSqrt v p = Some (Some r) /\ 0 < r < p /\ (r * r) mod p = v) \/
  (big.ModSqrt v p = Some None /\ forall y, (y * y) mod p <> v).
Proof.
  intros Hv. pose proof (Z.prime_ge_2 p Hp) as Hp2.
  rewrite (ModSqrt_3mod4 v Hv).
  destruct (symbol_of_unit v Hv) as [Hj|Hj]; rewrite Hj; cbn [Z.eqb Pos.eqb].
  - left. eexists. split; [reflexivity|].
    pose proof (root_of_symbol_1 v Hv Hj) as Hr.
    pose proof (Z.mod_pos_bound (v ^ Z.shiftr (p + 1) 2) p ltac:(lia)) as Hb.
    split; [|exact Hr].
    assert (v ^ Z.shiftr (p + 1) 2 mod p <> 0); [|lia].
    intros H0. rewrite H0 in Hr. rewrite Z.mod_0_l in Hr; lia.
  - right. split; [reflexivity|]. intros y Hy.
    pose proof (symbol_of_square y) as Hs. rewrite Hy in Hs.
    rewrite Hs in Hj; [discriminate|lia].
Qed.

(** Two residues with the same square and the same parity are equal. *)
Lemma same_root (y1 y2 : Z) :
  0 < y1 < p -> 0 < y2 < p ->
  (y1 * y1) mod p = (y2 * y2) mod p ->
  Z.odd y1 = Z.odd y2 -> y1 = y2.
Proof.
  intros H1 H2 Hsq Hpar. pose proof (Z.prime_ge_2 p Hp) as Hp2.
  apply cong_divide in Hsq; [|lia].
  replace (y1 * y1 - y2 * y2) with ((y1 - y2) * (y1 + y2)) in Hsq by ring.
  apply Z.divide_prime_mul in Hsq; [|exact Hp].
  destruct Hsq as [[k Hk]|[k Hk]].
  - assert (k = 0) by nia. lia.
  - assert (k = 1) by nia. subst k.
    assert (Hodd : Z.odd (y1 + y2) = true)
      by (rewrite Hk, Z.mul_1_l; exact prime_3mod4_odd).
    rewrite Z.odd_add, Hpar in Hodd. destruct (Z.odd y2); discriminate.
Qed.

End SquareRoots.

(** ** Point decompression on P-256 *)

Lemma P256_P_3mod4 : elliptic.P elliptic.P256 mod 4 = 3.
Proof. vm_compute. reflexivity. Qed.

Lemma polynomial_range (x : Z) :
  0 < polynomial (elliptic.B elliptic.P256) (elliptic.P elliptic.P256) x
    < elliptic.P elliptic.P256.
Proof.
  pose proof P256_P_pos as HP. rewrite polynomial_eq by exact HP.
  pose proof (curve_polynomial_no_root x) as Hnz.
  pose proof (Z.mod_pos_bound
                (x * x * x - 3 * x + elliptic.B elliptic.P256)
                (elliptic.P elliptic.P256) HP) as Hb.
  lia.
Qed.

(** [ModSqrt] of the right-hand side of the curve equation gives the
    ordinate of a point with abscissa x exactly when there is one. *)
Lemma decompress_root (x : Z) :
  (exists r,
      big.ModSqrt
        (polynomial (elliptic.B elliptic.P256) (elliptic.P elliptic.P256) x)
        (elliptic.P elliptic.P256) = Some (Some r) /\
      0 < r < elliptic.P elliptic.P256 /\
      elliptic.IsOnCurve elliptic.P256 x r = true) \/
  (big.ModSqrt
     (polynomial (elliptic.B elliptic.P256) (elliptic.P elliptic.P256) x)
     (elliptic.P elliptic.P256) = Some None /\
   forall y, elliptic.IsOnCurve elliptic.P256 x y = false).
Proof.
  destruct (ModSqrt_root (elliptic.P elliptic.P256) P256_prime P256_P_3mod4
              _ (polynomial_range x)) as [(r & Hs & Hr & Hsq)|(Hs & Hno)].
  - left. exists r. split; [exact Hs|]. split; [exact Hr|].
    rewrite IsOnCurve_eq. apply Z.eqb_eq. symmetry. exact Hsq.
  - right. split; [exact Hs|]. intros y. rewrite IsOnCurve_eq.
    apply Z.eqb_neq. intros Heq. exact (Hno y (eq_sym Heq)).
Qed.

Lemma IsOnCurve_neg (x r : Z) :
  elliptic.IsOnCurve elliptic.P256 x (big.Mod (- r) (elliptic.P elliptic.P256))
  = elliptic.IsOnCurve elliptic.P256 x r.
Proof.
  rewrite !IsOnCurve_eq. f_equal. unfold big.Mod.
  pose proof P256_P_pos as HP. rewrite Z.abs_eq by lia.
  rewrite <- Z.mul_mod by lia. f_equal. ring.
Qed.

(** With 33 bytes, a good tag and X below P, the outcome is a point or the
    error for a missing root, according to whether the curve has a point
    with that X. *)
Lemma parsePubKeyCompressed_cases (tag : byte) (xs : list byte) :
  len xs = 32 ->
  byte.unsigned tag = 2 \/ byte.unsigned tag = 3 ->
  big.SetBytes xs < elliptic.P elliptic.P256 ->
  (exists Q, parsePubKeyCompressed (tag :: xs) = Ok Q /\
             elliptic.IsOnCurve elliptic.P256 (big.SetBytes xs) (ecdsa.Y Q) = true) \/
  (parsePubKeyCompressed (tag :: xs) = Err ErrYData /\
   forall y, elliptic.IsOnCurve elliptic.P256 (big.SetBytes xs) y = false).
Proof.
  intros Hlen Htag Hx. rewrite (parsePubKeyCompressed_33 tag xs Hlen). cbv zeta.
  replace (negb (byte.unsigned tag =? 2) && negb (byte.unsigned tag =? 3))
    with false by (destruct Htag as [Ht|Ht]; rewrite Ht; reflexivity).
  destruct (Z.leb_spec (elliptic.P elliptic.P256) (big.SetBytes xs)); [lia|].
  destruct (decompress_root (big.SetBytes xs))
    as [(r & Hs & Hr & Hon)|(Hs & Hno)]; rewrite Hs.
  - left.
    assert (Hon' : elliptic.IsOnCurve elliptic.P256 (big.SetBytes xs)
              (if negb (big.Bit r 0 =? Z.land (byte.unsigned tag) 1)
               then big.Mod (- r) (elliptic.P elliptic.P256) else r) = true).
    { destruct (negb _); [rewrite IsOnCurve_neg|]; exact Hon. }
    rewrite Hon'. cbn [negb]. eexists. split; [reflexivity|]. exact Hon'.
  - right. split; [reflexivity|exact Hno].
Qed.

Lemma tag_byte (y : Z) :
  (byte.unsigned (if Z.even y then Byte.x02 else Byte.x03) = 2 \/
   byte.unsigned (if Z.even y then Byte.x02 else Byte.x03) = 3) /\
  Z.land (byte.unsigned (if Z.even y then Byte.x02 else Byte.x03)) 1
  = big.Bit y 0.
Proof.
  rewrite Bit0_odd, <- Z.negb_even.
  destruct (Z.even y); split; auto.
Qed.

(** Every valid point is recovered from its tag and the 32 bytes of X. *)
Lemma parsePubKeyCompressed_recovers (Q : ecdsa.PublicKey) (xs : list byte) :
  valid_point Q -> len xs = 32 -> big.SetBytes xs = ecdsa.X Q ->
  parsePubKeyCompressed
    ((if Z.even (ecdsa.Y Q) then Byte.x02 else Byte.x03) :: xs) = Ok Q.
Proof.
  intros Hv Hlen Hval. pose proof (IsOnCurve_Y_pos Q Hv) as HYpos.
  destruct Hv as (HX & HY & Hon).
  destruct (tag_byte (ecdsa.Y Q)) as [Htag Hbit].
  destruct (parsePubKeyCompressed_cases _ xs Hlen Htag ltac:(lia))
    as [(Q' & Hparse & _)|(_ & Hno)].
  2:{ specialize (Hno (ecdsa.Y Q)). rewrite Hval, Hon in Hno.
      discriminate Hno. }
  rewrite Hparse. f_equal.
  destruct (parsePubKeyCompressed_inv _ _ Hparse)
    as (tag' & xs' & Heq & _ & _ & HX' & Hv' & Hbit').
  injection Heq as <- <-.
  pose proof (IsOnCurve_Y_pos Q' Hv') as HYpos'.
  destruct Hv' as (_ & HY' & Hon').
  rewrite HX', Hval in Hon'. rewrite Hbit, !Bit0_odd in Hbit'.
  rewrite !IsOnCurve_eq in Hon, Hon'. apply Z.eqb_eq in Hon, Hon'.
  assert (HYeq : ecdsa.Y Q' = ecdsa.Y Q).
  { apply (same_root (elliptic.P elliptic.P256) P256_prime P256_P_3mod4);
      [lia|lia|congruence|].
    destruct (Z.odd (ecdsa.Y Q')), (Z.odd (ecdsa.Y Q));
      try reflexivity; discriminate Hbit'. }
  destruct Q as [x y], Q' as [x' y']. cbn [ecdsa.X ecdsa.Y] in *.
  congruence.
Qed.

(** X24: decompression is complete.  For every valid point Q, the tag of
    the parity of Y followed by X as a 32-byte field padded with zero bytes
    on the left is parsed by [parsePubKeyCompressed] to Q. *)
Theorem parsePubKeyCompressed_complete (Q : ecdsa.PublicKey) :
  valid_point Q ->
  parsePubKeyCompressed
    ((if Z.even (ecdsa.Y Q) then Byte.x02 else Byte.x03)
     :: paddedAppend 32 [] (big.Bytes (ecdsa.X Q))) = Ok Q.
Proof.
  intros Hv. pose proof prime_below_2_256 as HP.
  destruct (paddedAppend_32 (ecdsa.X Q) []) as (xs & Hxs & Hlen & _ & Hval).
  { destruct Hv as (HX & _). lia. }
  rewrite Hxs. cbn [app]. now apply parsePubKeyCompressed_recovers.
Qed.

Lemma parsePubKeyCompressed_complete_witness :
  parsePubKeyCompressed
    ((if Z.even (ecdsa.Y Q5) then Byte.x02 else Byte.x03)
     :: paddedAppend 32 [] (big.Bytes (ecdsa.X Q5))) = Ok Q5.
Proof. apply (parsePubKeyCompressed_complete Q5). exact Q5_valid. Defined.

(** X25: the compressed round trip holds for every valid point whose X
    fills its 32 bytes (X >= 2^248):
    parsePubKeyCompressed(SerializePublicKeyCompressed(Q)) returns Q. *)
Theorem compressed_round_trip_full_X (Q : ecdsa.PublicKey) :
  valid_point Q -> 256 ^ 31 <= ecdsa.X Q ->
  parsePubKeyCompressed (SerializePublicKeyCompressed Q) = Ok Q.
Proof.
  intros Hv Hfull. pose proof prime_below_2_256 as HP.
  assert (HX : 256 ^ 31 <= ecdsa.X Q < elliptic.P elliptic.P256)
    by (destruct Hv as (HX & _); lia).
  rewrite (SerializePublicKeyCompressed_full_X Q HX). unfold compressed_form.
  destruct (paddedAppend_32 (ecdsa.X Q) []) as (xs & Hxs & Hlen & _ & Hval);
    [lia|].
  rewrite Hxs. cbn [app]. now apply parsePubKeyCompressed_recovers.
Qed.

Lemma compressed_round_trip_full_X_witness :
  parsePubKeyCompressed
    (SerializePublicKeyCompressed
       {| ecdsa.X := 5 * 2 ^ 248;
          ecdsa.Y := 0x62ed618899258a6863b9f92d382469b3b6ab7da4bd35629d6c580c07fa92936d |})
  = Ok {| ecdsa.X := 5 * 2 ^ 248;
          ecdsa.Y := 0x62ed618899258a6863b9f92d382469b3b6ab7da4bd35629d6c580c07fa92936d |}.
Proof.
  apply (compressed_round_trip_full_X
           {| ecdsa.X := 5 * 2 ^ 248;
              ecdsa.Y := 0x62ed618899258a6863b9f92d382469b3b6ab7da4bd35629d6c580c07fa92936d |}).
  - unfold valid_point. cbn [ecdsa.X ecdsa.Y]. vm_compute.
    repeat split; congruence.
  - vm_compute. congruence.
Defined.

Lemma parsePubKeyCompressed_bad_tag (tag : byte) (xs : list byte) :
  len xs = 32 -> byte.unsigned tag <> 2 -> byte.unsigned tag <> 3 ->
  parsePubKeyCompressed (tag :: xs) = Err ErrCompressedForm.
Proof.
  intros Hlen H2 H3. rewrite (parsePubKeyCompressed_33 tag xs Hlen).
  destruct (Z.eqb_spec (byte.unsigned tag) 2); [contradiction|].
  destruct (Z.eqb_spec (byte.unsigned tag) 3); [contradiction|]. reflexivity.
Qed.

Lemma parsePubKeyCompressed_big_X (tag : byte) (xs : list byte) :
  len xs = 32 -> byte.unsigned tag = 2 \/ byte.unsigned tag = 3 ->
  elliptic.P elliptic.P256 <= big.SetBytes xs ->
  parsePubKeyCompressed (tag :: xs) = Err ErrXData.
Proof.
  intros Hlen Htag Hx. rewrite (parsePubKeyCompressed_33 tag xs Hlen). cbv zeta.
  replace (negb (byte.unsigned tag =? 2) && negb (byte.unsigned tag =? 3))
    with false by (destruct Htag as [Ht|Ht]; rewrite Ht; reflexivity).
  destruct (Z.leb_spec (elliptic.P elliptic.P256) (big.SetBytes xs)); [|lia].
  reflexivity.
Qed.

(** The outcomes on 33 bytes. *)
Lemma parsePubKeyCompressed_33_outcomes (tag : byte) (xs : list byte) :
  len xs = 32 ->
  (parsePubKeyCompressed (tag :: xs) = Err ErrCompressedForm /\
   byte.unsigned tag <> 2 /\ byte.unsigned tag <> 3) \/
  (parsePubKeyCompressed (tag :: xs) = Err ErrXData /\
   (byte.unsigned tag = 2 \/ byte.unsigned tag = 3) /\
   elliptic.P elliptic.P256 <= big.SetBytes xs) \/
  ((byte.unsigned tag = 2 \/ byte.unsigned tag = 3) /\
   big.SetBytes xs < elliptic.P elliptic.P256 /\
   ((exists Q, parsePubKeyCompressed (tag :: xs) = Ok Q /\
               elliptic.IsOnCurve elliptic.P256 (big.SetBytes xs) (ecdsa.Y Q)
               = true) \/
    (parsePubKeyCompressed (tag :: xs) = Err ErrYData /\
     forall y, elliptic.IsOnCurve elliptic.P256 (big.SetBytes xs) y = false))).
Proof.
  intros Hlen.
  assert (Htag : (byte.unsigned tag = 2 \/ byte.unsigned tag = 3) \/
                 (byte.unsigned tag <> 2 /\ byte.unsigned tag <> 3)) by lia.
  destruct Htag as [Htag|[H2 H3]].
  - destruct (Z.lt_ge_cases (big.SetBytes xs) (elliptic.P elliptic.P256))
      as [Hx|Hx].
    + right. right. split; [exact Htag|]. split; [exact Hx|].
      now apply parsePubKeyCompressed_cases.
    + right. left. split; [now apply parsePubKeyCompressed_big_X|]. auto.
  - left. split; [now apply parsePubKeyCompressed_bad_tag|]. auto.
Qed.

(** X26: the last check of [parsePubKeyCompressed] never fails: the error
    "IsOnCurve error" is returned on no input, because the root that
    [ModSqrt] returns for the prime of P-256 always satisfies the curve
    equation. *)
Theorem parsePubKeyCompressed_IsOnCurve_error_unreachable (data : list byte) :
  parsePubKeyCompressed data <> Err ErrIsOnCurve.
Proof.
  destruct (Z.eq_dec (len data) 33) as [Hlen|Hlen].
  2:{ rewrite (parsePubKeyCompressed_wrong_length data Hlen). discriminate. }
  destruct data as [|tag xs]; [discriminate Hlen|].
  rewrite len_cons in Hlen. assert (Hxs : len xs = 32) by lia.
  destruct (parsePubKeyCompressed_33_outcomes tag xs Hxs)
    as [(-> & _)|[(-> & _)|(_ & _ & [(Q & -> & _)|(-> & _)])]]; discriminate.
Qed.

(** X27: the error for a missing root means what it says.
    [parsePubKeyCompressed] returns the "y data error" exactly when the
    input has 33 bytes, the tag is 2 or 3, X is below P, and no point of the
    curve has this X. *)
Theorem parsePubKeyCompressed_YData_error (data : list byte) :
  parsePubKeyCompressed data = Err ErrYData <->
  len data = 33 /\
  (byte.unsigned (hd Byte.x00 data) = 2 \/ byte.unsigned (hd Byte.x00 data) = 3) /\
  big.SetBytes (tl data) < elliptic.P elliptic.P256 /\
  forall y, elliptic.IsOnCurve elliptic.P256 (big.SetBytes (tl data)) y = false.
Proof.
  split.
  - intros Herr.
    destruct (Z.eq_dec (len data) 33) as [Hlen|Hlen].
    2:{ rewrite (parsePubKeyCompressed_wrong_length data Hlen) in Herr.
        discriminate Herr. }
    split; [exact Hlen|].
    destruct data as [|tag xs]; [discriminate Hlen|]. cbn [hd tl].
    rewrite len_cons in Hlen. assert (Hxs : len xs = 32) by lia.
    destruct (parsePubKeyCompressed_33_outcomes tag xs Hxs)
      as [(He & _)|[(He & _)|(Htag & Hx & [(Q & He & _)|(_ & Hno)])]];
      try (rewrite He in Herr; discriminate Herr).
    auto.
  - intros (Hlen & Htag & Hx & Hno).
    destruct data as [|tag xs]; [discriminate Hlen|]. cbn [hd tl] in *.
    rewrite len_cons in Hlen. assert (Hxs : len xs = 32) by lia.
    destruct (parsePubKeyCompressed_cases tag xs Hxs Htag Hx)
      as [(Q & _ & Hon)|(He & _)]; [|exact He].
    rewrite Hno in Hon. discriminate Hon.
Qed.

Lemma parsePubKeyCompressed_YData_error_witness :
  elliptic.IsOnCurve elliptic.P256 (2 * 2 ^ 248) 1 = false.
Proof.
  refine (proj2 (proj2 (proj2 (proj1 (parsePubKeyCompressed_YData_error
            (Byte.x02 :: Byte.x02 :: repeat Byte.x00 31)) _))) 1).
  vm_compute. reflexivity.
Defined.

(** X28: on the parameters of P-256, [polynomial] is x^3 - 3x + B reduced
    modulo P, and it is never zero: its value lies in [1, P - 1] for every
    x, so the curve has no point with Y = 0. *)
Theorem polynomial_P256_nonzero (x : Z) :
  polynomial (elliptic.B elliptic.P256) (elliptic.P elliptic.P256) x =
    (x * x * x - 3 * x + elliptic.B elliptic.P256) mod elliptic.P elliptic.P256 /\
  0 < polynomial (elliptic.B elliptic.P256) (elliptic.P elliptic.P256) x
    < elliptic.P elliptic.P256 /\
  elliptic.IsOnCurve elliptic.P256 x 0 = false.
Proof.
  split; [apply polynomial_eq, P256_P_pos|].
  split; [apply polynomial_range|apply IsOnCurve_Y_nonzero].
Qed.
